(** * Quiz randomization, quiz delivery, question buckets and proctoring
      sessions of the assessment platform: a shallow embedding of
      [server.js] and of the proctoring module, with the properties of
      the specification stated and proved over it. *)

From Stdlib Require Import ZArith Lia.
From Stdlib Require QArith.QArith_base QArith.Qround.
From stdpp Require Import base option gmap strings list fin_maps sorting.

(* String literals are read as strings; [++], [<=?] and the like stay
   those of lists and numbers. *)
Open Scope string_scope.
Open Scope list_scope.
Open Scope nat_scope.

(** ** JavaScript values

    Primitives are held by value, arrays and objects by reference into a
    heap.  Numbers are the integers (no NaN, no fractions), so that the
    strict equality [===] used by [indexOf] is equality of [jsval]:
    primitives compare by value and references by identity. *)

Definition loc := positive.

Inductive jsval :=
  | JUndefined
  | JNull
  | JBool (b : bool)
  | JNum (n : Z)
  | JStr (s : string)
  | JRef (l : loc).

Global Instance jsval_eq_dec : EqDecision jsval.
Proof. solve_decision. Defined.

Global Instance jsval_inhabited : Inhabited jsval := populate JUndefined.

(** [!!v] of JavaScript: every value is truthy except [undefined], [null],
    [false], [0] and the empty string. *)
Definition truthy (v : jsval) : bool :=
  match v with
  | JUndefined | JNull => false
  | JBool b => b
  | JNum n => negb (n =? 0)%Z
  | JStr s => negb (String.eqb s "")
  | JRef _ => true
  end.

(** A parameter with a default value: the default replaces [undefined]
    only. *)
Definition default_param (dflt v : jsval) : jsval :=
  match v with JUndefined => dflt | _ => v end.

(** ** Proctoring sessions (the proctoring module)

    The two tables of the module and the manager's in-memory map.  The
    clock ([CURRENT_TIMESTAMP], [new Date()]) is an argument [now] of
    every operation. *)

Inductive proctoring_level := basic | standard | advanced.
Inductive session_status := active | completed | terminated | paused.
Inductive violation_type :=
  | tab_switch | window_blur | multiple_faces | no_face | suspicious_audio
  | right_click | copy_paste | fullscreen_exit | browser_dev_tools
  | external_monitor.
Inductive severity_level :=
  | severity_low | severity_medium | severity_high | severity_critical.

Global Instance session_status_eq_dec : EqDecision session_status.
Proof. solve_decision. Defined.

(** A row of [proctoring_sessions], keyed by its unique [session_id].
    [violation_count] is an INT column; it is modelled unbounded. *)
Record session_row := {
  user_email : string;
  user_name : string;
  assessment_id : string;
  level : proctoring_level;
  status : session_status;
  start_time : nat;
  end_time : option nat;
  violation_count : nat;
  strict_mode : bool;
  settings : string;
  updated_at : nat
}.

(** A row of [proctoring_violations]; [evidence] is the JSON text. *)
Record violation_row := {
  session_id : string;
  v_type : violation_type;
  severity : severity_level;
  description : string;
  evidence : string;
  auto_flagged : bool;
  timestamp : nat
}.

Record database := {
  proctoring_sessions : gmap string session_row;
  proctoring_violations : list violation_row
}.

(** The body of a start request.  Optional fields are [None] when the
    request leaves them out. *)
Record session_data := {
  sessionId : string;
  userEmail : string;
  userName : option string;
  assessmentId : string;
  proctoringLevel : option proctoring_level;
  strictMode : option bool;
  sd_settings : option string
}.

Record violation_data := {
  violationType : violation_type;
  vd_severity : option severity_level;
  vd_description : option string;
  vd_evidence : option string;
  autoFlagged : option bool
}.

Record cached_violation := {
  cv_type : violation_type;
  cv_severity : severity_level;
  cv_timestamp : nat;
  cv_description : string;
  cv_evidence : string
}.

(** An entry of [activeSessions]: the start request spread into an object
    with [violations], [startTime] and [lastActivity]. *)
Record cached_session := {
  data : session_data;
  violations : list cached_violation;
  startTime : nat;
  lastActivity : nat
}.

Record manager := {
  pool : database;
  activeSessions : gmap string cached_session
}.

(** What makes a method of the manager reject: [pool.execute] refuses
    a statement, or [JSON.parse] throws on a column that was read. *)
Inductive db_error :=
  | ER_DUP_ENTRY            (* UNIQUE session_id *)
  | ER_NO_REFERENCED_ROW    (* FOREIGN KEY (session_id) *)
  | ER_UNDEFINED_PARAMETER  (* undefined among the bind parameters *)
  | JSON_SYNTAX_ERROR.      (* JSON.parse throws *)

(** An async method resolves with a value or rejects with the error it
    rethrows. *)
Inductive promise (A : Type) :=
  | Resolved (a : A)
  | Rejected (e : db_error).
Arguments Resolved {A} a.
Arguments Rejected {A} e.

Record start_response := { st_success : bool; st_sessionId : string }.
Record log_response := { lg_success : bool; violationCount : nat }.
Record end_response := { en_success : bool; en_reason : jsval }.

Definition empty_database : database :=
  {| proctoring_sessions := ∅; proctoring_violations := [] |}.

(** [new ProctoringManager(pool)]: the map starts empty. *)
Definition new_manager (db : database) : manager :=
  {| pool := db; activeSessions := ∅ |}.

(** A process restart keeps the database and loses the map. *)
Definition restart (m : manager) : manager := new_manager (pool m).

Definition set_sessions (f : gmap string session_row → gmap string session_row)
    (db : database) : database :=
  {| proctoring_sessions := f (proctoring_sessions db);
     proctoring_violations := proctoring_violations db |}.

(** [startSession]: the INSERT (rejected for a session id that has a
    row already), then the entry in the map. *)
Definition startSession (now : nat) (sd : session_data) (m : manager)
    : promise start_response * manager :=
  match userName sd with
  | None => (Rejected ER_UNDEFINED_PARAMETER, m)
  | Some uname =>
    match proctoring_sessions (pool m) !! sessionId sd with
    | Some _ => (Rejected ER_DUP_ENTRY, m)
    | None =>
      let row := {| user_email := userEmail sd;
                    user_name := uname;
                    assessment_id := assessmentId sd;
                    level := default basic (proctoringLevel sd);
                    status := active;
                    start_time := now;
                    end_time := None;
                    violation_count := 0;
                    strict_mode := default false (strictMode sd);
                    settings := default "{}" (sd_settings sd);
                    updated_at := now |} in
      let entry := {| data := sd; violations := [];
                      startTime := now; lastActivity := now |} in
      (Resolved {| st_success := true; st_sessionId := sessionId sd |},
       {| pool := set_sessions <[sessionId sd := row]> (pool m);
          activeSessions := <[sessionId sd := entry]> (activeSessions m) |})
    end
  end.

(** [reason === 'completed' ? 'completed' : 'terminated'] *)
Definition status_of_reason (reason : jsval) : session_status :=
  if decide (reason = JStr "completed") then completed else terminated.

(** [SET status = ?, end_time = CURRENT_TIMESTAMP,
        updated_at = CURRENT_TIMESTAMP] *)
Definition end_row (now : nat) (st : session_status) (r : session_row)
    : session_row :=
  {| user_email := user_email r; user_name := user_name r;
     assessment_id := assessment_id r; level := level r;
     status := st;
     start_time := start_time r;
     end_time := Some now;
     violation_count := violation_count r;
     strict_mode := strict_mode r; settings := settings r;
     updated_at := now |}.

(** [endSession(sessionId, reason = 'completed')]: one UPDATE that matches
    the row of [sessionId] if there is one, then the entry leaves the map. *)
Definition endSession (now : nat) (sid : string) (reason : jsval) (m : manager)
    : promise end_response * manager :=
  let reason := default_param (JStr "completed") reason in
  (Resolved {| en_success := true; en_reason := reason |},
   {| pool := set_sessions (alter (end_row now (status_of_reason reason)) sid)
                (pool m);
      activeSessions := delete sid (activeSessions m) |}).

(** [terminateSession(sessionId, reason)] ends the session with the
    reason [`terminated_${reason}`]. *)
Definition terminateSession (now : nat) (sid : string) (reason : string)
    (m : manager) : promise end_response * manager :=
  endSession now sid (JStr (String.append "terminated_" reason)) m.

(** [SET violation_count = violation_count + 1,
        updated_at = CURRENT_TIMESTAMP] *)
Definition count_row (now : nat) (r : session_row) : session_row :=
  {| user_email := user_email r; user_name := user_name r;
     assessment_id := assessment_id r; level := level r;
     status := status r;
     start_time := start_time r;
     end_time := end_time r;
     violation_count := violation_count r + 1;
     strict_mode := strict_mode r; settings := settings r;
     updated_at := now |}.

(** [session.strictMode] read back from the cached start request. *)
Definition cached_strict (s : cached_session) : bool :=
  default false (strictMode (data s)).

(** The row that [logViolation] inserts into [proctoring_violations],
    with the defaults of the destructured [violationData]. *)
Definition inserted_row (now : nat) (sid : string) (vd : violation_data)
    : violation_row :=
  {| session_id := sid; v_type := violationType vd;
     severity := default severity_medium (vd_severity vd);
     description := default "" (vd_description vd);
     evidence := default "{}" (vd_evidence vd);
     auto_flagged := default true (autoFlagged vd);
     timestamp := now |}.

(** The object that [logViolation] pushes onto [session.violations]. *)
Definition pushed_violation (now : nat) (vd : violation_data)
    : cached_violation :=
  {| cv_type := violationType vd;
     cv_severity := default severity_medium (vd_severity vd);
     cv_timestamp := now;
     cv_description := default "" (vd_description vd);
     cv_evidence := default "{}" (vd_evidence vd) |}.

(** [logViolation]: the INSERT of the violation (rejected by the foreign
    key when the session has no row), the UPDATE of the counter, then
    the in-memory entry, if there is one, with the strict-mode check. *)
Definition logViolation (now : nat) (sid : string) (vd : violation_data)
    (m : manager) : promise log_response * manager :=
  match proctoring_sessions (pool m) !! sid with
  | None => (Rejected ER_NO_REFERENCED_ROW, m)
  | Some _ =>
    let db1 := {| proctoring_sessions := proctoring_sessions (pool m);
                  proctoring_violations :=
                    proctoring_violations (pool m) ++ [inserted_row now sid vd] |} in
    let db2 := set_sessions (alter (count_row now) sid) db1 in
    match activeSessions m !! sid with
    | Some session =>
      let session' :=
        {| data := data session;
           violations := violations session ++ [pushed_violation now vd];
           startTime := startTime session;
           lastActivity := now |} in
      let m1 := {| pool := db2;
                   activeSessions := <[sid := session']> (activeSessions m) |} in
      let m2 := if cached_strict session' && (3 <=? length (violations session'))%nat
                then (terminateSession now sid "violation_threshold_exceeded" m1).2
                else m1 in
      (Resolved {| lg_success := true;
                   violationCount := length (violations session') |}, m2)
    | None =>
      (Resolved {| lg_success := true; violationCount := 0 |},
       {| pool := db2; activeSessions := activeSessions m |})
    end
  end.

(** Rows of [proctoring_violations] of one session. *)
Definition violations_of (sid : string) (db : database) : list violation_row :=
  filter (λ v, session_id v = sid) (proctoring_violations db).


(** [ORDER BY timestamp DESC], as a stable insertion sort. *)
Fixpoint insert_desc (v : violation_row) (l : list violation_row)
    : list violation_row :=
  match l with
  | [] => [v]
  | w :: l' => if (timestamp w <? timestamp v)%nat then v :: l
               else w :: insert_desc v l'
  end.

Definition order_by_timestamp_desc (l : list violation_row)
    : list violation_row :=
  foldr insert_desc [] l.

Record session_view := {
  sv_row : session_row;
  total_violations : nat;
  sv_violations : list violation_row
}.

(** Reading a JSON column back.  The methods that read sessions and
    violations run [JSON.parse(x || '{}')] on what the driver hands over
    for a JSON column ([evidence], [settings], [metadata]).  A driver
    that hands over the stored text lets the parse return for every
    text that was written.  A driver that decodes the column, as mysql2
    does for the JSON type of MySQL, hands over an object for a stored
    object; [JSON.parse] converts it to the string [[object Object]] and
    throws.  [parses text] says whether the parse returns for a column
    that stores [text]; it is an argument of the methods that read. *)

(** [getSession]: the row joined with the count of its violations, and
    the violations themselves, each with its evidence parsed; [null]
    when there is no such row.  The error of a parse is rethrown. *)
Definition getSession (parses : string → bool) (sid : string) (m : manager)
    : promise (option session_view) :=
  match proctoring_sessions (pool m) !! sid with
  | None => Resolved None
  | Some row =>
    let violations := order_by_timestamp_desc (violations_of sid (pool m)) in
    if forallb (λ v, parses (evidence v)) violations
    then Resolved
           (Some {| sv_row := row;
                    total_violations := length (violations_of sid (pool m));
                    sv_violations := violations |})
    else Rejected JSON_SYNTAX_ERROR
  end.

(** Requests reaching the manager, and a process restart. *)
Inductive event :=
  | EvStart (sd : session_data)
  | EvLog (sid : string) (vd : violation_data)
  | EvEnd (sid : string) (reason : jsval)
  | EvRestart.

Definition step (now : nat) (e : event) (m : manager) : manager :=
  match e with
  | EvStart sd => (startSession now sd m).2
  | EvLog sid vd => (logViolation now sid vd m).2
  | EvEnd sid reason => (endSession now sid reason m).2
  | EvRestart => restart m
  end.

(** The deployment that comes with the sources runs the server under
    PM2 in cluster mode with as many instances as there are cores:
    several processes over one database, each with a manager of its own
    and so with its own [activeSessions].  A call is handled by one
    process; the statements of one call are taken together, calls are
    not interleaved.  A restart of a process empties its map. *)
Record cluster := {
  shared : database;
  workers : gmap nat (gmap string cached_session)
}.

Definition new_cluster : cluster :=
  {| shared := empty_database; workers := ∅ |}.

(** The map of process [k]; a process that has stored nothing has the
    empty map. *)
Definition worker_map (k : nat) (c : cluster) : gmap string cached_session :=
  default ∅ (workers c !! k).

(** The manager of process [k]: the shared database and its own map. *)
Definition worker_view (k : nat) (c : cluster) : manager :=
  {| pool := shared c; activeSessions := worker_map k c |}.

(** Process [k] handles a request, or restarts. *)
Definition handle (now : nat) (k : nat) (e : event) (c : cluster) : cluster :=
  let m := step now e (worker_view k c) in
  {| shared := pool m; workers := <[k := activeSessions m]> (workers c) |}.

Inductive cluster_reachable : cluster → Prop :=
  | cluster_reachable_init : cluster_reachable new_cluster
  | cluster_reachable_handle now k e c :
      cluster_reachable c → cluster_reachable (handle now k e c).

(** Run a list of timed events, each with the process that handles
    it. *)
Definition cluster_run (evs : list (nat * nat * event)) (c : cluster)
    : cluster :=
  foldl (λ c x, handle x.1.1 x.1.2 x.2 c) c evs.

(** The states that a manager can be in: what some process of the
    cluster sees after any sequence of requests and restarts, handled
    by any of the processes, from empty tables. *)
Definition reachable (m : manager) : Prop :=
  ∃ c k, cluster_reachable c ∧ m = worker_view k c.

(** Run a list of timed events on one manager, with no other process
    at work in between. *)
Definition run (evs : list (nat * event)) (m : manager) : manager :=
  foldl (λ m te, step te.1 te.2 m) m evs.

(** What the database and the map of a process keep between calls: the
    counter of a session is the number of its violation rows, every
    violation row belongs to a session (the foreign key), and an entry
    of the map belongs to a session that has a row, with the strict
    mode of the entry and with a counter that is not below the number
    of violations in the entry.  (The counter is above it, and the
    session may have ended, when other processes have handled calls for
    the session.) *)
Record consistent (m : manager) : Prop := {
  count_is_rows : ∀ sid row,
    proctoring_sessions (pool m) !! sid = Some row →
    violation_count row = length (violations_of sid (pool m));
  rows_have_session : ∀ sid,
    proctoring_sessions (pool m) !! sid = None →
    violations_of sid (pool m) = [];
  cache_has_row : ∀ sid s,
    activeSessions m !! sid = Some s →
    ∃ row, proctoring_sessions (pool m) !! sid = Some row ∧
           length (violations s) ≤ violation_count row ∧
           strict_mode row = cached_strict s
}.

(** Sample requests used by the examples. *)
Definition strict_start : session_data :=
  {| sessionId := "s1"; userEmail := "ana@example.org";
     userName := Some "Ana"; assessmentId := "javascript";
     proctoringLevel := Some standard; strictMode := Some true;
     sd_settings := None |}.

Definition a_violation (t : violation_type) : violation_data :=
  {| violationType := t; vd_severity := None; vd_description := None;
     vd_evidence := None; autoFlagged := None |}.

(** Columns of the row of a session. *)
Definition stored_status (sid : string) (m : manager) : option session_status :=
  status <$> proctoring_sessions (pool m) !! sid.
Definition stored_end_time (sid : string) (m : manager) : option (option nat) :=
  end_time <$> proctoring_sessions (pool m) !! sid.
Definition stored_count (sid : string) (m : manager) : option nat :=
  violation_count <$> proctoring_sessions (pool m) !! sid.

(** ** The heap of arrays and objects

    An array cell holds its elements; an object cell holds its own
    properties.  [Math.random] is an oracle: [entropy k] decides the
    [k]-th draw of the run, so that every statement below holds for all
    outcomes of the random source. *)

Inductive cell :=
  | CArr (elems : list jsval)
  | CObj (fields : gmap string jsval).

Record world := {
  mem : gmap loc cell;
  entropy : nat → nat;
  drawn : nat
}.

Inductive js_error := TypeError | SyntaxError.

(** A computation returns a value in a new world, throws in the world
    it has reached, or leaves the fragment of JavaScript that is modelled
    ([Stuck]: a dangling reference, or a property name or comparison on
    strings and objects that the model does not interpret). *)
Inductive outcome (A : Type) :=
  | Ok (a : A) (w : world)
  | Throw (e : js_error) (w : world)
  | Stuck.
Arguments Ok {A} a w.
Arguments Throw {A} e w.
Arguments Stuck {A}.

Definition M (A : Type) : Type := world → outcome A.

Definition ret {A} (a : A) : M A := λ w, Ok a w.
Definition bind {A B} (m : M A) (k : A → M B) : M B :=
  λ w, match m w with
       | Ok a w' => k a w'
       | Throw e w' => Throw e w'
       | Stuck => Stuck
       end.
Definition throw {A} (e : js_error) : M A := λ w, Throw e w.
Definition stuck {A} : M A := λ _, Stuck.

(** [try { m } catch (e) { handler }] *)
Definition catch {A} (m : M A) (handler : js_error → M A) : M A :=
  λ w, match m w with
       | Throw e w' => handler e w'
       | r => r
       end.

Notation "'let*' x ':=' m 'in' k" := (bind m (λ x, k))
  (at level 10, x name, m at level 100, k at level 200,
   format "'[v' 'let*'  x  ':='  m  'in' '/' k ']'").
Notation "m ';;' k" := (bind m (λ _, k))
  (at level 100, k at level 200, right associativity).

Definition with_mem (h : gmap loc cell) (w : world) : world :=
  {| mem := h; entropy := entropy w; drawn := drawn w |}.

(** A new array or object gets a location that is not in use. *)
Definition alloc (c : cell) : M loc :=
  λ w, let l := fresh (dom (mem w)) in Ok l (with_mem (<[l := c]> (mem w)) w).

Definition load (l : loc) : M cell :=
  λ w, match mem w !! l with Some c => Ok c w | None => Stuck end.

Definition store (l : loc) (c : cell) : M unit :=
  λ w, match mem w !! l with
       | Some _ => Ok tt (with_mem (<[l := c]> (mem w)) w)
       | None => Stuck
       end.

(** [Math.floor(Math.random() * n)] for [n ≥ 1]: some index below [n]. *)
Definition random_below (n : nat) : M nat :=
  λ w, Ok (entropy w (drawn w) mod n)
          {| mem := mem w; entropy := entropy w; drawn := S (drawn w) |}.

Fixpoint mapM {A B} (f : A → M B) (l : list A) : M (list B) :=
  match l with
  | [] => ret []
  | x :: l' => let* y := f x in let* ys := mapM f l' in ret (y :: ys)
  end.

(** [v.k] for a property name [k] that no prototype defines (the names
    read in this program are [options], [correct], [length] and the
    fields of the settings).  Reading a property of [null] or
    [undefined] throws. *)
Definition get_prop (v : jsval) (k : string) : M jsval :=
  match v with
  | JUndefined | JNull => throw TypeError
  | JBool _ | JNum _ => ret JUndefined
  | JStr s =>
      ret (if String.eqb k "length" then JNum (Z.of_nat (String.length s))
           else JUndefined)
  | JRef l =>
      let* c := load l in
      match c with
      | CArr es =>
          ret (if String.eqb k "length" then JNum (Z.of_nat (length es))
               else JUndefined)
      | CObj fs => ret (default JUndefined (fs !! k))
      end
  end.

(** [Array.isArray(v)] *)
Definition isArray (v : jsval) : M bool :=
  match v with
  | JRef l => let* c := load l in
              ret (match c with CArr _ => true | CObj _ => false end)
  | _ => ret false
  end.

(** [es[key]] on the elements of an array: an integer index reads the
    element or [undefined] out of range; [undefined], [null] and booleans
    name no property of an array.  String and object keys are property
    names ("length", "1", ...) and are not interpreted. *)
Definition index_elems (es : list jsval) (key : jsval) : option jsval :=
  match key with
  | JNum n => Some (if (0 <=? n)%Z then default JUndefined (es !! Z.to_nat n)
                    else JUndefined)
  | JUndefined | JNull | JBool _ => Some JUndefined
  | JStr _ | JRef _ => None
  end.

(** [arr[key]] for a value [arr] known to be an array. *)
Definition get_index (arr key : jsval) : M jsval :=
  match arr with
  | JRef l =>
      let* c := load l in
      match c with
      | CArr es => match index_elems es key with
                   | Some v => ret v
                   | None => stuck
                   end
      | CObj _ => stuck
      end
  | _ => stuck
  end.

(** [es[i] = v]: writes in range, extends the array beyond it. *)
Definition array_set (es : list jsval) (i : nat) (v : jsval) : list jsval :=
  if i <? length es then <[i := v]> es
  else es ++ replicate (i - length es) JUndefined ++ [v].

(** [es.indexOf(x)]: the first index whose element is [=== x], or -1. *)
Fixpoint indexOf_from (i : Z) (es : list jsval) (x : jsval) : Z :=
  match es with
  | [] => (-1)%Z
  | e :: es' => if decide (e = x) then i else indexOf_from (i + 1)%Z es' x
  end.
Definition indexOf (es : list jsval) (x : jsval) : Z := indexOf_from 0%Z es x.

Fixpoint chars (s : string) : list jsval :=
  match s with
  | EmptyString => []
  | String c s' => JStr (String c EmptyString) :: chars s'
  end.

(** The elements that [[...v]] copies: those of an array, the characters
    of a string; other values are not iterable. *)
Definition spread (v : jsval) : M (list jsval) :=
  match v with
  | JRef l => let* c := load l in
              match c with
              | CArr es => ret es
              | CObj _ => throw TypeError
              end
  | JStr s => ret (chars s)
  | _ => throw TypeError
  end.

(** ** The randomization engine ([server.js]) *)

(** [[shuffled[i], shuffled[j]] = [shuffled[j], shuffled[i]]] on the array
    at [a]: both elements are read, then index [i] and index [j] are
    written. *)
Definition swap_elems (es : list jsval) (i j : nat) : list jsval :=
  let at_j := default JUndefined (es !! j) in
  let at_i := default JUndefined (es !! i) in
  array_set (array_set es i at_j) j at_i.

Definition swap (a : loc) (i j : nat) : M unit :=
  let* c := load a in
  match c with
  | CArr es => store a (CArr (swap_elems es i j))
  | CObj _ => stuck
  end.

(** [for (let i = ...; i > 0; i--) { j = floor(random() * (i + 1)); swap }] *)
Fixpoint shuffle_from (a : loc) (i : nat) : M unit :=
  match i with
  | 0 => ret tt
  | S i' => let* j := random_below (i + 1) in
            swap a i j ;;
            shuffle_from a i'
  end.

Definition shuffleArray (array : jsval) : M jsval :=
  let* es := spread array in
  let* shuffled := alloc (CArr es) in
  shuffle_from shuffled (length es - 1) ;;
  ret (JRef shuffled).

(** [{...question, options, correct, originalOrder}]: the own properties
    of an object; a primitive spreads to nothing.  (An array would spread
    its indices; the callers below only reach this with an object.) *)
Definition own_fields (v : jsval) : M (gmap string jsval) :=
  match v with
  | JRef l => let* c := load l in
              match c with
              | CObj fs => ret fs
              | CArr _ => stuck
              end
  | _ => ret ∅
  end.

Definition randomizeQuestionOptions (question : jsval) : M jsval :=
  let* options := get_prop question "options" in
  let* is_array := isArray options in
  if negb (truthy options) || negb is_array then ret question
  else
    let* correct := get_prop question "correct" in
    let* correctAnswer := get_index options correct in
    let* shuffledOptions := shuffleArray options in
    let* shuffled := spread shuffledOptions in
    let newCorrectIndex := indexOf shuffled correctAnswer in
    let* fs := own_fields question in
    let* q := alloc (CObj (<["originalOrder" := options]>
                          (<["correct" := JNum newCorrectIndex]>
                          (<["options" := shuffledOptions]> fs)))) in
    ret (JRef q).

(** [arr.map(f)] *)
Definition array_map (f : jsval → M jsval) (arr : jsval) : M jsval :=
  let* es := spread arr in
  let* rs := mapM f es in
  let* a := alloc (CArr rs) in
  ret (JRef a).

(** [questionLimit && questionLimit > 0 && questionLimit < length], with
    the count that [slice(0, questionLimit)] then keeps.  A boolean
    compares and slices as 0 or 1.  Non-empty strings and objects are
    compared after a conversion that is not interpreted. *)
Definition limit_to (questionLimit : jsval) (len : nat) : option (option nat) :=
  match questionLimit with
  | JUndefined | JNull => Some None
  | JNum n => Some (if negb (n =? 0)%Z && (0 <? n)%Z && (n <? Z.of_nat len)%Z
                    then Some (Z.to_nat n) else None)
  | JBool b => Some (if b && (1 <? len) then Some 1 else None)
  | JStr s => if String.eqb s "" then Some None else None
  | JRef _ => None
  end.

Definition randomizeQuiz (questions randomizeQuestions randomizeOptions
    questionLimit : jsval) : M jsval :=
  let randomizeQuestions := default_param (JBool true) randomizeQuestions in
  let randomizeOptions := default_param (JBool true) randomizeOptions in
  let questionLimit := default_param JNull questionLimit in
  let* es := spread questions in
  let* copy := alloc (CArr es) in
  let processedQuestions := JRef copy in
  let* processedQuestions :=
    if truthy randomizeOptions
    then array_map randomizeQuestionOptions processedQuestions
    else ret processedQuestions in
  let* processedQuestions :=
    if truthy randomizeQuestions
    then shuffleArray processedQuestions
    else ret processedQuestions in
  let* current := spread processedQuestions in
  match limit_to questionLimit (length current) with
  | None => stuck
  | Some (Some n) =>
      let* sliced := alloc (CArr (take n current)) in
      ret (JRef sliced)
  | Some None => ret processedQuestions
  end.

(** Reading a heap from outside, to state what a run did: the value of a
    property of an object, and the elements of an array. *)
Definition field_of (h : gmap loc cell) (v : jsval) (k : string) : jsval :=
  match v with
  | JRef l => match h !! l with
              | Some (CObj fs) => default JUndefined (fs !! k)
              | _ => JUndefined
              end
  | _ => JUndefined
  end.

Definition elems_of (h : gmap loc cell) (v : jsval) : option (list jsval) :=
  match v with
  | JRef l => match h !! l with
              | Some (CArr es) => Some es
              | _ => None
              end
  | _ => None
  end.

(** A question as the engine can take it: not [null] or [undefined], its
    references are in the heap, and when its options are an array its
    [correct] field is an index the model interprets (a number, or
    nothing). *)
Definition question_ok (h : gmap loc cell) (question : jsval) : bool :=
  match question with
  | JUndefined | JNull => false
  | JRef q =>
      match h !! q with
      | None => false
      | Some (CArr _) => true
      | Some (CObj fs) =>
          match default JUndefined (fs !! "options") with
          | JRef o =>
              match h !! o with
              | None => false
              | Some (CObj _) => true
              | Some (CArr es) =>
                  bool_decide (is_Some (index_elems es
                                 (default JUndefined (fs !! "correct"))))
              end
          | _ => true
          end
      end
  | _ => true
  end.

(** [r] in heap [h'] is the question [q] of heap [h] after option
    randomization: the same value when the options of [q] are not an
    array; otherwise an object whose options are a permutation of those
    of [q], whose [correct] index reads the value that the old index
    read, whose [originalOrder] is the old options array, still in its
    old order, and whose other fields are those of [q]. *)
Definition shuffled_version (h h' : gmap loc cell) (q r : jsval) : Prop :=
  match elems_of h (field_of h q "options") with
  | None => r = q
  | Some es =>
      ∃ es',
        elems_of h' (field_of h' r "options") = Some es' ∧
        es' ≡ₚ es ∧
        index_elems es' (field_of h' r "correct")
          = index_elems es (field_of h q "correct") ∧
        field_of h' r "originalOrder" = field_of h q "options" ∧
        elems_of h' (field_of h' r "originalOrder") = Some es ∧
        ∀ k, k ≠ "options" → k ≠ "correct" → k ≠ "originalOrder" →
             field_of h' r k = field_of h q k
  end.

(** How many questions are left for a limit that is a number or absent. *)
Definition expected_count (questionLimit : jsval) (len : nat) : nat :=
  match questionLimit with
  | JNum n => if decide (0 < n < Z.of_nat len)%Z then Z.to_nat n else len
  | _ => len
  end.

(** A question object as the quizzes store it. *)
Definition quiz_question (text : string) (o : loc) (correct : Z) : cell :=
  CObj (<["question" := JStr text]>
       (<["options" := JRef o]>
       (<["correct" := JNum correct]> ∅))).

(** A sample heap: a question with four options, the third one correct. *)
Definition sample_options : list jsval :=
  [JStr "var"; JStr "let"; JStr "const"; JStr "def"].

Definition options_loc : loc := 1%positive.
Definition question_loc : loc := 2%positive.

Definition sample_world : world :=
  {| mem := <[question_loc :=
                quiz_question "Which keyword declares a constant?" options_loc 2]>
            (<[options_loc := CArr sample_options]> ∅);
     entropy := λ k, 7 * k + 5;
     drawn := 0 |}.

(** A sample quiz of five questions: the option arrays at 1 to 5, the
    questions at 6 to 10 and the list of questions at 11. *)
Definition quiz_loc : loc := 11%positive.

Definition five_questions : list jsval :=
  [JRef 6%positive; JRef 7%positive; JRef 8%positive; JRef 9%positive;
   JRef 10%positive].

Definition quiz_world : world :=
  {| mem := list_to_map
       [(1%positive, CArr [JStr "a1"; JStr "b1"; JStr "c1"; JStr "d1"]);
        (2%positive, CArr [JStr "a2"; JStr "b2"; JStr "c2"; JStr "d2"]);
        (3%positive, CArr [JStr "a3"; JStr "b3"; JStr "c3"; JStr "d3"]);
        (4%positive, CArr [JStr "a4"; JStr "b4"; JStr "c4"; JStr "d4"]);
        (5%positive, CArr [JStr "a5"; JStr "b5"; JStr "c5"; JStr "d5"]);
        (6%positive, quiz_question "Q1" 1%positive 0);
        (7%positive, quiz_question "Q2" 2%positive 1);
        (8%positive, quiz_question "Q3" 3%positive 2);
        (9%positive, quiz_question "Q4" 4%positive 3);
        (10%positive, quiz_question "Q5" 5%positive 0);
        (quiz_loc, CArr five_questions)];
     entropy := λ k, 3 * k + 2;
     drawn := 0 |}.

(** ** Quiz delivery: [GET /api/quizzes/:id] ([server.js]) *)

(** JSON documents, as [JSON.parse] builds them. *)
#[warnings="-register-all"] Inductive json :=
  | JsNull
  | JsBool (b : bool)
  | JsNum (n : Z)
  | JsStr (s : string)
  | JsArr (items : list json)
  | JsObj (members : list (string * json)).

(** The value that [JSON.parse] returns for a document: fresh arrays and
    objects; of two members with one name the later one stays. *)
Fixpoint materialize (j : json) : M jsval :=
  match j with
  | JsNull => ret JNull
  | JsBool b => ret (JBool b)
  | JsNum n => ret (JNum n)
  | JsStr s => ret (JStr s)
  | JsArr items =>
      let* vs :=
        (fix items_of (l : list json) : M (list jsval) :=
           match l with
           | [] => ret []
           | x :: l' => let* v := materialize x in
                        let* vs := items_of l' in
                        ret (v :: vs)
           end) items in
      let* a := alloc (CArr vs) in
      ret (JRef a)
  | JsObj members =>
      let* fs :=
        (fix members_of (l : list (string * json)) (acc : gmap string jsval)
             : M (gmap string jsval) :=
           match l with
           | [] => ret acc
           | (k, x) :: l' => let* v := materialize x in
                             members_of l' (<[k := v]> acc)
           end) members ∅ in
      let* o := alloc (CObj fs) in
      ret (JRef o)
  end.

(** A text together with what [JSON.parse] does on it: the document it
    returns, or [None] when it throws a SyntaxError.  The parser itself
    is the platform's and is not modelled. *)
Record json_text := {
  raw : string;
  parses_to : option json
}.

(** A query parameter together with what [parseInt] returns on it
    ([None] for NaN). *)
Record int_text := {
  digits : string;
  parseInt_result : option Z
}.

(** The [questions] column as the driver hands it over: a string, an
    array it has decoded, or anything else. *)
Inductive questions_column :=
  | QText (t : json_text)
  | QArray (items : list json)
  | QOther.

(** A row of [quizzes].  The two settings columns are NULL or a text. *)
Record quiz_row := {
  quiz_name : string;
  quiz_description : option string;
  quiz_questions : questions_column;
  points_per_question : option Z;
  is_custom : option Z;
  randomization_settings : option json_text;
  proctoring_settings : option json_text;
  quiz_created_at : nat;
  quiz_updated_at : nat
}.

Record quiz_query := {
  randomize_questions : option string;
  randomize_options : option string;
  question_limit : option int_text;
  session_id_param : option string
}.

Record response := {
  status_code : nat;
  body : jsval
}.

(** An object literal. *)
Definition obj (fields : list (string * jsval)) : cell :=
  CObj (list_to_map fields).

(** [res.status(code).json({...})] *)
Definition reply (code : nat) (fields : list (string * jsval)) : M response :=
  let* b := alloc (obj fields) in
  ret {| status_code := code; body := JRef b |}.

Definition nullable_num (x : option Z) : jsval := from_option JNum JNull x.
Definition nullable_str (x : option string) : jsval := from_option JStr JNull x.

(** [a || b] *)
Definition js_or (a b : jsval) : jsval := if truthy a then a else b.

(** [if (column) { try { current = JSON.parse(column) } catch (e) { } }] *)
Definition parse_or_keep (column : option json_text) (current : jsval)
    : M jsval :=
  match column with
  | None => ret current
  | Some t =>
      if String.eqb (raw t) "" then ret current
      else match parses_to t with
           | Some j => materialize j
           | None => ret current
           end
  end.

(** [req.query.p !== undefined ? req.query.p === 'true' : settings.field] *)
Definition query_flag (param : option string) (settings : jsval)
    (field : string) : M jsval :=
  match param with
  | Some s => ret (JBool (String.eqb s "true"))
  | None => get_prop settings field
  end.

(** [req.query.question_limit ? parseInt(...) : settings.questionLimit];
    NaN is falsy and is sent as [null], and is modelled as [null]. *)
Definition query_limit (param : option int_text) (settings : jsval)
    : M jsval :=
  match param with
  | Some t =>
      if String.eqb (digits t) "" then get_prop settings "questionLimit"
      else ret (from_option JNum JNull (parseInt_result t))
  | None => get_prop settings "questionLimit"
  end.

Definition load_questions (column : questions_column) : M jsval :=
  match column with
  | QText t =>
      match parses_to t with
      | Some j => materialize j
      | None => throw SyntaxError
      end
  | QArray items => materialize (JsArr items)
  | QOther => let* a := alloc (CArr []) in ret (JRef a)
  end.

(** The body of the inner [try]. *)
Definition deliver (quiz : quiz_row)
    (randomizeQuestions randomizeOptions questionLimit proctoringSettings : jsval)
    : M response :=
  let* questions := load_questions (quiz_questions quiz) in
  get_prop questions "length" ;;
  let* questions :=
    if truthy randomizeQuestions || truthy randomizeOptions
       || truthy questionLimit
    then
      let* qs := randomizeQuiz questions randomizeQuestions randomizeOptions
                   questionLimit in
      get_prop qs "length" ;;
      ret qs
    else ret questions in
  let* count := get_prop questions "length" in
  let* applied := alloc (obj [("questions", randomizeQuestions);
                              ("options", randomizeOptions);
                              ("questionLimit", questionLimit);
                              ("finalQuestionCount", count)]) in
  reply 200 [("name", JStr (quiz_name quiz));
             ("description", nullable_str (quiz_description quiz));
             ("questions", questions);
             ("pointsPerQuestion", nullable_num (points_per_question quiz));
             ("isCustom", nullable_num (is_custom quiz));
             ("randomizationApplied", JRef applied);
             ("proctoringSettings", proctoringSettings)].

(** The inner [catch]: the quiz with empty questions instead of an error. *)
Definition degraded (quiz : quiz_row) (proctoringSettings : jsval)
    : M response :=
  let* empty := alloc (CArr []) in
  let* applied := alloc (obj [("questions", JBool false);
                              ("options", JBool false);
                              ("questionLimit", JNull);
                              ("finalQuestionCount", JNum 0)]) in
  reply 200 [("name", JStr (quiz_name quiz));
             ("description", nullable_str (quiz_description quiz));
             ("questions", JRef empty);
             ("pointsPerQuestion",
              js_or (nullable_num (points_per_question quiz)) (JNum 1));
             ("isCustom", nullable_num (is_custom quiz));
             ("randomizationApplied", JRef applied);
             ("proctoringSettings", proctoringSettings)].

Definition get_quiz (quizzes : gmap string quiz_row) (id : string)
    (query : quiz_query) : M response :=
  catch
    (match quizzes !! id with
     | None => reply 404 [("error", JStr "Quiz not found")]
     | Some quiz =>
         let* randomizationSettings :=
           alloc (obj [("randomizeQuestions", JBool false);
                       ("randomizeOptions", JBool false);
                       ("questionLimit", JNull)]) in
         let* proctoringSettings :=
           alloc (obj [("enabled", JBool false);
                       ("level", JStr "basic");
                       ("strictMode", JBool false)]) in
         let* randomizationSettings :=
           parse_or_keep (randomization_settings quiz)
             (JRef randomizationSettings) in
         let* proctoringSettings :=
           parse_or_keep (proctoring_settings quiz) (JRef proctoringSettings) in
         let* randomizeQuestions :=
           query_flag (randomize_questions query) randomizationSettings
             "randomizeQuestions" in
         let* randomizeOptions :=
           query_flag (randomize_options query) randomizationSettings
             "randomizeOptions" in
         let* questionLimit :=
           query_limit (question_limit query) randomizationSettings in
         catch (deliver quiz randomizeQuestions randomizeOptions questionLimit
                  proctoringSettings)
               (λ _, degraded quiz proctoringSettings)
     end)
    (λ _, reply 500 [("error", JStr "Failed to fetch quiz")]).

(** The entry of one quiz in the answer of [GET /api/quizzes]: the body
    of the loop.  A text that does not parse, or that parses to something
    that is not an array, gives an empty question list in the inner
    [try]; [hasError] is set only by the [catch] around the whole
    entry. *)
Definition list_entry (quiz : quiz_row) : M jsval :=
  catch
    (let* questions :=
       match quiz_questions quiz with
       | QText t =>
           if String.eqb (raw t) "" then
             let* a := alloc (CArr []) in ret (JRef a)
           else
             match parses_to t with
             | Some j =>
                 let* v := materialize j in
                 let* is_array := isArray v in
                 if is_array then ret v
                 else let* a := alloc (CArr []) in ret (JRef a)
             | None => let* a := alloc (CArr []) in ret (JRef a)
             end
       | QArray items => materialize (JsArr items)
       | QOther => let* a := alloc (CArr []) in ret (JRef a)
       end in
     let* count := get_prop questions "length" in
     let* entry :=
       alloc (obj [("name", JStr (quiz_name quiz));
                   ("description", nullable_str (quiz_description quiz));
                   ("questions", questions);
                   ("pointsPerQuestion",
                    js_or (nullable_num (points_per_question quiz)) (JNum 1));
                   ("isCustom", nullable_num (is_custom quiz));
                   ("questionCount", count);
                   ("createdAt", JNum (Z.of_nat (quiz_created_at quiz)));
                   ("updatedAt", JNum (Z.of_nat (quiz_updated_at quiz)))]) in
     ret (JRef entry))
    (λ e,
     let* empty := alloc (CArr []) in
     let* entry :=
       alloc (obj [("name", JStr (quiz_name quiz));
                   ("description", nullable_str (quiz_description quiz));
                   ("questions", JRef empty);
                   ("pointsPerQuestion",
                    js_or (nullable_num (points_per_question quiz)) (JNum 1));
                   ("isCustom", nullable_num (is_custom quiz));
                   ("questionCount", JNum 0);
                   ("hasError", JBool true);
                   ("errorMessage",
                    JStr match e with
                         | TypeError => "TypeError"
                         | SyntaxError => "SyntaxError"
                         end);
                   ("createdAt", JNum (Z.of_nat (quiz_created_at quiz)));
                   ("updatedAt", JNum (Z.of_nat (quiz_updated_at quiz)))]) in
     ret (JRef entry)).

(** What the inner [catch] sends. *)
Definition degraded_body (quiz : quiz_row) (ps empty applied : jsval)
    : gmap string jsval :=
  list_to_map
    [("name", JStr (quiz_name quiz));
     ("description", nullable_str (quiz_description quiz));
     ("questions", empty);
     ("pointsPerQuestion",
      js_or (nullable_num (points_per_question quiz)) (JNum 1));
     ("isCustom", nullable_num (is_custom quiz));
     ("randomizationApplied", applied);
     ("proctoringSettings", ps)].

(** Whether an object has a property of its own. *)
Definition has_field (h : gmap loc cell) (v : jsval) (k : string) : bool :=
  match v with
  | JRef l => match h !! l with
              | Some (CObj fs) => bool_decide (is_Some (fs !! k))
              | _ => false
              end
  | _ => false
  end.

(** A value whose reference, if it is one, is allocated. *)
Definition in_heap (h : gmap loc cell) (v : jsval) : Prop :=
  ∀ l, v = JRef l → is_Some (h !! l).

(** The stored randomization settings are the JSON text [null]: the one
    case in which reading a setting throws outside the inner [try]. *)
Definition settings_are_null (quiz : quiz_row) : bool :=
  match randomization_settings quiz with
  | Some t => negb (String.eqb (raw t) "") &&
              match parses_to t with Some JsNull => true | _ => false end
  | None => false
  end.

Definition no_query : quiz_query :=
  {| randomize_questions := None; randomize_options := None;
     question_limit := None; session_id_param := None |}.

(** A quiz whose [questions] text is cut off in the middle. *)
Definition damaged_quiz : quiz_row :=
  {| quiz_name := "JavaScript Basics";
     quiz_description := Some "Core language";
     quiz_questions := QText {| raw := "[{question: 'What is"; parses_to := None |};
     points_per_question := Some 1%Z;
     is_custom := Some 0%Z;
     randomization_settings := None;
     proctoring_settings := None;
     quiz_created_at := 1;
     quiz_updated_at := 1 |}.

Definition empty_world : world :=
  {| mem := ∅; entropy := λ _, 0; drawn := 0 |}.

(** A quiz whose stored randomization settings are the text [null]. *)
Definition null_settings_quiz : quiz_row :=
  {| quiz_name := "Python Basics";
     quiz_description := None;
     quiz_questions := QArray [];
     points_per_question := Some 1%Z;
     is_custom := Some 1%Z;
     randomization_settings := Some {| raw := "null"; parses_to := Some JsNull |};
     proctoring_settings := None;
     quiz_created_at := 2;
     quiz_updated_at := 2 |}.

(** ** Question buckets ([server.js])

    The tables [question_buckets] and [questions], the recount of a
    bucket and the three handlers that change the questions of a
    bucket. *)

Inductive difficulty := easy | medium | hard.

Global Instance difficulty_eq_dec : EqDecision difficulty.
Proof. solve_decision. Defined.

(** The ENUM column accepts exactly these three strings. *)
Definition parse_difficulty (s : string) : option difficulty :=
  if String.eqb s "easy" then Some easy
  else if String.eqb s "medium" then Some medium
  else if String.eqb s "hard" then Some hard
  else None.

(** A row of [questions].  [options] and [tags] are JSON columns, held as
    the document that was serialized; [is_active] is a nullable
    BOOLEAN. *)
Record question_row := {
  bucket_id : nat;
  question_text : string;
  options : json;
  correct_answer : Z;
  q_difficulty : difficulty;
  points : Z;
  explanation : string;
  tags : option json;
  is_active : option bool
}.

(** A row of [question_buckets]; the four counters are nullable INT
    columns. *)
Record bucket_row := {
  bucket_name : string;
  bucket_description : string;
  subject : string;
  total_questions : option Z;
  easy_count : option Z;
  medium_count : option Z;
  hard_count : option Z;
  bucket_is_active : bool
}.

Record bank := {
  question_buckets : gmap nat bucket_row;
  questions : gmap nat question_row;
  next_question_id : nat
}.

(** [WHERE bucket_id = ? AND is_active = TRUE] *)
Definition active_in (b : nat) (q : question_row) : Prop :=
  bucket_id q = b ∧ is_active q = Some true.

Global Instance active_in_dec b q : Decision (active_in b q).
Proof. unfold active_in. apply _. Defined.

Definition active_questions (b : nat) (db : bank) : list question_row :=
  filter (active_in b) (map_to_list (questions db)).*2.

(** SQL aggregates over the selected rows: [COUNT( * )] is 0 over no
    rows, [SUM] is NULL over no rows. *)
Definition sql_count {A} (rows : list A) : Z := Z.of_nat (length rows).

Definition sql_sum (xs : list Z) : option Z :=
  match xs with
  | [] => None
  | _ => Some (foldr Z.add 0%Z xs)
  end.

(** [CASE WHEN difficulty = d THEN 1 ELSE 0 END] *)
Definition case_difficulty (d : difficulty) (q : question_row) : Z :=
  if decide (q_difficulty q = d) then 1%Z else 0%Z.

Definition set_counts (total e m h : option Z) (r : bucket_row) : bucket_row :=
  {| bucket_name := bucket_name r;
     bucket_description := bucket_description r;
     subject := subject r;
     total_questions := total;
     easy_count := e;
     medium_count := m;
     hard_count := h;
     bucket_is_active := bucket_is_active r |}.

(** [updateBucketCounts]: the aggregate query always returns one row, so
    the UPDATE always runs; it changes the bucket if there is one. *)
Definition updateBucketCounts (bucketId : nat) (db : bank) : bank :=
  let rows := active_questions bucketId db in
  let total := Some (sql_count rows) in
  let e := sql_sum (case_difficulty easy <$> rows) in
  let m := sql_sum (case_difficulty medium <$> rows) in
  let h := sql_sum (case_difficulty hard <$> rows) in
  {| question_buckets := alter (set_counts total e m h) bucketId
                           (question_buckets db);
     questions := questions db;
     next_question_id := next_question_id db |}.

(** [s.trim()].  A string holds the UTF-8 encoding of a text, one byte
    per character of the string.  The white space of JavaScript is the
    ASCII white space (tab, line feed, vertical tab, form feed, carriage
    return, space) and, in two or three bytes, U+00A0, U+1680, U+2000
    to U+200A, U+2028, U+2029, U+202F, U+205F, U+3000 and U+FEFF. *)
Definition byte_is (c : Ascii.ascii) (n : nat) : bool :=
  Nat.eqb (Ascii.nat_of_ascii c) n.

(** U+00A0 is the bytes C2 A0. *)
Definition space_of_two (a b : Ascii.ascii) : bool :=
  byte_is a 194 && byte_is b 160.

(** U+1680 is E1 9A 80; U+2000 to U+200A are E2 80 80 to E2 80 8A;
    U+2028, U+2029 and U+202F are E2 80 A8, E2 80 A9 and E2 80 AF;
    U+205F is E2 81 9F; U+3000 is E3 80 80; U+FEFF is EF BB BF. *)
Definition space_of_three (a b c : Ascii.ascii) : bool :=
  (byte_is a 225 && byte_is b 154 && byte_is c 128)
  || (byte_is a 226 && byte_is b 128
      && ((128 <=? Ascii.nat_of_ascii c) && (Ascii.nat_of_ascii c <=? 138)
          || byte_is c 168 || byte_is c 169 || byte_is c 175))
  || (byte_is a 226 && byte_is b 129 && byte_is c 159)
  || (byte_is a 227 && byte_is b 128 && byte_is c 128)
  || (byte_is a 239 && byte_is b 187 && byte_is c 191).

(** The white space at the front of a string is dropped; with
    [backwards] the string is read from its end, so that the bytes of a
    character come last byte first. *)
Fixpoint strip_spaces (backwards : bool) (s : string) : string :=
  match s with
  | EmptyString => EmptyString
  | String a s1 =>
    if Ascii.is_space a then strip_spaces backwards s1 else
    match s1 with
    | EmptyString => s
    | String b s2 =>
      if (if backwards then space_of_two b a else space_of_two a b)
      then strip_spaces backwards s2 else
      match s2 with
      | EmptyString => s
      | String c s3 =>
        if (if backwards then space_of_three c b a else space_of_three a b c)
        then strip_spaces backwards s3 else s
      end
    end
  end.

Definition trim_start (s : string) : string := strip_spaces false s.

Definition trim (s : string) : string :=
  String.rev (strip_spaces true (String.rev (trim_start s))).

(** U+00A0, the no-break space, as a text. *)
Definition no_break_space : string :=
  Eval cbv in String (Ascii.ascii_of_nat 194)
                (String (Ascii.ascii_of_nat 160) EmptyString).

(** A number of a request body: JSON numbers are decimal fractions, so
    a number is held as a rational; [of_int z] is the integer [z]. *)
Definition number : Type := QArith_base.Q.

Definition of_int (z : Z) : number := QArith_base.inject_Z z.

Definition is_int (q : number) (z : Z) : Prop := QArith_base.Qeq q (of_int z).

(** [q < 0], [q >= n] and [!q] on numbers *)
Definition below_zero (q : number) : bool :=
  negb (QArith_base.Qle_bool (of_int 0) q).

Definition at_least (n : nat) (q : number) : bool :=
  QArith_base.Qle_bool (of_int (Z.of_nat n)) q.

Definition is_zero (q : number) : bool := QArith_base.Qeq_bool q (of_int 0).

(** The [points] of a body: a number, or any other value, of which the
    handler looks at the truthiness only; [stored] is what the INT
    column makes of such a value, [None] when the statement is
    refused. *)
Inductive points_value :=
  | PointsNumber (q : number)
  | PointsOther (is_truthy : bool) (stored : option Z).

(** The [explanation] of a body: missing or falsy, a text, or a truthy
    value that is no text and so has no [trim]. *)
Inductive explanation_value :=
  | NoExplanation
  | Explanation (text : string)
  | OtherExplanation.

(** The body of [POST /api/admin/buckets/:id/questions].  The text, the
    options, the index and the difficulty are [None] when they are
    missing or not of the type that the validation asks for (a string,
    an array, a number, a string); [aq_points] is [None] when the field
    is missing or null, [aq_tags] when it is not an array. *)
Record add_question_body := {
  aq_question_text : option string;
  aq_options : option (list json);
  aq_correct_answer : option number;
  aq_difficulty : option string;
  aq_points : option points_value;
  aq_explanation : explanation_value;
  aq_tags : option (list json)
}.

(** [points || 1] on an integer, as the update handler is given it *)
Definition points_or_one (p : option Z) : Z :=
  match p with
  | Some n => if (n =? 0)%Z then 1%Z else n
  | None => 1%Z
  end.

(** [points || 1] as the INT column [points] stores it.  What an INT
    column stores for a number that is bound to a statement is the
    argument [int_column]: the server rounds a fraction and refuses or
    clips a number out of range, depending on its SQL mode; [None] is a
    refusal. *)
Definition stored_points (int_column : number → option Z)
    (p : option points_value) : option Z :=
  match p with
  | None => Some 1%Z
  | Some (PointsNumber q) => if is_zero q then Some 1%Z else int_column q
  | Some (PointsOther false _) => Some 1%Z
  | Some (PointsOther true stored) => stored
  end.

(** [explanation ? explanation.trim() : ''], [None] for the TypeError. *)
Definition trimmed_explanation (e : explanation_value) : option string :=
  match e with
  | NoExplanation => Some EmptyString
  | Explanation text => Some (trim text)
  | OtherExplanation => None
  end.

(** The handler.  The index is compared as a number: any number from 0
    up to, and not including, the number of options passes, integer or
    not.  An exception before or in the INSERT is answered with 500. *)
Definition add_question (int_column : number → option Z) (bucketId : nat)
    (body : add_question_body) (db : bank) : nat * bank :=
  match aq_question_text body with
  | None => (400, db)
  | Some text =>
    if String.eqb (trim text) "" then (400, db) else
    match aq_options body with
    | None => (400, db)
    | Some opts =>
      if length opts <? 2 then (400, db) else
      match aq_correct_answer body with
      | None => (400, db)
      | Some c =>
        if below_zero c || at_least (length opts) c then (400, db) else
        match aq_difficulty body ≫= parse_difficulty with
        | None => (400, db)
        | Some d =>
          match trimmed_explanation (aq_explanation body),
                question_buckets db !! bucketId,   (* the foreign key *)
                int_column c,
                stored_points int_column (aq_points body) with
          | Some expl, Some _, Some index, Some pts =>
            let row :=
              {| bucket_id := bucketId;
                 question_text := trim text;
                 options := JsArr opts;
                 correct_answer := index;
                 q_difficulty := d;
                 points := pts;
                 explanation := expl;
                 tags := match aq_tags body with
                         | Some (t :: ts) => Some (JsArr (t :: ts))
                         | _ => None
                         end;
                 is_active := Some true |} in
            let db1 :=
              {| question_buckets := question_buckets db;
                 questions := <[next_question_id db := row]> (questions db);
                 next_question_id := S (next_question_id db) |} in
            (200, updateBucketCounts bucketId db1)
          | _, _, _, _ => (500, db)
          end
        end
      end
    end
  end.

(** An INT column in a server that rounds down and has room for every
    number. *)
Definition rounding_down (q : number) : option Z := Some (Qround.Qfloor q).

(** The body of [PUT /api/admin/questions/:id].  [None] is a field left
    out, which the driver refuses as a bind parameter; for [is_active]
    the inner option is SQL NULL. *)
Record update_question_body := {
  uq_question_text : option string;
  uq_options : option json;
  uq_correct_answer : option Z;
  uq_difficulty : option string;
  uq_points : option Z;
  uq_explanation : option string;
  uq_tags : option json;
  uq_is_active : option (option bool)
}.

Definition update_question (questionId : nat) (body : update_question_body)
    (db : bank) : nat * bank :=
  match uq_question_text body, uq_options body, uq_correct_answer body,
        uq_difficulty body, uq_is_active body with
  | Some text, Some opts, Some c, Some dtext, Some act =>
    match questions db !! questionId with
    | None => (404, db)
    | Some old =>
      match parse_difficulty dtext with
      | None => (500, db)          (* the ENUM refuses the value *)
      | Some d =>
        let row :=
          {| bucket_id := bucket_id old;
             question_text := text;
             options := opts;
             correct_answer := c;
             q_difficulty := d;
             points := points_or_one (uq_points body);
             explanation := default "" (uq_explanation body);
             tags := uq_tags body;
             is_active := act |} in
        let db1 :=
          {| question_buckets := question_buckets db;
             questions := <[questionId := row]> (questions db);
             next_question_id := next_question_id db |} in
        (200, updateBucketCounts (bucket_id old) db1)
      end
    end
  | _, _, _, _, _ => (500, db)
  end.

Definition delete_question (questionId : nat) (db : bank) : nat * bank :=
  match questions db !! questionId with
  | None => (404, db)
  | Some q =>
    let db1 :=
      {| question_buckets := question_buckets db;
         questions := delete questionId (questions db);
         next_question_id := next_question_id db |} in
    (200, updateBucketCounts (bucket_id q) db1)
  end.

(** The live number of active questions of a difficulty in a bucket. *)
Definition live_count (d : difficulty) (b : nat) (db : bank) : Z :=
  Z.of_nat (length (filter (λ q, q_difficulty q = d) (active_questions b db))).

(** What a recount leaves in the row [r] of bucket [b]: the live total,
    and the live count of each difficulty when the bucket has an active
    question; with none, the three sums are NULL. *)
Definition recounted (b : nat) (db : bank) (r : bucket_row) : Prop :=
  total_questions r = Some (sql_count (active_questions b db)) ∧
  match active_questions b db with
  | [] => easy_count r = None ∧ medium_count r = None ∧ hard_count r = None
  | _ :: _ =>
      easy_count r = Some (live_count easy b db) ∧
      medium_count r = Some (live_count medium b db) ∧
      hard_count r = Some (live_count hard b db) ∧
      sql_count (active_questions b db)
        = (live_count easy b db + live_count medium b db
           + live_count hard b db)%Z
  end.

(** A bucket with a single question, which is easy and active. *)
Definition an_easy_question : question_row :=
  {| bucket_id := 1;
     question_text := "What does typeof null return?";
     options := JsArr [JsStr "null"; JsStr "object"];
     correct_answer := 1;
     q_difficulty := easy;
     points := 1;
     explanation := "";
     tags := None;
     is_active := Some true |}.

Definition a_bucket (total e m h : option Z) : bucket_row :=
  {| bucket_name := "JavaScript Fundamentals";
     bucket_description := "";
     subject := "JavaScript";
     total_questions := total;
     easy_count := e;
     medium_count := m;
     hard_count := h;
     bucket_is_active := true |}.

Definition one_question_bank : bank :=
  {| question_buckets :=
       {[ 1 := a_bucket (Some 1%Z) (Some 1%Z) (Some 0%Z) (Some 0%Z) ]};
     questions := {[ 1 := an_easy_question ]};
     next_question_id := 2 |}.

(** An update that only switches the question off. *)
Definition switch_off (q : question_row) : update_question_body :=
  {| uq_question_text := Some (question_text q);
     uq_options := Some (options q);
     uq_correct_answer := Some (correct_answer q);
     uq_difficulty := Some "easy";
     uq_points := Some (points q);
     uq_explanation := Some (explanation q);
     uq_tags := tags q;
     uq_is_active := Some (Some false) |}.

(** ** Composing a quiz from a bucket:
       [POST /api/admin/quizzes/from-bucket] ([server.js]) *)

(** An element of [selectedQuestions] in the request: the members of the
    object, and its [options] member as the text that [JSON.parse]
    receives. *)
Record selected_question := {
  sq_members : gmap string json;
  sq_options : json_text
}.

Record from_bucket_body := {
  fb_quizId : option string;
  fb_quizName : option string;
  fb_description : option string;
  fb_bucketId : option nat;
  fb_easyCount : option Z;
  fb_mediumCount : option Z;
  fb_hardCount : option Z;
  fb_randomization_settings : option json;
  fb_proctoring_settings : option json;
  fb_totalQuestions : option Z;
  fb_selectedQuestions : option (list selected_question)
}.

(** A quiz as this handler writes it; [cq_questions] is the array that
    is serialized into the [questions] column. *)
Record composed_quiz := {
  cq_name : string;
  cq_description : string;
  cq_questions : list (gmap string json);
  cq_points_per_question : Z;
  cq_is_custom : bool;
  cq_randomization_settings : json;
  cq_proctoring_settings : json
}.

Record mapping_row := {
  mp_quiz_id : string;
  mp_bucket_id : nat;
  mp_easy_count : Z;
  mp_medium_count : Z;
  mp_hard_count : Z;
  mp_total_questions : Z
}.

Record quiz_store := {
  qs_bank : bank;
  qs_quizzes : gmap string composed_quiz;
  quiz_bucket_mappings : list mapping_row
}.

(** A member set to a value that may be [undefined]; [JSON.stringify]
    leaves such a member out. *)
Definition set_member (k : string) (v : option json) (m : gmap string json)
    : gmap string json :=
  match v with
  | Some x => <[k := x]> m
  | None => delete k m
  end.

(** [{...q, options: JSON.parse(q.options), correct: q.correct_answer,
      points: q.points}]; [None] when the parse throws. *)
Definition normalize_question (q : selected_question)
    : option (gmap string json) :=
  match parses_to (sq_options q) with
  | None => None
  | Some opts =>
      Some (set_member "points" (sq_members q !! "points")
           (set_member "correct" (sq_members q !! "correct_answer")
           (<["options" := opts]> (sq_members q))))
  end.

Fixpoint normalize_all (qs : list selected_question)
    : option (list (gmap string json)) :=
  match qs with
  | [] => Some []
  | q :: qs' =>
      match normalize_question q with
      | None => None
      | Some n => match normalize_all qs' with
                  | None => None
                  | Some ns => Some (n :: ns)
                  end
      end
  end.

Inductive compose_reply :=
  | Created (quizId : string) (questionsSelected : nat)   (* 200 *)
  | DuplicateQuiz                                         (* 400 *)
  | Failed.                                               (* 500 *)

(** The handler: it takes the questions from the request, inserts the
    quiz, then inserts the mapping.  The two inserts are not in a
    transaction: when the second one fails the quiz stays. *)
Definition create_from_bucket (body : from_bucket_body) (st : quiz_store)
    : compose_reply * quiz_store :=
  let selected := default [] (fb_selectedQuestions body) in
  match normalize_all selected with
  | None => (Failed, st)
  | Some quizQuestions =>
    match fb_quizId body, fb_quizName body, fb_description body with
    | Some quizId, Some quizName, Some description =>
      match qs_quizzes st !! quizId with
      | Some _ => (DuplicateQuiz, st)
      | None =>
        let quiz :=
          {| cq_name := quizName;
             cq_description := description;
             cq_questions := quizQuestions;
             cq_points_per_question := 1;
             cq_is_custom := true;
             cq_randomization_settings :=
               default (JsObj []) (fb_randomization_settings body);
             cq_proctoring_settings :=
               default (JsObj []) (fb_proctoring_settings body) |} in
        let st1 :=
          {| qs_bank := qs_bank st;
             qs_quizzes := <[quizId := quiz]> (qs_quizzes st);
             quiz_bucket_mappings := quiz_bucket_mappings st |} in
        match fb_bucketId body, fb_easyCount body, fb_mediumCount body,
              fb_hardCount body, fb_totalQuestions body with
        | Some bucketId, Some e, Some m, Some h, Some total =>
          match question_buckets (qs_bank st) !! bucketId with
          | None => (Failed, st1)    (* the foreign key on bucket_id *)
          | Some _ =>
            (Created quizId (length selected),
             {| qs_bank := qs_bank st1;
                qs_quizzes := qs_quizzes st1;
                quiz_bucket_mappings := quiz_bucket_mappings st1 ++
                  [{| mp_quiz_id := quizId; mp_bucket_id := bucketId;
                      mp_easy_count := e; mp_medium_count := m;
                      mp_hard_count := h; mp_total_questions := total |}] |})
          end
        | _, _, _, _, _ => (Failed, st1)
        end
      end
    | _, _, _ => (Failed, st)
    end
  end.

(** A bucket that holds two easy questions, and a request for five easy
    questions that sends those two. *)
Definition another_easy_question : question_row :=
  {| bucket_id := 1;
     question_text := "Which keyword declares a constant?";
     options := JsArr [JsStr "var"; JsStr "const"];
     correct_answer := 1;
     q_difficulty := easy;
     points := 1;
     explanation := "";
     tags := None;
     is_active := Some true |}.

Definition two_easy_bank : bank :=
  {| question_buckets :=
       {[ 1 := a_bucket (Some 2%Z) (Some 2%Z) (Some 0%Z) (Some 0%Z) ]};
     questions := {[ 1 := an_easy_question; 2 := another_easy_question ]};
     next_question_id := 3 |}.

Definition as_selected (q : question_row) (options_text : string)
    : selected_question :=
  {| sq_members :=
       {[ "question_text" := JsStr (question_text q);
          "correct_answer" := JsNum (correct_answer q);
          "difficulty" := JsStr "easy";
          "points" := JsNum (points q) ]};
     sq_options := {| raw := options_text; parses_to := Some (options q) |} |}.

Definition five_easy_request : from_bucket_body :=
  {| fb_quizId := Some "js-easy";
     fb_quizName := Some "JavaScript, easy";
     fb_description := Some "Five easy questions";
     fb_bucketId := Some 1;
     fb_easyCount := Some 5%Z;
     fb_mediumCount := Some 0%Z;
     fb_hardCount := Some 0%Z;
     fb_randomization_settings := None;
     fb_proctoring_settings := None;
     fb_totalQuestions := Some 5%Z;
     fb_selectedQuestions :=
       Some [as_selected an_easy_question "[null, object]";
             as_selected another_easy_question "[var, const]"] |}.

Definition two_easy_store : quiz_store :=
  {| qs_bank := two_easy_bank; qs_quizzes := ∅; quiz_bucket_mappings := [] |}.

(** ** Proctoring sessions: listing and statistics (the proctoring module) *)

(** The [status] ENUM as the strings of the schema. *)
Definition status_name (s : session_status) : string :=
  match s with
  | active => "active"
  | completed => "completed"
  | terminated => "terminated"
  | paused => "paused"
  end.

(** The filters of [getSessions]; a filter counts when it is a non-empty
    string ([if (filters.status)]). *)
Record session_filters := {
  by_status : option string;
  by_assessment_id : option string;
  by_user_email : option string
}.

(** One condition [column = ?] of the WHERE clause, when its filter is
    given.  How the database compares two strings depends on the
    collation of the column, so the comparison is the argument [same]. *)
Definition condition (same : string → string → bool) (filter : option string)
    (column : string) : bool :=
  match filter with
  | Some s => if String.eqb s "" then true else same column s
  | None => true
  end.

Definition matches_filters (same : string → string → bool)
    (fl : session_filters) (row : session_row) : bool :=
  condition same (by_status fl) (status_name (status row)) &&
  condition same (by_assessment_id fl) (assessment_id row) &&
  condition same (by_user_email fl) (user_email row).

(** [ORDER BY ps.start_time DESC] *)
Definition newer_first : relation (string * session_row) :=
  λ a b, start_time b.2 ≤ start_time a.2.

Global Instance newer_first_dec a b : Decision (newer_first a b).
Proof. unfold newer_first. apply _. Defined.

Global Instance newer_first_total : Total newer_first.
Proof. intros a b. unfold newer_first. lia. Qed.

Global Instance newer_first_trans : Transitive newer_first.
Proof. intros a b c. unfold newer_first. lia. Qed.

(** The rows selected by [getSessions], before the LIMIT. *)
Definition selected (same : string → string → bool) (fl : session_filters) (m : manager)
    : list (string * session_row) :=
  merge_sort newer_first
    (filter (λ kv, matches_filters same fl kv.2 = true)
            (map_to_list (proctoring_sessions (pool m)))).

(** A row of the answer of [getSessions]: the session with the count of
    its violations ([COUNT(pv.id)] over the LEFT JOIN). *)
Record session_listing := {
  listed_id : string;
  listed_row : session_row;
  listed_violations : nat
}.

(** The rows that the query of [getSessions] returns: the sessions
    that pass the filters, newest first, at most 100 of them, each with
    the count of its violations. *)
Definition query_sessions (same : string → string → bool)
    (fl : session_filters) (m : manager) : list session_listing :=
  (λ kv : string * session_row,
     {| listed_id := kv.1; listed_row := kv.2;
        listed_violations := length (violations_of kv.1 (pool m)) |}) <$>
  take 100 (selected same fl m).

(** [getSessions(filters)]: the rows of the query, each with its
    [settings] and [metadata] parsed from what the driver hands over for
    the column (see [getSession] for [parses]); the error of a parse is
    rethrown.  The module never writes [metadata], which is NULL and
    parsed as ['{}'].  The answer keeps the text of the settings. *)
Definition getSessions (parses : string → bool)
    (same : string → string → bool) (fl : session_filters) (m : manager)
    : promise (list session_listing) :=
  let sessions := query_sessions same fl m in
  if forallb (λ e, parses (settings (listed_row e))) sessions
  then Resolved sessions
  else Rejected JSON_SYNTAX_ERROR.

(** The window of [getStatistics]: [start_time >= NOW() - INTERVAL ...]
    for ['24h'] and ['7d'], no condition for any other timeframe.  Times
    are in seconds. *)
Definition in_window (now : nat) (timeframe : string) (row : session_row)
    : bool :=
  if String.eqb timeframe "24h" then now <=? start_time row + 24 * 3600
  else if String.eqb timeframe "7d" then now <=? start_time row + 7 * 24 * 3600
  else true.

Definition all_violation_types : list violation_type :=
  [tab_switch; window_blur; multiple_faces; no_face; suspicious_audio;
   right_click; copy_paste; fullscreen_exit; browser_dev_tools;
   external_monitor].

Global Instance violation_type_eq_dec : EqDecision violation_type.
Proof. solve_decision. Defined.

(** The violations joined with the sessions of the window. *)
Definition window_violations (now : nat) (timeframe : string) (db : database)
    : list violation_row :=
  filter (λ v, from_option (in_window now timeframe) false
                 (proctoring_sessions db !! session_id v) = true)
         (proctoring_violations db).

(** [ORDER BY count DESC] *)
Definition larger_first : relation (violation_type * nat) :=
  λ a b, b.2 ≤ a.2.

Global Instance larger_first_dec a b : Decision (larger_first a b).
Proof. unfold larger_first. apply _. Defined.

Global Instance larger_first_total : Total larger_first.
Proof. intros a b. unfold larger_first. lia. Qed.

(** [GROUP BY violation_type]: one row for each type that occurs. *)
Definition by_type (vs : list violation_row) : list (violation_type * nat) :=
  merge_sort larger_first
    (filter (λ tc, 0 < tc.2)
       ((λ t, (t, length (filter (λ v, v_type v = t) vs))) <$>
        all_violation_types)).

(** The answer of [getStatistics], without [averageViolations], which is
    a rounded floating-point average.  The answer of the [catch] branch
    belongs to a query that fails, which the tables here never do. *)
Record statistics := {
  totalSessions : nat;
  stat_activeSessions : nat;
  completedSessions : nat;
  terminatedSessions : nat;
  flaggedSessions : nat;
  totalViolations : nat;
  violationsByType : list (violation_type * nat);
  stat_timeframe : string
}.

Definition count_where (p : session_row → bool) (rows : list session_row) : nat :=
  length (filter (λ r, p r = true) rows).

Definition has_status (s : session_status) (row : session_row) : bool :=
  bool_decide (status row = s).

(** The sessions of the window. *)
Definition window_sessions (now : nat) (timeframe : string) (db : database)
    : list session_row :=
  filter (λ r, in_window now timeframe r = true)
         (map_to_list (proctoring_sessions db)).*2.

Definition getStatistics (now : nat) (timeframe : string) (m : manager)
    : statistics :=
  let rows := window_sessions now timeframe (pool m) in
  let groups := by_type (window_violations now timeframe (pool m)) in
  {| totalSessions := length rows;
     stat_activeSessions := count_where (has_status active) rows;
     completedSessions := count_where (has_status completed) rows;
     terminatedSessions := count_where (has_status terminated) rows;
     flaggedSessions := count_where (λ r, 0 <? violation_count r) rows;
     totalViolations := foldr (λ tc sum, sum + tc.2) 0 groups;
     violationsByType := groups;
     stat_timeframe := timeframe |}.

(** The order of the listing, on the listed rows. *)
Definition listed_newer_first : relation session_listing :=
  λ a b, start_time (listed_row b) ≤ start_time (listed_row a).

Definition no_filters : session_filters :=
  {| by_status := None; by_assessment_id := None; by_user_email := None |}.

(** The life cycle that the operations keep: no row is ever [paused], a
    row is [active] exactly as long as it has no end time, and a
    strict-mode entry of the map holds fewer than three violations. *)
Record lifecycle (m : manager) : Prop := {
  never_paused : ∀ sid row,
    proctoring_sessions (pool m) !! sid = Some row → status row ≠ paused;
  active_is_open : ∀ sid row,
    proctoring_sessions (pool m) !! sid = Some row →
    (status row = active ↔ end_time row = None);
  strict_below_three : ∀ sid s,
    activeSessions m !! sid = Some s → cached_strict s = true →
    length (violations s) < 3
}.

(** The row and the entry that [startSession] creates. *)
Definition started_row (now : nat) (sd : session_data) (uname : string)
    : session_row :=
  {| user_email := userEmail sd;
     user_name := uname;
     assessment_id := assessmentId sd;
     level := default basic (proctoringLevel sd);
     status := active;
     start_time := now;
     end_time := None;
     violation_count := 0;
     strict_mode := default false (strictMode sd);
     settings := default "{}" (sd_settings sd);
     updated_at := now |}.

Definition started_entry (now : nat) (sd : session_data) : cached_session :=
  {| data := sd; violations := []; startTime := now; lastActivity := now |}.

Definition lenient_start (sid : string) : session_data :=
  {| sessionId := sid; userEmail := "bo@example.org";
     userName := Some "Bo"; assessmentId := "python";
     proctoringLevel := None; strictMode := None;
     sd_settings := None |}.

(** ** The randomization engine: the random source *)

(** The same world under another outcome of [Math.random]. *)
Definition with_entropy (ent : nat → nat) (w : world) : world :=
  {| mem := mem w; entropy := ent; drawn := drawn w |}.

(** The random source that draws the numbers of [js], one after the
    other, from the draw [d] on. *)
Definition drawing (js : list nat) (d : nat) : nat → nat :=
  λ k, default 0 (js !! (k - d)).

(** The sample quiz with a list of two questions whose second one is
    [null]. *)
Definition broken_quiz_loc : loc := 12%positive.

Definition broken_quiz_world : world :=
  with_mem (<[broken_quiz_loc := CArr [JRef 6%positive; JNull]]> (mem quiz_world))
           quiz_world.

(** ** Quiz delivery: what is stored as the questions of a quiz *)

(** The question list that the inner [try] of the delivery starts from,
    when the column holds one: the decoded array, the array that the
    text parses to, or no question for a column of another type. *)
Definition stored_array (column : questions_column) : option (list json) :=
  match column with
  | QArray items => Some items
  | QText t => match parses_to t with
               | Some (JsArr items) => Some items
               | _ => None
               end
  | QOther => Some []
  end.

(** The body of a delivery that went through. *)
Definition delivered_body (quiz : quiz_row) (questions applied ps : jsval)
    : cell :=
  obj [("name", JStr (quiz_name quiz));
       ("description", nullable_str (quiz_description quiz));
       ("questions", questions);
       ("pointsPerQuestion", nullable_num (points_per_question quiz));
       ("isCustom", nullable_num (is_custom quiz));
       ("randomizationApplied", applied);
       ("proctoringSettings", ps)].

(** A quiz with two stored questions and no settings. *)
Definition plain_items : list json :=
  [JsObj [("question", JsStr "Which tag makes a link?");
          ("options", JsArr [JsStr "a"; JsStr "link"]);
          ("correct", JsNum 0)];
   JsObj [("question", JsStr "Which tag makes a list?");
          ("options", JsArr [JsStr "ul"; JsStr "li"]);
          ("correct", JsNum 0)]].

Definition plain_quiz : quiz_row :=
  {| quiz_name := "HTML Basics";
     quiz_description := None;
     quiz_questions := QArray plain_items;
     points_per_question := None;
     is_custom := Some 1%Z;
     randomization_settings := None;
     proctoring_settings := None;
     quiz_created_at := 3;
     quiz_updated_at := 3 |}.

(** A quiz whose [questions] text is the JSON [null]. *)
Definition null_questions_quiz : quiz_row :=
  {| quiz_name := "CSS Basics";
     quiz_description := None;
     quiz_questions := QText {| raw := "null"; parses_to := Some JsNull |};
     points_per_question := None;
     is_custom := Some 1%Z;
     randomization_settings := None;
     proctoring_settings := None;
     quiz_created_at := 4;
     quiz_updated_at := 4 |}.

(** The value [v] stands in the heap [h] for the document [j]: the
    same null, boolean, number or string; a reference to an array whose
    elements stand for the items, in their order; a reference to an
    object whose properties are those that assigning the members in
    their order leaves. *)
Fixpoint holds (h : gmap loc cell) (j : json) (v : jsval) : Prop :=
  match j with
  | JsNull => v = JNull
  | JsBool b => v = JBool b
  | JsNum n => v = JNum n
  | JsStr s => v = JStr s
  | JsArr items =>
      ∃ a vs, v = JRef a ∧ h !! a = Some (CArr vs) ∧
        (fix all_hold (l : list json) (vs : list jsval) : Prop :=
           match l, vs with
           | [], [] => True
           | x :: l', v :: vs' => holds h x v ∧ all_hold l' vs'
           | _, _ => False
           end) items vs
  | JsObj members =>
      ∃ o fs, v = JRef o ∧ h !! o = Some (CObj fs) ∧
        (fix members_hold (l : list (string * json))
             (acc : gmap string jsval) : Prop :=
           match l with
           | [] => fs = acc
           | (k, x) :: l' =>
               ∃ v, holds h x v ∧ members_hold l' (<[k := v]> acc)
           end) members ∅
  end.

(** The properties [fs] are what the members leave when they are
    assigned, in their order, on top of [acc]. *)
Fixpoint fields_hold (h : gmap loc cell) (l : list (string * json))
    (acc fs : gmap string jsval) : Prop :=
  match l with
  | [] => fs = acc
  | (k, x) :: l' => ∃ v, holds h x v ∧ fields_hold h l' (<[k := v]> acc) fs
  end.

(** ** Question buckets: the list of buckets *)

(** An entry of the answer of [GET /api/admin/buckets]: the row with its
    counters defaulted by [|| 0].  [is_active !== false] is true for
    every value that the driver returns for the column. *)
Record bucket_view := {
  bv_id : nat;
  bv_name : string;
  bv_description : string;
  bv_subject : string;
  bv_total_questions : Z;
  bv_easy_count : Z;
  bv_medium_count : Z;
  bv_hard_count : Z;
  bv_is_active : bool
}.

(** [x || 0] on a nullable number *)
Definition or_zero (x : option Z) : Z := default 0%Z x.

Definition view_bucket (id : nat) (r : bucket_row) : bucket_view :=
  {| bv_id := id;
     bv_name := bucket_name r;
     bv_description := bucket_description r;
     bv_subject := subject r;
     bv_total_questions := or_zero (total_questions r);
     bv_easy_count := or_zero (easy_count r);
     bv_medium_count := or_zero (medium_count r);
     bv_hard_count := or_zero (hard_count r);
     bv_is_active := true |}.

(** [SELECT * FROM question_buckets WHERE is_active = TRUE ORDER BY
    subject, name], mapped to the entries.  The order that the
    collation gives is the argument [ordered]. *)
Definition get_buckets
    (ordered : list (nat * bucket_row) → list (nat * bucket_row))
    (db : bank) : list bucket_view :=
  (λ kv, view_bucket kv.1 kv.2) <$>
  ordered (filter (λ kv, bucket_is_active kv.2 = true)
                  (map_to_list (question_buckets db))).

(** The ids of the questions are handed out in increasing order. *)
Definition ids_below_next (db : bank) : Prop :=
  ∀ id, is_Some (questions db !! id) → id < next_question_id db.

(** A body that passes the validation of the add handler. *)
Definition a_medium_body : add_question_body :=
  {| aq_question_text := Some "  What is a closure?  ";
     aq_options := Some [JsStr "a function with its scope"; JsStr "a loop"];
     aq_correct_answer := Some (of_int 0);
     aq_difficulty := Some "medium";
     aq_points := None;
     aq_explanation := NoExplanation;
     aq_tags := None |}.

(** The same body with a text of two no-break spaces, and with another
    index. *)
Definition blank_text (body : add_question_body) : add_question_body :=
  {| aq_question_text := Some (String.append no_break_space no_break_space);
     aq_options := aq_options body;
     aq_correct_answer := aq_correct_answer body;
     aq_difficulty := aq_difficulty body;
     aq_points := aq_points body;
     aq_explanation := aq_explanation body;
     aq_tags := aq_tags body |}.

Definition with_index (body : add_question_body) (c : number)
    : add_question_body :=
  {| aq_question_text := aq_question_text body;
     aq_options := aq_options body;
     aq_correct_answer := Some c;
     aq_difficulty := aq_difficulty body;
     aq_points := aq_points body;
     aq_explanation := aq_explanation body;
     aq_tags := aq_tags body |}.

Definition a_half : number := QArith_base.Qmake 1 2.

(** ** Composing a quiz: a request that names a bucket that is not there *)

Definition missing_bucket_request : from_bucket_body :=
  {| fb_quizId := Some "js-easy";
     fb_quizName := Some "JavaScript, easy";
     fb_description := Some "Two easy questions";
     fb_bucketId := Some 9;
     fb_easyCount := Some 2%Z;
     fb_mediumCount := Some 0%Z;
     fb_hardCount := Some 0%Z;
     fb_randomization_settings := None;
     fb_proctoring_settings := None;
     fb_totalQuestions := Some 2%Z;
     fb_selectedQuestions :=
       Some [as_selected an_easy_question "[null, object]";
             as_selected another_easy_question "[var, const]"] |}.

(** ** CSV lines of the quiz pool import ([server.js]) *)

(** The double quote and the comma. *)
Definition quote : Ascii.ascii := Eval cbv in Ascii.ascii_of_nat 34.
Definition comma : Ascii.ascii := Eval cbv in Ascii.ascii_of_nat 44.

(** The loop of [parseCSVLine] from a position on: [current] is the
    field read so far and [inQuotes] the state of the quotes; a field is
    pushed at each comma outside quotes and at the end of the line. *)
Fixpoint scan_fields (line : string) (current : string) (inQuotes : bool)
    : list string :=
  match line with
  | EmptyString => [current]
  | String char rest =>
      if Ascii.eqb char quote then scan_fields rest current (negb inQuotes)
      else if Ascii.eqb char comma && negb inQuotes
      then current :: scan_fields rest EmptyString inQuotes
      else scan_fields rest (String.append current (String char EmptyString))
             inQuotes
  end.

(** The [replace] that removes every double quote of a field. *)
Fixpoint remove_quotes (field : string) : string :=
  match field with
  | EmptyString => EmptyString
  | String c rest => if Ascii.eqb c quote then remove_quotes rest
                     else String c (remove_quotes rest)
  end.

(** [parseCSVLine(line)].  The line holds the UTF-8 encoding of the
    text: the quote and the comma are single bytes and occur in the
    encoding of no other character, so that the loop over the bytes
    splits the line where the loop over the characters does. *)
Definition parseCSVLine (line : string) : list string :=
  (λ field, trim (remove_quotes field)) <$> scan_fields line EmptyString false.

(** Whether and how often a character occurs in a string. *)
Fixpoint has_char (c : Ascii.ascii) (s : string) : bool :=
  match s with
  | EmptyString => false
  | String c' rest => Ascii.eqb c' c || has_char c rest
  end.

Fixpoint count_char (c : Ascii.ascii) (s : string) : nat :=
  match s with
  | EmptyString => 0
  | String c' rest => (if Ascii.eqb c' c then 1 else 0) + count_char c rest
  end.

(** A line as a spreadsheet writes it: the fields joined by commas, a
    field either as it is or between quotes. *)
Inductive csv_field :=
  | Plain (text : string)
  | Quoted (text : string).

Definition field_text (f : csv_field) : string :=
  match f with Plain text | Quoted text => text end.

Definition write_field (f : csv_field) : string :=
  match f with
  | Plain text => text
  | Quoted text =>
      String quote (String.append text (String quote EmptyString))
  end.

Fixpoint write_line (fs : list csv_field) : string :=
  match fs with
  | [] => EmptyString
  | [f] => write_field f
  | f :: fs' => String.append (write_field f) (String comma (write_line fs'))
  end.

(** A field can be written plain when it holds neither a quote nor a
    comma, and between quotes when it holds no quote. *)
Definition writable (f : csv_field) : bool :=
  match f with
  | Plain text => negb (has_char quote text) && negb (has_char comma text)
  | Quoted text => negb (has_char quote text)
  end.

(** A line of the quiz pool. *)
Definition a_pool_line : list csv_field :=
  [Plain "js-101"; Quoted "JavaScript, the basics"; Quoted " What is 1 + 1? ";
   Plain "1"; Plain "2"; Plain "3"; Plain "4"; Plain " 1"].

(** A line with no-break spaces around its second field. *)
Definition a_wide_space_line : string :=
  String.append "a,"
    (String.append no_break_space (String.append "b" no_break_space)).

(** ** Editing the questions of a quiz ([server.js])

    [POST /api/quizzes/:id/questions/single],
    [PUT /api/quizzes/:id/questions/:index] and
    [DELETE /api/quizzes/:id/questions/:index]. *)

(** [!v] is false for these documents. *)
Definition json_truthy (j : json) : bool :=
  match j with
  | JsNull => false
  | JsBool b => b
  | JsNum n => negb (n =? 0)%Z
  | JsStr s => negb (String.eqb s "")
  | JsArr _ | JsObj _ => true
  end.

Definition is_object (j : json) : bool :=
  match j with JsObj _ => true | _ => false end.

(** What [JSON.parse(quiz[0].questions || '[]')] does on the column.  A
    text is parsed, the empty text as ['[]'].  An array that the driver
    has decoded is first converted to a string, its elements joined by
    commas: for an array of objects (each gives [[object Object]]) and
    for the empty array (the empty string) that string is no JSON and
    the parse throws; arrays with other elements, and columns of another
    type, are not modelled. *)
Inductive read_result :=
  | Parsed (j : json)
  | ParseError
  | ReadNotModelled.

Definition read_questions (column : questions_column) : read_result :=
  match column with
  | QText t =>
      if String.eqb (raw t) "" then Parsed (JsArr [])
      else match parses_to t with
           | Some j => Parsed j
           | None => ParseError
           end
  | QArray items => if forallb is_object items then ParseError
                    else ReadNotModelled
  | QOther => ReadNotModelled
  end.

(** The body [{question, options, correct}] of a request; a field is
    [None] when the body does not have it. *)
Record question_body := {
  qb_question : option json;
  qb_options : option json;
  qb_correct : option json
}.

(** [!question || !options || !Array.isArray(options) ||
     correct === undefined] fails: the question object that is
    stored. *)
Definition validated (body : question_body) : option json :=
  match qb_question body, qb_options body, qb_correct body with
  | Some q, Some (JsArr opts), Some c =>
      if json_truthy q
      then Some (JsObj [("question", q); ("options", JsArr opts); ("correct", c)])
      else None
  | _, _, _ => None
  end.

(** The answer of a handler: the status, the [questionCount] when the
    answer has one, and the quizzes afterwards; or a run that leaves the
    modelled fragment (stored questions that parse to something that is
    not an array). *)
Inductive handled :=
  | Answered (status : nat) (questionCount : option nat)
             (quizzes : gmap string quiz_row)
  | NotModelled.

(** [UPDATE quizzes SET questions = ?, updated_at = CURRENT_TIMESTAMP
    WHERE id = ?] with the serialization of [items].  How the column
    reads back afterwards, as a text or as a decoded array, depends on
    the database and the driver: it is the argument [stored_as]. *)
Definition write_questions (stored_as : list json → questions_column)
    (now : nat) (quizId : string) (items : list json)
    (quizzes : gmap string quiz_row) : gmap string quiz_row :=
  alter (λ quiz,
           {| quiz_name := quiz_name quiz;
              quiz_description := quiz_description quiz;
              quiz_questions := stored_as items;
              points_per_question := points_per_question quiz;
              is_custom := is_custom quiz;
              randomization_settings := randomization_settings quiz;
              proctoring_settings := proctoring_settings quiz;
              quiz_created_at := quiz_created_at quiz;
              quiz_updated_at := now |}) quizId quizzes.

Section handlers.
Variable stored_as : list json → questions_column.

(** Add one question: a stored list that does not parse is replaced by
    the empty list before the push. *)
Definition add_single (now : nat) (quizId : string) (body : question_body)
    (quizzes : gmap string quiz_row) : handled :=
  match validated body with
  | None => Answered 400 None quizzes
  | Some question =>
    match quizzes !! quizId with
    | None => Answered 404 None quizzes
    | Some quiz =>
      match read_questions (quiz_questions quiz) with
      | ReadNotModelled => NotModelled
      | Parsed (JsArr items) =>
          let questions := items ++ [question] in
          Answered 200 (Some (length questions))
            (write_questions stored_as now quizId questions quizzes)
      | Parsed _ => NotModelled
      | ParseError =>
          let questions := [question] in
          Answered 200 (Some (length questions))
            (write_questions stored_as now quizId questions quizzes)
      end
    end
  end.

(** [questionIndex < 0 || questionIndex >= questions.length]; the index
    is what [parseInt] returned, [None] for NaN, which fails both
    comparisons. *)
Definition out_of_range (questionIndex : option Z) (len : nat) : bool :=
  match questionIndex with
  | Some i => (i <? 0)%Z || (Z.of_nat len <=? i)%Z
  | None => false
  end.

(** [questions[questionIndex] = question] for an index that passed the
    check: with NaN the assignment sets a property that is no element
    and that the serialization leaves out. *)
Definition assign_at (questionIndex : option Z) (question : json)
    (items : list json) : list json :=
  match questionIndex with
  | Some i => <[Z.to_nat i := question]> items
  | None => items
  end.

(** [questions.splice(questionIndex, 1)] for an index that passed the
    check: NaN counts as 0. *)
Definition splice_at (questionIndex : option Z) (items : list json)
    : list json :=
  match questionIndex with
  | Some i => delete (Z.to_nat i) items
  | None => delete 0 items
  end.

Definition update_at (now : nat) (quizId : string) (questionIndex : option Z)
    (body : question_body) (quizzes : gmap string quiz_row) : handled :=
  match validated body with
  | None => Answered 400 None quizzes
  | Some question =>
    match quizzes !! quizId with
    | None => Answered 404 None quizzes
    | Some quiz =>
      match read_questions (quiz_questions quiz) with
      | ReadNotModelled => NotModelled
      | ParseError => Answered 400 None quizzes
      | Parsed (JsArr items) =>
          if out_of_range questionIndex (length items)
          then Answered 404 None quizzes
          else Answered 200 None
                 (write_questions stored_as now quizId
                    (assign_at questionIndex question items) quizzes)
      | Parsed _ => NotModelled
      end
    end
  end.

Definition delete_at (now : nat) (quizId : string) (questionIndex : option Z)
    (quizzes : gmap string quiz_row) : handled :=
  match quizzes !! quizId with
  | None => Answered 404 None quizzes
  | Some quiz =>
    match read_questions (quiz_questions quiz) with
    | ReadNotModelled => NotModelled
    | ParseError => Answered 400 None quizzes
    | Parsed (JsArr items) =>
        if out_of_range questionIndex (length items)
        then Answered 404 None quizzes
        else
          let questions := splice_at questionIndex items in
          Answered 200 (Some (length questions))
            (write_questions stored_as now quizId questions quizzes)
    | Parsed _ => NotModelled
    end
  end.

End handlers.

(** The column as a database that keeps JSON as text reads it back. *)
Definition as_text (serialize : json → string) (items : list json)
    : questions_column :=
  QText {| raw := serialize (JsArr items); parses_to := Some (JsArr items) |}.

(** Sample data: a quiz of two questions kept as a decoded array, and a
    new question. *)
Definition a_new_question : question_body :=
  {| qb_question := Some (JsStr "Which tag makes a table?");
     qb_options := Some (JsArr [JsStr "table"; JsStr "tr"]);
     qb_correct := Some (JsNum 0) |}.

Definition text_quiz (items : list json) : quiz_row :=
  {| quiz_name := "HTML Basics";
     quiz_description := None;
     quiz_questions := as_text (λ _, "[...]") items;
     points_per_question := Some 1%Z;
     is_custom := Some 1%Z;
     randomization_settings := None;
     proctoring_settings := None;
     quiz_created_at := 3;
     quiz_updated_at := 3 |}.

Definition three_items : list json :=
  [JsObj [("question", JsStr "Q1")]; JsObj [("question", JsStr "Q2")];
   JsObj [("question", JsStr "Q3")]].

(** ** Proctoring sessions: proofs *)

Section proctoring_facts.
Implicit Types (m : manager) (sid : string) (now : nat).

Lemma violations_of_snoc sid v (ss : gmap string session_row) vs :
  violations_of sid {| proctoring_sessions := ss;
                       proctoring_violations := vs ++ [v] |}
  = violations_of sid {| proctoring_sessions := ss;
                         proctoring_violations := vs |}
    ++ (if decide (session_id v = sid) then [v] else []).
Proof.
  unfold violations_of; simpl. by rewrite filter_app.
Qed.

Lemma violations_of_set_sessions sid f db :
  violations_of sid (set_sessions f db) = violations_of sid db.
Proof. reflexivity. Qed.





Lemma forallb_false_elem {A} (f : A → bool) (l : list A) :
  forallb f l = false → ∃ x, x ∈ l ∧ f x = false.
Proof.
  induction l as [|x l IH]; [done|]. cbn.
  destruct (f x) eqn:Hx.
  - intros (y & Hy & Hfy)%IH. exists y. split; [by apply list_elem_of_further|done].
  - intros _. exists x. split; [apply list_elem_of_here|done].
Qed.

Lemma forallb_true_Forall {A} (f : A → bool) (l : list A) :
  forallb f l = true → Forall (λ x, f x = true) l.
Proof.
  induction l as [|x l IH]; [by constructor|]. cbn.
  intros [Hx Hl]%andb_true_iff. constructor; [done|by apply IH].
Qed.

Lemma consistent_new : consistent (new_manager empty_database).
Proof. split; simpl; try done; intros ? ?; by rewrite lookup_empty. Qed.

Lemma consistent_restart m : consistent m → consistent (restart m).
Proof.
  intros [Hc Hfk _]. split; simpl; [exact Hc|exact Hfk|].
  intros ? ?. by rewrite lookup_empty.
Qed.

Lemma consistent_startSession now sd m :
  consistent m → consistent (startSession now sd m).2.
Proof.
  intros [Hc Hfk Hl]. unfold startSession.
  destruct (userName sd) as [uname|]; [|by split].
  destruct (proctoring_sessions (pool m) !! sessionId sd) eqn:Hrow; [by split|].
  split; simpl.
  - intros sid row. rewrite lookup_insert. case_decide as Hsid.
    + intros [= <-]; subst sid. simpl.
      rewrite violations_of_set_sessions. by rewrite Hfk.
    + apply Hc.
  - intros sid. rewrite lookup_insert. case_decide; [done|].
    rewrite violations_of_set_sessions. apply Hfk.
  - intros sid s. rewrite !lookup_insert. case_decide as Hsid.
    + intros [= <-]. eexists; split; [done|]. simpl. split; [lia|done].
    + apply Hl.
Qed.

Lemma consistent_endSession now sid reason m :
  consistent m → consistent (endSession now sid reason m).2.
Proof.
  intros [Hc Hfk Hl]. unfold endSession. split; simpl.
  - intros sid' row'. rewrite violations_of_set_sessions.
    rewrite lookup_alter. case_decide as Hsid.
    + subst sid'. destruct (proctoring_sessions (pool m) !! sid) as [row|] eqn:Hrow;
        simpl; [|done]. intros [= <-]. simpl. by apply Hc.
    + apply Hc.
  - intros sid'. rewrite violations_of_set_sessions.
    rewrite lookup_alter. case_decide as Hsid; [subst sid'|apply Hfk].
    destruct (proctoring_sessions (pool m) !! sid) eqn:Hrow; [done|].
    intros _. by apply Hfk.
  - intros sid' s. rewrite lookup_delete. case_decide as Hsid; [done|].
    intros Hs. destruct (Hl _ _ Hs) as (row & Hrow & ?).
    exists row. split; [|done]. by rewrite lookup_alter_ne.
Qed.

Lemma consistent_logViolation now sid vd m :
  consistent m → consistent (logViolation now sid vd m).2.
Proof.
  intros Hm. unfold logViolation.
  destruct (proctoring_sessions (pool m) !! sid) as [row|] eqn:Hrow; [|done].
  set (vrow := inserted_row now sid vd).
  (* the state after the INSERT and the UPDATE, with a map [c] that keeps
     the live entries in step *)
  assert (Hstep : ∀ c : gmap string cached_session,
    (∀ sid' s, c !! sid' = Some s → sid' ≠ sid → activeSessions m !! sid' = Some s) →
    (∀ s, c !! sid = Some s →
       ∃ s0, activeSessions m !! sid = Some s0 ∧
             length (violations s) = S (length (violations s0)) ∧
             cached_strict s = cached_strict s0) →
    consistent
      {| pool := set_sessions (alter (count_row now) sid)
           {| proctoring_sessions := proctoring_sessions (pool m);
              proctoring_violations := proctoring_violations (pool m) ++ [vrow] |};
         activeSessions := c |}).
  { destruct Hm as [Hc Hfk Hl]. intros c Hother Hsame. split; simpl.
    - intros sid' row'. rewrite violations_of_set_sessions, violations_of_snoc.
      change (session_id vrow) with sid. rewrite lookup_alter.
      case_decide as Hsid.
      + subst sid'. rewrite Hrow. intros [= <-].
        rewrite length_app. simpl.
        f_equal. destruct (pool m); by apply Hc.
      + intros Hrow'. rewrite app_nil_r. destruct (pool m); by apply Hc.
    - intros sid'. rewrite violations_of_set_sessions, violations_of_snoc.
      change (session_id vrow) with sid. rewrite lookup_alter.
      case_decide as Hsid.
      + subst sid'. by rewrite Hrow.
      + intros Hnone. rewrite app_nil_r. destruct (pool m); by apply Hfk.
    - intros sid' s Hs. destruct (decide (sid' = sid)) as [->|Hne].
      + destruct (Hsame _ Hs) as (s0 & Hs0 & Hlen & Hstrict).
        destruct (Hl _ _ Hs0) as (row0 & Hrow0 & Hcnt & Hsm).
        rewrite Hrow in Hrow0. injection Hrow0 as <-.
        exists (count_row now row). rewrite lookup_alter_eq, Hrow. simpl.
        repeat split; [lia|congruence].
      + destruct (Hl _ _ (Hother _ _ Hs Hne)) as (row0 & Hrow0 & ?).
        exists row0. by rewrite lookup_alter_ne. }
  destruct (activeSessions m !! sid) as [session|] eqn:Hsess.
  - set (session' := {| data := data session; violations := _;
                        startTime := _; lastActivity := now |}).
    assert (Hm1 : consistent
      {| pool := set_sessions (alter (count_row now) sid)
           {| proctoring_sessions := proctoring_sessions (pool m);
              proctoring_violations := proctoring_violations (pool m) ++ [vrow] |};
         activeSessions := <[sid := session']> (activeSessions m) |}).
    { apply Hstep.
      - intros sid' s Hs Hne. by rewrite lookup_insert_ne in Hs.
      - intros s. rewrite lookup_insert_eq. intros [= <-].
        exists session. split; [done|]. subst session'. simpl.
        rewrite length_app. simpl. split; [lia|done]. }
    match goal with |- consistent (_, ?x).2 => change (consistent x) end.
    destruct (cached_strict session' && _); [|exact Hm1].
    unfold terminateSession. by apply consistent_endSession.
  - match goal with |- consistent (_, ?x).2 => change (consistent x) end.
    apply Hstep.
    + intros sid' s Hs _. exact Hs.
    + intros s. by rewrite Hsess.
Qed.

Lemma consistent_step now e m : consistent m → consistent (step now e m).
Proof.
  destruct e; unfold step.
  - apply consistent_startSession.
  - apply consistent_logViolation.
  - apply consistent_endSession.
  - apply consistent_restart.
Qed.

(** The process that handles a call sees the outcome of the call; the
    other processes see the database that it leaves and keep their
    maps. *)
Lemma worker_view_handle now k e c :
  worker_view k (handle now k e c) = step now e (worker_view k c).
Proof.
  unfold worker_view at 1, worker_map, handle. cbn. rewrite lookup_insert_eq.
  by destruct (step now e (worker_view k c)).
Qed.

Lemma worker_view_handle_other now k k' e c :
  k' ≠ k →
  worker_view k' (handle now k e c)
  = {| pool := pool (step now e (worker_view k c));
       activeSessions := worker_map k' c |}.
Proof.
  intros Hne. unfold worker_view at 1, worker_map, handle. cbn.
  by rewrite lookup_insert_ne.
Qed.

Lemma reachable_init : reachable (new_manager empty_database).
Proof. exists new_cluster, 0. split; [constructor|done]. Qed.

Lemma reachable_step now e m : reachable m → reachable (step now e m).
Proof.
  intros (c & k & Hc & ->). exists (handle now k e c), k.
  split; [by constructor|]. by rewrite worker_view_handle.
Qed.

(** A property of managers holds of every reachable one when it holds
    at the start, every call of the process itself keeps it, and every
    call of another process keeps it. *)
Lemma reachable_invariant (I : manager → Prop) :
  I (new_manager empty_database) →
  (∀ now e m, I m → I (step now e m)) →
  (∀ now e m other,
     I m → I {| pool := pool m; activeSessions := other |} →
     I {| pool := pool (step now e m); activeSessions := other |}) →
  ∀ m, reachable m → I m.
Proof.
  intros Hinit Hstep Hframe m (c & k & Hc & ->). revert k.
  induction Hc as [|now k0 e c _ IH]; intros k; [exact Hinit|].
  destruct (decide (k = k0)) as [->|Hne].
  - rewrite worker_view_handle. apply Hstep, IH.
  - rewrite worker_view_handle_other by done.
    apply (Hframe now e (worker_view k0 c) (worker_map k c)); [apply IH|].
    apply (IH k).
Qed.

(** Every operation keeps the rows of the sessions table with their
    strict mode and never lowers a counter. *)
Lemma step_keeps_entry_row now e m sid row :
  proctoring_sessions (pool m) !! sid = Some row →
  ∃ row', proctoring_sessions (pool (step now e m)) !! sid = Some row' ∧
          violation_count row ≤ violation_count row' ∧
          strict_mode row' = strict_mode row.
Proof.
  intros Hrow. destruct e as [sd|sid' vd|sid' reason|]; simpl.
  - unfold startSession. destruct (userName sd); [|by eauto].
    destruct (proctoring_sessions (pool m) !! sessionId sd) eqn:Hsd; [by eauto|].
    simpl. exists row. split; [|done].
    rewrite lookup_insert_ne; [done|]. congruence.
  - unfold logViolation.
    destruct (proctoring_sessions (pool m) !! sid') eqn:Hsid'; [|by eauto].
    assert (Hcount : ∃ row',
      alter (count_row now) sid' (proctoring_sessions (pool m)) !! sid = Some row'
      ∧ violation_count row ≤ violation_count row'
      ∧ strict_mode row' = strict_mode row).
    { rewrite lookup_alter. case_decide.
      - subst sid'. rewrite Hrow. eexists; split; [done|]. simpl. split; [lia|done].
      - eauto. }
    destruct Hcount as (row1 & Hrow1 & Hle & Hsm).
    destruct (activeSessions m !! sid'); cbn [snd]; [|by eauto].
    destruct (_ && _); [|by eauto].
    cbn. rewrite lookup_alter. case_decide.
    + subst sid'. rewrite Hrow1. eexists; split; [done|]. by simpl.
    + eauto.
  - rewrite lookup_alter. case_decide.
    + subst sid'. rewrite Hrow. eexists; split; [done|]. by simpl.
    + eauto.
  - eauto.
Qed.

(** A call of another process leaves the entries of this one with
    their rows. *)
Lemma consistent_frame now e m other :
  consistent m →
  consistent {| pool := pool m; activeSessions := other |} →
  consistent {| pool := pool (step now e m); activeSessions := other |}.
Proof.
  intros Hm [_ _ Hl]. destruct (consistent_step now e m Hm) as [Hc' Hfk' _].
  split; [exact Hc'|exact Hfk'|].
  cbn [pool activeSessions] in *. intros sid s Hs.
  destruct (Hl _ _ Hs) as (row & Hrow & Hle & Hsm).
  destruct (step_keeps_entry_row now e m sid row Hrow)
    as (row' & Hrow' & Hle' & Hsm').
  exists row'. split; [done|]. split; [lia|congruence].
Qed.

Lemma reachable_consistent m : reachable m → consistent m.
Proof.
  revert m. apply reachable_invariant.
  - apply consistent_new.
  - intros. by apply consistent_step.
  - intros. by apply consistent_frame.
Qed.

Lemma run_reachable evs m : reachable m → reachable (run evs m).
Proof.
  revert m. induction evs as [|[now e] evs IH]; intros m Hm; simpl; [done|].
  apply IH. by apply reachable_step.
Qed.

Lemma alter_absent {A} (f : A → A) (k : string) (t : gmap string A) :
  t !! k = None → alter f k t = t.
Proof.
  intros Hk. apply map_eq. intros j. rewrite lookup_alter.
  case_decide; [subst j; by rewrite Hk|done].
Qed.

Lemma terminated_reason_is_not_completed why :
  status_of_reason (JStr (String.append "terminated_" why)) = terminated.
Proof. unfold status_of_reason. by rewrite decide_False. Qed.


Lemma logViolation_appends now sid vd m row :
  proctoring_sessions (pool m) !! sid = Some row →
  proctoring_violations (pool (logViolation now sid vd m).2)
  = proctoring_violations (pool m) ++ [inserted_row now sid vd].
Proof.
  intros Hrow. unfold logViolation. rewrite Hrow.
  destruct (activeSessions m !! sid); [|done].
  cbn [snd]. by destruct (_ && _).
Qed.

Lemma logViolation_rows now sid vd m row :
  proctoring_sessions (pool m) !! sid = Some row →
  length (violations_of sid (pool (logViolation now sid vd m).2))
  = S (length (violations_of sid (pool m))).
Proof.
  intros Hrow. unfold violations_of.
  rewrite (logViolation_appends _ _ _ _ _ Hrow), filter_app, length_app.
  rewrite filter_cons_True by done. cbn. lia.
Qed.

Lemma logViolation_answer now sid vd m :
  (logViolation now sid vd m).1 =
  match proctoring_sessions (pool m) !! sid with
  | None => Rejected ER_NO_REFERENCED_ROW
  | Some _ =>
      Resolved {| lg_success := true;
                  violationCount :=
                    match activeSessions m !! sid with
                    | Some s => S (length (violations s))
                    | None => 0
                    end |}
  end.
Proof.
  unfold logViolation. destruct (proctoring_sessions (pool m) !! sid); [|done].
  destruct (activeSessions m !! sid); [|done].
  cbn. rewrite length_app. cbn. do 2 f_equal. lia.
Qed.

(** Without an entry in the map the violation is stored and counted,
    and the session is left in the status it has. *)
Lemma logViolation_without_entry now sid vd m row :
  proctoring_sessions (pool m) !! sid = Some row →
  activeSessions m !! sid = None →
  (logViolation now sid vd m).1
    = Resolved {| lg_success := true; violationCount := 0 |} ∧
  proctoring_sessions (pool (logViolation now sid vd m).2) !! sid
    = Some (count_row now row).
Proof.
  intros Hrow Hs. unfold logViolation. rewrite Hrow, Hs. split; [done|].
  cbn. by rewrite lookup_alter_eq, Hrow.
Qed.

Lemma logViolation_counter now sid vd m row :
  proctoring_sessions (pool m) !! sid = Some row →
  stored_count sid (logViolation now sid vd m).2 = Some (S (violation_count row)).
Proof.
  intros Hrow. unfold logViolation, stored_count. rewrite Hrow.
  destruct (activeSessions m !! sid); cbn [snd].
  - destruct (_ && _); cbn; rewrite !lookup_alter_eq, Hrow; cbn; f_equal; lia.
  - cbn. rewrite lookup_alter_eq, Hrow. cbn. f_equal. lia.
Qed.

(** The status after a call: ['terminated'] when the entry of the
    handling process is strict and reaches three violations, the status
    that was stored otherwise. *)
Lemma logViolation_status now sid vd m row :
  proctoring_sessions (pool m) !! sid = Some row →
  stored_status sid (logViolation now sid vd m).2
  = Some match activeSessions m !! sid with
         | Some s => if cached_strict s && (3 <=? length (violations s) + 1)
                     then terminated else status row
         | None => status row
         end.
Proof.
  intros Hrow. unfold logViolation, stored_status. rewrite Hrow.
  destruct (activeSessions m !! sid) as [s|] eqn:Hs.
  - cbn [snd].
    set (s' := {| data := data s;
                  violations := violations s ++ [pushed_violation now vd];
                  startTime := startTime s; lastActivity := now |}).
    assert (Hs' : cached_strict s' && (3 <=? length (violations s'))
                  = cached_strict s && (3 <=? length (violations s) + 1)).
    { subst s'. unfold cached_strict. cbn [data violations].
      by rewrite length_app. }
    rewrite Hs'. destruct (cached_strict s && _).
    + unfold terminateSession, endSession.
      cbn [snd pool set_sessions proctoring_sessions default_param].
      rewrite !lookup_alter_eq, Hrow. cbn [fmap option_fmap option_map status end_row].
      by rewrite terminated_reason_is_not_completed.
    + cbn [pool set_sessions proctoring_sessions].
      by rewrite lookup_alter_eq, Hrow.
  - cbn [snd pool set_sessions proctoring_sessions].
    by rewrite lookup_alter_eq, Hrow.
Qed.

End proctoring_facts.

(** C10. [endSession] answers success with the reason it was given (the
    default ['completed'] standing for a missing argument) whether or not
    the session exists; the row of an existing session gets the status
    ['completed'] if and only if that reason is exactly the string
    ['completed'], and ['terminated'] for every other reason, among them
    the ['terminated_<reason>'] values of [terminateSession]; without a
    row the database is left as it was. *)
Theorem endSession_status_by_reason now sid arg m why :
  let reason := default_param (JStr "completed") arg in
  let out := endSession now sid arg m in
  out.1 = Resolved {| en_success := true; en_reason := reason |} ∧
  (status_of_reason reason = completed ↔ reason = JStr "completed") ∧
  (status_of_reason reason = terminated ↔ reason ≠ JStr "completed") ∧
  match proctoring_sessions (pool m) !! sid with
  | Some row =>
      proctoring_sessions (pool out.2) !! sid
        = Some (end_row now (status_of_reason reason) row) ∧
      stored_status sid out.2 = Some (status_of_reason reason) ∧
      stored_status sid (terminateSession now sid why m).2 = Some terminated
  | None =>
      pool out.2 = pool m ∧
      (terminateSession now sid why m).1
        = Resolved {| en_success := true;
                      en_reason := JStr (String.append "terminated_" why) |}
  end.
Proof.
  intros reason out. split; [done|].
  split; [|split].
  - unfold status_of_reason. case_decide; split; intros; done.
  - unfold status_of_reason. case_decide; split; intros; done.
  - destruct (proctoring_sessions (pool m) !! sid) as [row|] eqn:Hrow.
    + unfold stored_status, terminateSession. cbn.
      rewrite !lookup_alter_eq, Hrow. cbn.
      by rewrite terminated_reason_is_not_completed.
    + split; [|done]. cbn. unfold set_sessions.
      rewrite alter_absent by done. by destruct (pool m).
Qed.

(** C5, as the code has it.  Ending a session that is already completed
    or terminated never fails, but it is not a no-op: the row takes the
    status that the new reason maps to and the current time as its end
    time (the counter and the start time are kept), and the answer is
    the reason given, not the state that was stored. *)
Theorem endSession_on_terminal_session now sid arg m row :
  proctoring_sessions (pool m) !! sid = Some row →
  status row = completed ∨ status row = terminated →
  let reason := default_param (JStr "completed") arg in
  let out := endSession now sid arg m in
  out.1 = Resolved {| en_success := true; en_reason := reason |} ∧
  ∃ row', proctoring_sessions (pool out.2) !! sid = Some row' ∧
          status row' = status_of_reason reason ∧
          end_time row' = Some now ∧
          start_time row' = start_time row ∧
          violation_count row' = violation_count row ∧
          activeSessions out.2 !! sid = None.
Proof.
  intros Hrow _ reason out. split; [done|].
  exists (end_row now (status_of_reason reason) row). cbn.
  rewrite lookup_alter_eq, Hrow, lookup_delete_eq. by cbn.
Qed.

Lemma endSession_on_terminal_session_witness :
  let m := run [(1, EvStart strict_start); (10, EvEnd "s1" (JStr "timeout"))]
               (new_manager empty_database) in
  stored_status "s1" m = Some terminated ∧
  (endSession 20 "s1" (JStr "timeout") m).1
    = Resolved {| en_success := true; en_reason := JStr "timeout" |}.
Proof.
  intros m. split; [by vm_compute|].
  destruct (proctoring_sessions (pool m) !! "s1") as [row|] eqn:Hrow;
    [|by vm_compute in Hrow].
  refine (proj1 (endSession_on_terminal_session 20 "s1" (JStr "timeout") m row
                   Hrow _)).
  right. vm_compute in Hrow. by injection Hrow as <-.
Defined.

(** C5 fails as stated: a second [endSession] with another reason turns a
    terminated session into a completed one and moves its end time. *)
Lemma endSession_twice_changes_state :
  let m1 := run [(1, EvStart strict_start); (10, EvEnd "s1" (JStr "timeout"))]
                (new_manager empty_database) in
  let m2 := (endSession 20 "s1" (JStr "completed") m1).2 in
  stored_status "s1" m1 = Some terminated ∧
  stored_end_time "s1" m1 = Some (Some 10) ∧
  stored_status "s1" m2 = Some completed ∧
  stored_end_time "s1" m2 = Some (Some 20).
Proof. by vm_compute. Qed.

(** C4, as the code has it.  [logViolation] rejects, and stores nothing,
    when the session id has no row: the insert breaks the foreign key.
    On a session that is completed or terminated it resolves: the
    violation is appended and the stored counter goes up by one.  When
    the process that handles the call has no entry for the session, as
    is the case for the process that ended it, the status stays and the
    answer carries the count 0.  A process that still has an entry (it
    started the session and another process ended it) answers with the
    count of its entry, and sets the status to ['terminated'] when the
    session is strict and that count reaches 3; otherwise the status
    stays. *)
Theorem logViolation_unknown_or_ended now sid vd m :
  (proctoring_sessions (pool m) !! sid = None →
   logViolation now sid vd m = (Rejected ER_NO_REFERENCED_ROW, m)) ∧
  (∀ row, proctoring_sessions (pool m) !! sid = Some row →
     status row = completed ∨ status row = terminated →
     let out := logViolation now sid vd m in
     proctoring_violations (pool out.2)
       = proctoring_violations (pool m) ++ [inserted_row now sid vd] ∧
     length (violations_of sid (pool out.2))
       = S (length (violations_of sid (pool m))) ∧
     stored_count sid out.2 = Some (S (violation_count row)) ∧
     match activeSessions m !! sid with
     | None =>
         out.1 = Resolved {| lg_success := true; violationCount := 0 |} ∧
         proctoring_sessions (pool out.2) !! sid = Some (count_row now row) ∧
         stored_status sid out.2 = Some (status row)
     | Some s =>
         out.1 = Resolved {| lg_success := true;
                             violationCount := S (length (violations s)) |} ∧
         stored_status sid out.2
           = Some (if cached_strict s && (3 <=? length (violations s) + 1)
                   then terminated else status row)
     end) ∧
  (∀ now' reason,
     activeSessions (endSession now' sid reason m).2 !! sid = None).
Proof.
  split; [|split].
  - intros Hrow. unfold logViolation. by rewrite Hrow.
  - intros row Hrow _ out. subst out.
    split; [by apply (logViolation_appends _ _ _ _ row)|].
    split; [by apply (logViolation_rows _ _ _ _ row)|].
    split; [by apply logViolation_counter|].
    pose proof (logViolation_answer now sid vd m) as Hanswer.
    rewrite Hrow in Hanswer.
    destruct (activeSessions m !! sid) as [s|] eqn:Hs.
    + split; [exact Hanswer|].
      rewrite (logViolation_status _ _ _ _ _ Hrow). by rewrite Hs.
    + split; [exact Hanswer|].
      destruct (logViolation_without_entry now sid vd m row Hrow Hs) as [_ Hnew].
      split; [exact Hnew|]. unfold stored_status. by rewrite Hnew.
  - intros now' reason. cbn. apply lookup_delete_eq.
Qed.

Lemma logViolation_unknown_or_ended_witness :
  let m := run [(1, EvStart strict_start); (10, EvEnd "s1" JUndefined)]
               (new_manager empty_database) in
  logViolation 5 "nobody" (a_violation no_face) (new_manager empty_database)
    = (Rejected ER_NO_REFERENCED_ROW, new_manager empty_database) ∧
  (logViolation 30 "s1" (a_violation tab_switch) m).1
    = Resolved {| lg_success := true; violationCount := 0 |}.
Proof.
  intros m. split.
  - by apply (logViolation_unknown_or_ended 5 "nobody" (a_violation no_face)
                (new_manager empty_database)).
  - destruct (proctoring_sessions (pool m) !! "s1") as [row|] eqn:Hrow;
      [|by vm_compute in Hrow].
    destruct (proj1 (proj2 (logViolation_unknown_or_ended 30 "s1"
                (a_violation tab_switch) m)) row Hrow)
      as (_ & _ & _ & Hcase).
    { left. vm_compute in Hrow. by injection Hrow as <-. }
    destruct (activeSessions m !! "s1") as [s|] eqn:Hs; [by vm_compute in Hs|].
    exact (proj1 Hcase).
Defined.

(** C4 fails as stated: after [endSession] a further [logViolation]
    resolves, stores the violation and raises the counter. *)
Lemma logViolation_after_end_succeeds :
  let m := run [(1, EvStart strict_start); (10, EvEnd "s1" JUndefined)]
               (new_manager empty_database) in
  let out := logViolation 30 "s1" (a_violation tab_switch) m in
  stored_status "s1" m = Some completed ∧
  out.1 = Resolved {| lg_success := true; violationCount := 0 |} ∧
  stored_count "s1" out.2 = Some 1 ∧
  length (violations_of "s1" (pool out.2)) = 1.
Proof. by vm_compute. Qed.

(** C1, as the code has it.  The threshold is checked on the entry that
    the process handling the call has in its own map.  When that entry
    is of a session started with [strictMode] true and holds two
    violations, the call, of whatever violation type, also ends the
    session: the row gets the status ['terminated'] and the current
    time as end time, and the entry leaves the map; the answer is the
    success flag with the count 3 and has no field for the status.
    When the process has no entry for the session (it was restarted, or
    another process of the cluster started the session) the violation
    is stored and counted, the status is left as it is, whatever the
    stored count, and the answer carries the count 0. *)
Theorem strict_third_violation_terminates now sid vd m row :
  proctoring_sessions (pool m) !! sid = Some row →
  let out := logViolation now sid vd m in
  match activeSessions m !! sid with
  | Some s =>
      strictMode (data s) = Some true →
      length (violations s) = 2 →
      out.1 = Resolved {| lg_success := true; violationCount := 3 |} ∧
      proctoring_sessions (pool out.2) !! sid
        = Some (end_row now terminated (count_row now row)) ∧
      stored_status sid out.2 = Some terminated ∧
      stored_end_time sid out.2 = Some (Some now) ∧
      stored_count sid out.2 = Some (S (violation_count row)) ∧
      length (violations_of sid (pool out.2))
        = S (length (violations_of sid (pool m))) ∧
      activeSessions out.2 !! sid = None
  | None =>
      out.1 = Resolved {| lg_success := true; violationCount := 0 |} ∧
      proctoring_sessions (pool out.2) !! sid = Some (count_row now row) ∧
      stored_status sid out.2 = Some (status row) ∧
      stored_end_time sid out.2 = Some (end_time row) ∧
      stored_count sid out.2 = Some (S (violation_count row)) ∧
      length (violations_of sid (pool out.2))
        = S (length (violations_of sid (pool m))) ∧
      activeSessions out.2 !! sid = None
  end.
Proof.
  intros Hrow out.
  pose proof (logViolation_rows now sid vd m row Hrow) as Hrows.
  pose proof (logViolation_counter now sid vd m row Hrow) as Hcounter.
  fold out in Hrows, Hcounter.
  destruct (activeSessions m !! sid) as [s|] eqn:Hs.
  - intros Hstrict Hlen.
    assert (Hout : out =
      (Resolved {| lg_success := true; violationCount := 3 |},
       {| pool := set_sessions (alter (end_row now terminated) sid)
            (set_sessions (alter (count_row now) sid)
               {| proctoring_sessions := proctoring_sessions (pool m);
                  proctoring_violations :=
                    proctoring_violations (pool m) ++ [inserted_row now sid vd] |});
          activeSessions := delete sid (activeSessions out.2) |})).
    { subst out. unfold logViolation. rewrite Hrow, Hs.
      cbn [fst snd violations data].
      match goal with |- context [if ?c then _ else _] =>
        replace c with true
      end.
      2:{ unfold cached_strict. cbn [data]. rewrite Hstrict. cbn [default andb].
          symmetry. apply Nat.leb_le. rewrite length_app. cbn. lia. }
      unfold terminateSession, endSession. cbn [snd default_param pool activeSessions].
      rewrite terminated_reason_is_not_completed.
      rewrite length_app. cbn [length]. rewrite Hlen.
      f_equal. f_equal. by rewrite delete_delete_eq. }
    split; [by rewrite Hout|].
    assert (Hnew : proctoring_sessions (pool out.2) !! sid
                   = Some (end_row now terminated (count_row now row))).
    { rewrite Hout. cbn. by rewrite !lookup_alter_eq, Hrow. }
    unfold stored_status, stored_end_time. rewrite Hnew. cbn.
    repeat split; try done.
    rewrite Hout. cbn. apply lookup_delete_eq.
  - destruct (logViolation_without_entry now sid vd m row Hrow Hs)
      as [Hanswer Hnew].
    fold out in Hanswer, Hnew.
    unfold stored_status, stored_end_time. rewrite Hnew. cbn.
    repeat split; try done.
    subst out. unfold logViolation. by rewrite Hrow, Hs.
Qed.

Lemma strict_third_violation_terminates_witness :
  let m := run [(1, EvStart strict_start);
                (2, EvLog "s1" (a_violation tab_switch));
                (3, EvLog "s1" (a_violation no_face))]
               (new_manager empty_database) in
  stored_count "s1" m = Some 2 ∧
  stored_status "s1" (logViolation 4 "s1" (a_violation copy_paste) m).2
    = Some terminated.
Proof.
  intros m. split; [by vm_compute|].
  destruct (proctoring_sessions (pool m) !! "s1") as [row|] eqn:Hrow;
    [|by vm_compute in Hrow].
  pose proof (strict_third_violation_terminates 4 "s1"
                (a_violation copy_paste) m row Hrow) as Hcase.
  cbv zeta in Hcase.
  destruct (activeSessions m !! "s1") as [s|] eqn:Hs; [|by vm_compute in Hs].
  refine (proj1 (proj2 (proj2 (Hcase _ _)))).
  - vm_compute in Hs. by injection Hs as <-.
  - vm_compute in Hs. by injection Hs as <-.
Defined.

(** C1 fails as stated: with a restart between the second and the third
    violation the third call finds no entry in the map, leaves the
    session active and answers with the count 0. *)
Lemma restart_defeats_threshold :
  let m := run [(1, EvStart strict_start);
                (2, EvLog "s1" (a_violation tab_switch));
                (3, EvLog "s1" (a_violation tab_switch));
                (4, EvRestart)]
               (new_manager empty_database) in
  let out := logViolation 5 "s1" (a_violation tab_switch) m in
  out.1 = Resolved {| lg_success := true; violationCount := 0 |} ∧
  stored_count "s1" out.2 = Some 3 ∧
  length (violations_of "s1" (pool out.2)) = 3 ∧
  stored_status "s1" out.2 = Some active.
Proof. by vm_compute. Qed.

(** The threshold in a cluster of two processes.  Process 0 starts a
    strict session and records two of its violations, process 1 records
    the third one: three violations are stored and the session is still
    active.  The next violation that process 0 records is the third of
    its own entry and the fourth that is stored, and it ends the
    session. *)
Example threshold_in_a_cluster :
  let c := cluster_run [(1, 0, EvStart strict_start);
                        (2, 0, EvLog "s1" (a_violation tab_switch));
                        (3, 1, EvLog "s1" (a_violation tab_switch));
                        (4, 0, EvLog "s1" (a_violation tab_switch))]
                       new_cluster in
  let out := logViolation 5 "s1" (a_violation tab_switch) (worker_view 0 c) in
  stored_count "s1" (worker_view 0 c) = Some 3 ∧
  stored_status "s1" (worker_view 0 c) = Some active ∧
  out.1 = Resolved {| lg_success := true; violationCount := 3 |} ∧
  stored_count "s1" out.2 = Some 4 ∧
  stored_status "s1" out.2 = Some terminated.
Proof. by vm_compute. Qed.




(** ** The heap: basic facts *)

Section heap_facts.
Implicit Types (w : world) (h : gmap loc cell) (l a : loc).

Lemma bind_Ok {A B} (m : M A) (k : A → M B) w (x : A) w' :
  m w = Ok x w' → bind m k w = k x w'.
Proof. unfold bind. by intros ->. Qed.

Lemma load_Ok w l c : mem w !! l = Some c → load l w = Ok c w.
Proof. unfold load. by intros ->. Qed.

Lemma alloc_Ok c w :
  ∃ l, alloc c w = Ok l (with_mem (<[l := c]> (mem w)) w) ∧ mem w !! l = None.
Proof.
  exists (fresh (dom (mem w))). split; [done|].
  apply not_elem_of_dom, is_fresh.
Qed.

Lemma spread_array w l es :
  mem w !! l = Some (CArr es) → spread (JRef l) w = Ok es w.
Proof. intros Hl. cbn. by rewrite (bind_Ok _ _ _ _ _ (load_Ok _ _ _ Hl)). Qed.

Lemma elems_of_Some h v es :
  elems_of h v = Some es → ∃ l, v = JRef l ∧ h !! l = Some (CArr es).
Proof.
  destruct v as [| | | | |l]; try done. cbn.
  destruct (h !! l) as [[]|] eqn:Hl; try done. intros [= <-]. eauto.
Qed.

Lemma elems_of_weaken h h' v es :
  h ⊆ h' → elems_of h v = Some es → elems_of h' v = Some es.
Proof.
  intros Hsub (l & -> & Hl)%elems_of_Some. cbn.
  by rewrite (lookup_weaken _ _ _ _ Hl Hsub).
Qed.

Lemma field_of_weaken h h' l c k :
  h ⊆ h' → h !! l = Some c → field_of h' (JRef l) k = field_of h (JRef l) k.
Proof.
  intros Hsub Hl. cbn. by rewrite Hl, (lookup_weaken _ _ _ _ Hl Hsub).
Qed.

End heap_facts.

(** Symbolic execution: [exec H] takes the first step of the computation
    in the goal when [H] says how it evaluates; [exec_load H] does so for
    a [load] of a cell that [H] finds in the heap. *)
Ltac exec H := rewrite (bind_Ok _ _ _ _ _ H).
Ltac exec_load H := rewrite (bind_Ok _ _ _ _ _ (load_Ok _ _ _ H)).

(** ** Shuffling *)

Section shuffle_facts.
Implicit Types (w : world) (es : list jsval) (a : loc) (i j : nat).

Lemma array_set_in_range es i v :
  i < length es → array_set es i v = <[i := v]> es.
Proof. intros Hi. unfold array_set. by rewrite (proj2 (Nat.ltb_lt _ _) Hi). Qed.

Lemma swap_elems_in_range es i j x y :
  es !! i = Some x → es !! j = Some y →
  swap_elems es i j = <[j := x]> (<[i := y]> es).
Proof.
  intros Hi Hj. unfold swap_elems. rewrite Hi, Hj. cbn.
  rewrite (array_set_in_range es i y) by (by eapply lookup_lt_Some).
  rewrite array_set_in_range; [done|].
  rewrite length_insert. by eapply lookup_lt_Some.
Qed.

Lemma insert_head_perm es j x y :
  es !! j = Some y → y :: <[j := x]> es ≡ₚ x :: es.
Proof.
  intros Hj. rewrite insert_take_drop by (by eapply lookup_lt_Some).
  rewrite <- (take_drop_middle es j y Hj) at 3.
  rewrite <- !Permutation_middle. apply perm_swap.
Qed.

Lemma swap_perm es i j x y :
  es !! i = Some x → es !! j = Some y → <[j := x]> (<[i := y]> es) ≡ₚ es.
Proof.
  revert i j. induction es as [|e es IH]; intros [|i] [|j]; cbn; try done.
  - intros [= ->] [= ->]. done.
  - intros [= ->] Hj. by apply insert_head_perm.
  - intros Hi [= ->]. by apply insert_head_perm.
  - intros Hi Hj. f_equiv. by apply IH.
Qed.

Lemma swap_elems_perm es i j :
  i < length es → j < length es → swap_elems es i j ≡ₚ es.
Proof.
  intros [x Hi]%lookup_lt_is_Some [y Hj]%lookup_lt_is_Some.
  rewrite (swap_elems_in_range _ _ _ _ _ Hi Hj). by eapply swap_perm.
Qed.

(** The loop only writes the array at [a], and leaves a permutation of
    what it found there. *)
Lemma shuffle_from_spec a i w es :
  mem w !! a = Some (CArr es) →
  i < length es ∨ i = 0 →
  ∃ es' w', shuffle_from a i w = Ok tt w' ∧
            mem w' = <[a := CArr es']> (mem w) ∧ es' ≡ₚ es.
Proof.
  revert w es. induction i as [|i IH]; intros w es Ha Hi.
  - exists es, w. split; [done|]. split; [by rewrite insert_id|done].
  - destruct Hi as [Hi|]; [|done].
    cbn [shuffle_from]. unfold bind at 1. cbn [random_below].
    set (j := entropy w (drawn w) mod (S i + 1)).
    assert (Hj : j < length es).
    { pose proof (Nat.mod_upper_bound (entropy w (drawn w)) (S i + 1)).
      subst j. lia. }
    set (w1 := {| mem := mem w; entropy := entropy w; drawn := S (drawn w) |}).
    unfold bind at 1. unfold swap.
    rewrite (bind_Ok _ _ w1 _ _ (load_Ok w1 a _ Ha)).
    unfold store. cbn [mem w1]. rewrite Ha.
    set (es1 := swap_elems es (S i) j).
    assert (Hperm : es1 ≡ₚ es) by (by apply swap_elems_perm).
    destruct (IH (with_mem (<[a := CArr es1]> (mem w)) w1) es1)
      as (es' & w' & Hrun & Hmem & Hperm').
    { cbn. apply lookup_insert_eq. }
    { left. rewrite (Permutation_length Hperm). lia. }
    exists es', w'. split; [exact Hrun|]. split.
    + rewrite Hmem. cbn. apply insert_insert_eq.
    + by rewrite Hperm'.
Qed.

Lemma shuffleArray_spec w l es :
  mem w !! l = Some (CArr es) →
  ∃ a es' w', shuffleArray (JRef l) w = Ok (JRef a) w' ∧
              mem w !! a = None ∧
              mem w' = <[a := CArr es']> (mem w) ∧ es' ≡ₚ es.
Proof.
  intros Hl. unfold shuffleArray.
  exec (spread_array _ _ _ Hl).
  destruct (alloc_Ok (CArr es) w) as (a & Halloc & Hfresh).
  exec Halloc.
  destruct (shuffle_from_spec a (length es - 1)
              (with_mem (<[a := CArr es]> (mem w)) w) es)
    as (es' & w' & Hrun & Hmem & Hperm).
  { cbn. apply lookup_insert_eq. }
  { destruct es; cbn; [by right|left; lia]. }
  exec Hrun.
  exists a, es', w'. split; [done|]. split; [done|]. split; [|done].
  rewrite Hmem. cbn. apply insert_insert_eq.
Qed.

End shuffle_facts.

(** ** Option randomization *)

Section options_facts.
Implicit Types (w : world) (h : gmap loc cell) (es : list jsval).

Lemma indexOf_from_found i es x :
  x ∈ es →
  ∃ k : nat, indexOf_from i es x = (i + Z.of_nat k)%Z ∧ es !! k = Some x.
Proof.
  revert i. induction es as [|e es IH]; intros i Hx; [by apply elem_of_nil in Hx|].
  cbn. destruct (decide (e = x)) as [->|Hne].
  - exists 0. split; [lia|done].
  - apply elem_of_cons in Hx as [->|Hx]; [done|].
    destruct (IH (i + 1)%Z Hx) as (k & Hk & Hlk).
    exists (S k). split; [lia|done].
Qed.

Lemma indexOf_from_missing i es x : x ∉ es → indexOf_from i es x = (-1)%Z.
Proof.
  revert i. induction es as [|e es IH]; intros i Hx; [done|].
  cbn. apply not_elem_of_cons in Hx as [Hne Hx].
  rewrite decide_False by done. by apply IH.
Qed.

Lemma index_elems_elem_or_undefined es key v :
  index_elems es key = Some v → v ∈ es ∨ v = JUndefined.
Proof.
  destruct key as [| | |n| |]; cbn; try (intros [= <-]; by right); try done.
  destruct (0 <=? n)%Z; [|intros [= <-]; by right].
  destruct (es !! Z.to_nat n) as [e|] eqn:He; cbn; intros [= <-]; [|by right].
  left. by eapply list_elem_of_lookup_2.
Qed.

(** The index that [indexOf] finds in the shuffled options reads the
    value that the old index read in the old options. *)
Lemma index_elems_indexOf es es' key answer :
  es' ≡ₚ es →
  index_elems es key = Some answer →
  index_elems es' (JNum (indexOf es' answer)) = Some answer.
Proof.
  intros Hperm Hkey. unfold indexOf.
  destruct (decide (answer ∈ es')) as [Hin|Hout].
  - destruct (indexOf_from_found 0 es' answer Hin) as (k & -> & Hk). cbn.
    replace (0 <=? 0 + Z.of_nat k)%Z with true by (symmetry; apply Z.leb_le; lia).
    rewrite Z.add_0_l, Nat2Z.id, Hk. done.
  - rewrite indexOf_from_missing by done. cbn.
    destruct (index_elems_elem_or_undefined _ _ _ Hkey) as [Hin| ->]; [|done].
    rewrite <- Hperm in Hin. done.
Qed.

Lemma question_ok_weaken h h' question :
  h ⊆ h' → question_ok h question = true → question_ok h' question = true.
Proof.
  intros Hsub. destruct question as [| | | | |q]; try done. cbn.
  destruct (h !! q) as [c|] eqn:Hq; [|done].
  rewrite (lookup_weaken _ _ _ _ Hq Hsub).
  destruct c as [|fs]; [done|].
  destruct (default JUndefined (fs !! "options")) as [| | | | |o]; try done.
  destruct (h !! o) as [c|] eqn:Ho; [|done].
  by rewrite (lookup_weaken _ _ _ _ Ho Hsub).
Qed.

(** What is read from a well-formed question does not depend on cells
    allocated later. *)
Lemma question_fields_stable h h' question k :
  h ⊆ h' → question_ok h question = true →
  field_of h' question k = field_of h question k.
Proof.
  intros Hsub. destruct question as [| | | | |q]; try done. cbn.
  destruct (h !! q) as [c|] eqn:Hq; [|done].
  by rewrite (lookup_weaken _ _ _ _ Hq Hsub).
Qed.

Lemma question_options_stable h h' question :
  h ⊆ h' → question_ok h question = true →
  elems_of h' (field_of h question "options")
  = elems_of h (field_of h question "options").
Proof.
  intros Hsub. destruct question as [| | | | |q]; try done. cbn.
  destruct (h !! q) as [[|fs]|] eqn:Hq; try done.
  destruct (default JUndefined (fs !! "options")) as [| | | | |o]; try done.
  cbn. destruct (h !! o) as [c|] eqn:Ho; [|done].
  by rewrite (lookup_weaken _ _ _ _ Ho Hsub).
Qed.

Lemma shuffled_version_weaken h0 h h' h'' q r :
  h0 ⊆ h → h' ⊆ h'' → question_ok h0 q = true →
  shuffled_version h h' q r → shuffled_version h0 h'' q r.
Proof.
  intros H0 H' Hok. unfold shuffled_version.
  rewrite !(question_fields_stable h0 h q _ H0 Hok).
  rewrite (question_options_stable h0 h q H0 Hok).
  destruct (elems_of h0 (field_of h0 q "options")) as [es|]; [|done].
  intros (es' & Hopts & Hperm & Hidx & Horig & Hold & Hrest).
  destruct r as [| | | | |l]; try done.
  cbn in Hopts. destruct (h' !! l) as [c|] eqn:Hl; [|done].
  assert (Hf : ∀ k, field_of h'' (JRef l) k = field_of h' (JRef l) k).
  { intros k. by eapply field_of_weaken. }
  exists es'. rewrite !Hf. repeat split; try done.
  - eapply elems_of_weaken; [done|]. cbn. by rewrite Hl.
  - by eapply elems_of_weaken.
  - intros k ???. rewrite Hf, <- (question_fields_stable h0 h q k H0 Hok).
    by apply Hrest.
Qed.

End options_facts.

(** The specification of [randomizeQuestionOptions], shared by the
    statements about one question and about a quiz. *)
Lemma randomizeQuestionOptions_spec w question :
  question_ok (mem w) question = true →
  ∃ r w', randomizeQuestionOptions question w = Ok r w' ∧
          mem w ⊆ mem w' ∧
          shuffled_version (mem w) (mem w') question r ∧
          (elems_of (mem w) (field_of (mem w) question "options") = None →
           r = question ∧ w' = w).
Proof.
  intros Hok. unfold randomizeQuestionOptions.
  assert (Hpass : ∀ options,
    get_prop question "options" w = Ok options w →
    field_of (mem w) question "options" = options →
    elems_of (mem w) options = None →
    (∀ o, options = JRef o → is_Some (mem w !! o)) →
    ∃ r w',
      (let* options := get_prop question "options" in
       let* is_array := isArray options in
       if negb (truthy options) || negb is_array then ret question
       else
         let* correct := get_prop question "correct" in
         let* correctAnswer := get_index options correct in
         let* shuffledOptions := shuffleArray options in
         let* shuffled := spread shuffledOptions in
         let newCorrectIndex := indexOf shuffled correctAnswer in
         let* fs := own_fields question in
         let* q := alloc (CObj (<["originalOrder" := options]>
                               (<["correct" := JNum newCorrectIndex]>
                               (<["options" := shuffledOptions]> fs)))) in
         ret (JRef q)) w = Ok r w' ∧
      mem w ⊆ mem w' ∧ shuffled_version (mem w) (mem w') question r ∧
      (elems_of (mem w) (field_of (mem w) question "options") = None →
       r = question ∧ w' = w)).
  { intros options Hget Hfield Hnot Hin.
    exists question, w. exec Hget.
    assert (Harr : ∃ b, isArray options w = Ok b w ∧
                        negb (truthy options) || negb b = true).
    { destruct options as [| | | | |o]; try (by exists false; split; [done|apply orb_true_r]).
      destruct (Hin o eq_refl) as [c Hc]. cbn in Hnot. rewrite Hc in Hnot.
      destruct c as [es|fs]; [done|]. exists false. split; [|done].
      cbn. by exec_load Hc. }
    destruct Harr as (b & Hb & Hcond). exec Hb. rewrite Hcond.
    split; [done|]. split; [done|]. split; [|done].
    unfold shuffled_version. by rewrite Hfield, Hnot. }
  destruct question as [| | |n|s|q]; try done.
  - apply (Hpass JUndefined); done.
  - apply (Hpass JUndefined); done.
  - apply (Hpass JUndefined); done.
  - cbn in Hok. destruct (mem w !! q) as [c|] eqn:Hq; [|done].
    destruct c as [qs|fs].
    { apply (Hpass JUndefined); try done.
      + cbn. by exec_load Hq.
      + cbn. by rewrite Hq. }
    assert (Hget : ∀ k w0, mem w0 !! q = Some (CObj fs) →
              get_prop (JRef q) k w0 = Ok (default JUndefined (fs !! k)) w0).
    { intros k w0 Hq0. cbn. by exec_load Hq0. }
    assert (Hfield : ∀ k, field_of (mem w) (JRef q) k = default JUndefined (fs !! k)).
    { intros k. cbn. by rewrite Hq. }
    destruct (default JUndefined (fs !! "options")) as [| | | | |o] eqn:Hopts;
      try (eapply Hpass;
           [by rewrite Hget, Hopts|by rewrite Hfield, Hopts|done|done]).
    destruct (mem w !! o) as [c|] eqn:Ho; [|done].
    destruct c as [es|ofs].
    2:{ apply (Hpass (JRef o)); rewrite ?Hfield, ?Hopts; try done.
        - by rewrite Hget, Hopts.
        - cbn. by rewrite Ho.
        - intros ? [= <-]. by rewrite Ho. }
    apply bool_decide_eq_true in Hok as [answer Hanswer].
    exec (Hget "options" w Hq). rewrite Hopts.
    assert (Hisarr : isArray (JRef o) w = Ok true w).
    { cbn. by exec_load Ho. }
    exec Hisarr. cbn [truthy negb orb].
    exec (Hget "correct" w Hq).
    assert (Hidx : get_index (JRef o) (default JUndefined (fs !! "correct")) w
                   = Ok answer w).
    { cbn. exec_load Ho. by rewrite Hanswer. }
    exec Hidx.
    destruct (shuffleArray_spec w o es Ho) as (a & es' & w1 & Hsh & Ha & Hmem1 & Hperm).
    exec Hsh.
    assert (Ha1 : mem w1 !! a = Some (CArr es')).
    { rewrite Hmem1. apply lookup_insert_eq. }
    exec (spread_array _ _ _ Ha1).
    assert (Hq1 : mem w1 !! q = Some (CObj fs)).
    { rewrite Hmem1, lookup_insert_ne; [done|]. congruence. }
    assert (Hown : own_fields (JRef q) w1 = Ok fs w1).
    { cbn. by exec_load Hq1. }
    exec Hown.
    set (fs' := <["originalOrder" := JRef o]>
                 (<["correct" := JNum (indexOf es' answer)]>
                 (<["options" := JRef a]> fs))).
    destruct (alloc_Ok (CObj fs') w1) as (q' & Halloc & Hq').
    exec Halloc.
    eexists _, _. split; [done|].
    assert (Hsub : mem w ⊆ <[q' := CObj fs']> (mem w1)).
    { etrans; [|by apply insert_subseteq].
      rewrite Hmem1. by apply insert_subseteq. }
    split; [exact Hsub|]. split.
    + unfold shuffled_version. rewrite !Hfield, Hopts. cbn [elems_of].
      rewrite Ho. exists es'. cbn [with_mem mem field_of].
      rewrite lookup_insert_eq. subst fs'.
      rewrite lookup_insert_ne, lookup_insert_ne, lookup_insert_eq by done.
      rewrite lookup_insert_ne, lookup_insert_eq by done.
      rewrite lookup_insert_eq. cbn [default from_option id elems_of].
      assert (a ≠ q') by congruence.
      rewrite lookup_insert_ne, Ha1 by done.
      pose proof (lookup_weaken _ _ _ _ Ho Hsub) as Ho'. cbn in Ho'. rewrite Ho'.
      repeat split; try done.
      * rewrite Hanswer. by eapply index_elems_indexOf.
      * intros k ???. rewrite !lookup_insert_ne by done. by rewrite Hq.
    + rewrite Hfield, Hopts. cbn. by rewrite Ho.
Qed.

(** C2. Option randomization of a question whose options are an array
    returns a new object whose options are a permutation of the old
    ones, whose [correct] index reads the value the old index read, and
    whose [originalOrder] is the old options array in its old order; the
    cells that existed before are unchanged.  A question whose options
    are absent or not an array comes back as it is, in an unchanged
    heap. *)
Theorem randomizeQuestionOptions_permutes w question :
  question_ok (mem w) question = true →
  ∃ r w', randomizeQuestionOptions question w = Ok r w' ∧
          mem w ⊆ mem w' ∧
          shuffled_version (mem w) (mem w') question r ∧
          (elems_of (mem w) (field_of (mem w) question "options") = None →
           r = question ∧ w' = w).
Proof. apply randomizeQuestionOptions_spec. Qed.

Lemma randomizeQuestionOptions_permutes_witness :
  ∃ r w', randomizeQuestionOptions (JRef question_loc) sample_world = Ok r w' ∧
          mem sample_world ⊆ mem w' ∧
          shuffled_version (mem sample_world) (mem w') (JRef question_loc) r ∧
          (elems_of (mem sample_world)
             (field_of (mem sample_world) (JRef question_loc) "options") = None →
           r = JRef question_loc ∧ w' = sample_world).
Proof.
  apply (randomizeQuestionOptions_permutes sample_world (JRef question_loc)).
  vm_compute. reflexivity.
Defined.

(** The sample question under this run of the random source (draws 1, 0
    and 1 for the positions 3, 2 and 1): the options come out as const,
    def, var, let and the correct index moves from 2 to 0. *)
Example randomizeQuestionOptions_sample :
  match randomizeQuestionOptions (JRef question_loc) sample_world with
  | Ok r w' =>
      elems_of (mem w') (field_of (mem w') r "options")
        = Some [JStr "const"; JStr "def"; JStr "var"; JStr "let"] ∧
      field_of (mem w') r "correct" = JNum 0 ∧
      field_of (mem w') r "originalOrder" = JRef options_loc
  | _ => False
  end.
Proof. by vm_compute. Qed.

(** ** The quiz *)

Section quiz_facts.
Implicit Types (w : world) (h : gmap loc cell) (qs rs : list jsval).

Lemma mapM_randomizeQuestionOptions qs w h0 :
  h0 ⊆ mem w →
  Forall (λ q, question_ok h0 q = true) qs →
  ∃ rs w', mapM randomizeQuestionOptions qs w = Ok rs w' ∧
           mem w ⊆ mem w' ∧
           Forall2 (shuffled_version h0 (mem w')) qs rs.
Proof.
  revert w. induction qs as [|q qs IH]; intros w Hsub Hok.
  - exists [], w. by repeat split.
  - apply Forall_cons in Hok as [Hq Hqs].
    destruct (randomizeQuestionOptions_spec w q) as (r & w1 & Hr & Hsub1 & Hsh & _).
    { by eapply question_ok_weaken. }
    destruct (IH w1) as (rs & w' & Hrs & Hsub' & Hall); [by etrans|done|].
    exists (r :: rs), w'. cbn [mapM].
    exec Hr. exec Hrs.
    split; [done|]. split; [by etrans|].
    constructor; [|done]. by eapply shuffled_version_weaken.
Qed.

Lemma Forall2_weaken_heap h0 h h' qs rs :
  h ⊆ h' →
  Forall (λ q, question_ok h0 q = true) qs →
  Forall2 (shuffled_version h0 h) qs rs →
  Forall2 (shuffled_version h0 h') qs rs.
Proof.
  intros Hsub Hok Hall. revert Hok.
  induction Hall as [|q r qs rs Hqr _ IH]; intros Hok; [done|].
  apply Forall_cons in Hok as [Hq Hqs]. constructor; [|by apply IH].
  by eapply shuffled_version_weaken.
Qed.

Lemma limit_to_expected limit len :
  limit = JUndefined ∨ limit = JNull ∨ (∃ n, limit = JNum n) →
  limit_to (default_param JNull limit) len
  = Some (if decide (expected_count limit len < len)
          then Some (expected_count limit len) else None)
  ∧ expected_count limit len ≤ len.
Proof.
  intros [->|[->|[n ->]]]; cbn.
  - rewrite decide_False by lia. done.
  - rewrite decide_False by lia. done.
  - destruct (decide (0 < n < Z.of_nat len)%Z) as [Hn|Hn].
    + rewrite decide_True by lia. split; [|lia].
      replace (n =? 0)%Z with false by (symmetry; apply Z.eqb_neq; lia).
      replace (0 <? n)%Z with true by (symmetry; apply Z.ltb_lt; lia).
      replace (n <? Z.of_nat len)%Z with true by (symmetry; apply Z.ltb_lt; lia).
      done.
    + rewrite decide_False by lia. split; [|lia].
      destruct (n =? 0)%Z eqn:H0; [done|].
      destruct (0 <? n)%Z eqn:H1; [|done].
      destruct (n <? Z.of_nat len)%Z eqn:H2; [|done].
      apply Z.ltb_lt in H1, H2. lia.
Qed.

Lemma options_stage w h0 copy qs (ro : bool) :
  h0 ⊆ mem w →
  mem w !! copy = Some (CArr qs) →
  (ro = true → Forall (λ q, question_ok h0 q = true) qs) →
  ∃ p w' mapped,
    (if ro then array_map randomizeQuestionOptions (JRef copy)
     else ret (JRef copy)) w = Ok (JRef p) w' ∧
    mem w ⊆ mem w' ∧
    mem w' !! p = Some (CArr mapped) ∧
    Forall2 (if ro then shuffled_version h0 (mem w') else eq) qs mapped.
Proof.
  intros Hsub Hcopy Hok. destruct ro.
  - destruct (mapM_randomizeQuestionOptions qs w h0 Hsub (Hok eq_refl))
      as (rs & w1 & Hrs & Hsub1 & Hall).
    destruct (alloc_Ok (CArr rs) w1) as (p & Halloc & Hp).
    exists p, (with_mem (<[p := CArr rs]> (mem w1)) w1), rs.
    unfold array_map.
    exec (spread_array _ _ _ Hcopy). exec Hrs. exec Halloc.
    assert (mem w1 ⊆ <[p := CArr rs]> (mem w1)) by (by apply insert_subseteq).
    split; [done|]. split; [by etrans|]. split; [apply lookup_insert_eq|].
    eapply Forall2_weaken_heap; [|by apply Hok|done]. done.
  - exists copy, w, qs. repeat split; try done.
Qed.

Lemma order_stage w p mapped (rq : bool) :
  mem w !! p = Some (CArr mapped) →
  ∃ p' w' shuffled,
    (if rq then shuffleArray (JRef p) else ret (JRef p)) w = Ok (JRef p') w' ∧
    mem w ⊆ mem w' ∧
    mem w' !! p' = Some (CArr shuffled) ∧
    shuffled ≡ₚ mapped ∧
    (rq = false → shuffled = mapped).
Proof.
  intros Hp. destruct rq.
  - destruct (shuffleArray_spec w p mapped Hp) as (a & es' & w' & Hsh & Ha & Hmem & Hperm).
    exists a, w', es'. split; [done|]. rewrite Hmem.
    split; [by apply insert_subseteq|]. split; [apply lookup_insert_eq|done].
  - exists p, w, mapped. by repeat split.
Qed.

(** The specification of [randomizeQuiz] for a limit that is a number or
    absent: [mapped] is the list after the options stage, [shuffled]
    after the order stage, and the result is a prefix of it. *)
Lemma randomizeQuiz_spec w questions qs rq ro limit :
  elems_of (mem w) questions = Some qs →
  (truthy (default_param (JBool true) ro) = true →
   Forall (λ q, question_ok (mem w) q = true) qs) →
  limit = JUndefined ∨ limit = JNull ∨ (∃ n, limit = JNum n) →
  ∃ result w' mapped shuffled,
    randomizeQuiz questions rq ro limit w = Ok result w' ∧
    mem w ⊆ mem w' ∧
    Forall2 (if truthy (default_param (JBool true) ro)
             then shuffled_version (mem w) (mem w') else eq) qs mapped ∧
    shuffled ≡ₚ mapped ∧
    (truthy (default_param (JBool true) rq) = false → shuffled = mapped) ∧
    elems_of (mem w') result
      = Some (take (expected_count limit (length qs)) shuffled).
Proof.
  intros (l & -> & Hl)%elems_of_Some Hok Hlimit. unfold randomizeQuiz.
  exec (spread_array _ _ _ Hl).
  destruct (alloc_Ok (CArr qs) w) as (copy & Halloc & Hcopy).
  exec Halloc.
  set (w1 := with_mem (<[copy := CArr qs]> (mem w)) w).
  assert (Hsub1 : mem w ⊆ mem w1) by (by apply insert_subseteq).
  destruct (options_stage w1 (mem w) copy qs
              (truthy (default_param (JBool true) ro)))
    as (p & w2 & mapped & Hstage2 & Hsub2 & Hp & Hall); try done.
  { apply lookup_insert_eq. }
  exec Hstage2.
  destruct (order_stage w2 p mapped (truthy (default_param (JBool true) rq)) Hp)
    as (p' & w3 & shuffled & Hstage3 & Hsub3 & Hp' & Hperm & Hsame).
  exec Hstage3.
  exec (spread_array _ _ _ Hp').
  assert (Hlen : length shuffled = length qs).
  { rewrite (Permutation_length Hperm). symmetry. by eapply Forall2_length. }
  destruct (limit_to_expected limit (length qs) Hlimit) as [Hto Hle].
  rewrite Hlen, Hto.
  assert (Hfinal : ∀ h', mem w3 ⊆ h' →
    Forall2 (if truthy (default_param (JBool true) ro)
             then shuffled_version (mem w) h' else eq) qs mapped).
  { intros h' Hsub'. destruct (truthy (default_param (JBool true) ro)); [|done].
    eapply Forall2_weaken_heap; [|by apply Hok|done]. by etrans. }
  destruct (decide (expected_count limit (length qs) < length qs)) as [Hlt|Hge].
  - destruct (alloc_Ok (CArr (take (expected_count limit (length qs)) shuffled)) w3)
      as (sliced & Hslice & Hfresh).
    exec Hslice.
    eexists _, _, mapped, shuffled. split; [done|].
    assert (mem w3 ⊆ <[sliced := CArr (take (expected_count limit (length qs)) shuffled)]> (mem w3))
      by (by apply insert_subseteq).
    split; [by do 3 (etrans; [eassumption|])|].
    split; [by apply Hfinal|]. split; [done|]. split; [done|].
    cbn. by rewrite lookup_insert_eq.
  - exists (JRef p'), w3, mapped, shuffled. split; [done|].
    split; [by do 2 (etrans; [eassumption|])|].
    split; [by apply Hfinal|]. split; [done|]. split; [done|].
    cbn. rewrite Hp'. f_equal. symmetry. apply take_ge. lia.
Qed.

End quiz_facts.

(** C3. For a limit that is an integer or absent, [randomizeQuiz] keeps
    [questionLimit] questions when [0 < questionLimit < length] and all
    of them otherwise (so none of an empty list, without error); the
    cells that existed before the call, the input list among them, are
    unchanged; and when the question order is not randomized the result
    is the prefix of the input in its order, each question replaced by
    its option-randomized version when options are randomized (as with
    the first 3 of 5 questions for a limit of 3). *)
Theorem randomizeQuiz_limit w questions qs rq ro limit :
  elems_of (mem w) questions = Some qs →
  (truthy (default_param (JBool true) ro) = true →
   Forall (λ q, question_ok (mem w) q = true) qs) →
  limit = JUndefined ∨ limit = JNull ∨ (∃ n, limit = JNum n) →
  ∃ result w' rs,
    randomizeQuiz questions rq ro limit w = Ok result w' ∧
    elems_of (mem w') result = Some rs ∧
    length rs = expected_count limit (length qs) ∧
    (qs = [] → rs = []) ∧
    mem w ⊆ mem w' ∧
    elems_of (mem w') questions = Some qs ∧
    (truthy (default_param (JBool true) rq) = false →
     Forall2 (if truthy (default_param (JBool true) ro)
              then shuffled_version (mem w) (mem w') else eq)
             (take (length rs) qs) rs).
Proof.
  intros Hqs Hok Hlimit.
  destruct (randomizeQuiz_spec w questions qs rq ro limit Hqs Hok Hlimit)
    as (result & w' & mapped & shuffled & Hrun & Hsub & Hall & Hperm & Hsame & Hres).
  destruct (limit_to_expected limit (length qs) Hlimit) as [_ Hle].
  assert (Hlen : length shuffled = length qs).
  { rewrite (Permutation_length Hperm). symmetry. by eapply Forall2_length. }
  assert (Hcount : length (take (expected_count limit (length qs)) shuffled)
                   = expected_count limit (length qs)).
  { rewrite length_take. lia. }
  exists result, w', (take (expected_count limit (length qs)) shuffled).
  split; [done|]. split; [done|]. split; [done|]. split.
  { intros Hnil. apply nil_length_inv. rewrite Hcount.
    rewrite Hnil in Hle |- *. cbn in Hle |- *. lia. }
  split; [done|]. split; [by eapply elems_of_weaken|].
  intros Hrq. rewrite Hcount, (Hsame Hrq). by apply Forall2_take.
Qed.

Lemma randomizeQuiz_limit_witness :
  ∃ result w' rs,
    randomizeQuiz (JRef quiz_loc) (JBool false) (JBool true) (JNum 3) quiz_world
      = Ok result w' ∧
    elems_of (mem w') result = Some rs ∧
    length rs = 3 ∧
    (five_questions = [] → rs = []) ∧
    mem quiz_world ⊆ mem w' ∧
    elems_of (mem w') (JRef quiz_loc) = Some five_questions ∧
    (false = false →
     Forall2 (shuffled_version (mem quiz_world) (mem w'))
             (take (length rs) five_questions) rs).
Proof.
  apply (randomizeQuiz_limit quiz_world (JRef quiz_loc) five_questions
           (JBool false) (JBool true) (JNum 3)).
  - by vm_compute.
  - intros _. unfold five_questions.
    repeat (constructor; [by vm_compute|]). constructor.
  - right. right. by exists 3%Z.
Defined.

(** C3, at a limit that is no integer.  The condition
    [questionLimit && questionLimit > 0 && questionLimit < length]
    holds for [true] on five questions, and [slice(0, true)] keeps one:
    the list is cut to its first question by a limit that is not a
    positive integer. *)
Theorem boolean_limit_truncates :
  match randomizeQuiz (JRef quiz_loc) (JBool false) (JBool false) (JBool true)
          quiz_world with
  | Ok result w' =>
      elems_of (mem quiz_world) (JRef quiz_loc) = Some five_questions ∧
      length five_questions = 5 ∧
      elems_of (mem w') result = Some [JRef 6%positive]
  | _ => False
  end.
Proof. by vm_compute. Qed.

(** The sample quiz with a limit of 3 and the question order kept: the
    first three questions come back, in order, with their options
    shuffled; the input list still holds the five questions. *)
Example randomizeQuiz_sample :
  match randomizeQuiz (JRef quiz_loc) (JBool false) (JBool true) (JNum 3)
          quiz_world with
  | Ok result w' =>
      (λ r, field_of (mem w') r "question") <$> default [] (elems_of (mem w') result)
        = [JStr "Q1"; JStr "Q2"; JStr "Q3"] ∧
      (λ r, field_of (mem w') r "originalOrder") <$> default [] (elems_of (mem w') result)
        = [JRef 1%positive; JRef 2%positive; JRef 3%positive] ∧
      elems_of (mem w') (JRef quiz_loc) = Some five_questions
  | _ => False
  end.
Proof. by vm_compute. Qed.

(** ** Quiz delivery: proofs *)

Section delivery_facts.
Implicit Types (w : world) (h : gmap loc cell) (v : jsval).

Lemma materialize_Ok :
  ∀ j w, ∃ v w', materialize j w = Ok v w' ∧
                 mem w ⊆ mem w' ∧
                 (v = JNull → j = JsNull) ∧
                 v ≠ JUndefined ∧
                 in_heap (mem w') v.
Proof.
  fix IH 1. intros [|b|n|s|items|members] w.
  - exists JNull, w. by repeat split.
  - exists (JBool b), w. by repeat split.
  - exists (JNum n), w. by repeat split.
  - exists (JStr s), w. by repeat split.
  - cbn [materialize].
    match goal with |- context [bind (?f items)] => set (items_of := f) end.
    assert (Hitems : ∀ w0, ∃ vs w1, items_of items w0 = Ok vs w1 ∧
                                    mem w0 ⊆ mem w1).
    { induction items as [|x items IHitems]; intros w0.
      - exists [], w0. by split.
      - destruct (IH x w0) as (v & w1 & Hv & Hsub1 & _).
        destruct (IHitems w1) as (vs & w2 & Hvs & Hsub2).
        exists (v :: vs), w2. cbn.
        exec Hv. fold items_of.
        exec Hvs. split; [done|by etrans]. }
    destruct (Hitems w) as (vs & w1 & Hvs & Hsub1).
    destruct (alloc_Ok (CArr vs) w1) as (a & Halloc & Ha).
    exec Hvs. exec Halloc.
    eexists _, _. split; [done|]. cbn.
    split; [etrans; [done|by apply insert_subseteq]|].
    repeat split; try done. intros l [= <-]. by rewrite lookup_insert_eq.
  - cbn [materialize].
    match goal with |- context [bind (?f members ∅)] => set (members_of := f) end.
    assert (Hmembers : ∀ acc w0, ∃ fs w1, members_of members acc w0 = Ok fs w1 ∧
                                          mem w0 ⊆ mem w1).
    { induction members as [|[k x] members IHmembers]; intros acc w0.
      - exists acc, w0. by split.
      - destruct (IH x w0) as (v & w1 & Hv & Hsub1 & _).
        destruct (IHmembers (<[k := v]> acc) w1) as (fs & w2 & Hfs & Hsub2).
        exists fs, w2. cbn.
        exec Hv. fold members_of.
        split; [done|by etrans]. }
    destruct (Hmembers ∅ w) as (fs & w1 & Hfs & Hsub1).
    destruct (alloc_Ok (CObj fs) w1) as (o & Halloc & Ho).
    exec Hfs. exec Halloc.
    eexists _, _. split; [done|]. cbn.
    split; [etrans; [done|by apply insert_subseteq]|].
    repeat split; try done. intros l [= <-]. by rewrite lookup_insert_eq.
Qed.

Lemma get_prop_Ok v k w :
  v ≠ JUndefined → v ≠ JNull → in_heap (mem w) v →
  ∃ x, get_prop v k w = Ok x w.
Proof.
  intros Hu Hn Hin. destruct v as [| | | | |l]; try done; try (by eexists).
  destruct (Hin l eq_refl) as [c Hc]. cbn.
  exec_load Hc. destruct c; by eexists.
Qed.

Lemma in_heap_weaken h h' v : h ⊆ h' → in_heap h v → in_heap h' v.
Proof.
  intros Hsub Hin l Hl. destruct (Hin l Hl) as [c Hc].
  exists c. by eapply lookup_weaken.
Qed.

(** Parsing a settings column always yields a value. *)
Lemma parse_or_keep_Ok column current w :
  ∃ v w', parse_or_keep column current w = Ok v w' ∧ mem w ⊆ mem w'.
Proof.
  unfold parse_or_keep. destruct column as [t|]; [|by exists current, w].
  destruct (String.eqb (raw t) ""); [by exists current, w|].
  destruct (parses_to t) as [j|]; [|by exists current, w].
  destruct (materialize_Ok j w) as (v & w' & Hv & Hsub & _). by exists v, w'.
Qed.

(** Unless the column holds the JSON [null], the value has properties
    to read. *)
Lemma parse_or_keep_readable quiz current w :
  settings_are_null quiz = false →
  current ≠ JUndefined → current ≠ JNull → in_heap (mem w) current →
  ∃ v w', parse_or_keep (randomization_settings quiz) current w = Ok v w' ∧
          mem w ⊆ mem w' ∧
          v ≠ JUndefined ∧ v ≠ JNull ∧ in_heap (mem w') v.
Proof.
  unfold settings_are_null, parse_or_keep. intros Hnull Hu Hn Hin.
  destruct (randomization_settings quiz) as [t|]; [|by exists current, w].
  destruct (String.eqb (raw t) ""); [by exists current, w|].
  destruct (parses_to t) as [j|]; [|by exists current, w].
  destruct (materialize_Ok j w) as (v & w' & Hv & Hsub & Hnot & Hu' & Hin').
  exists v, w'. repeat split; try done.
  intros ->. rewrite (Hnot eq_refl) in Hnull. done.
Qed.

Lemma query_flag_Ok param settings field w :
  settings ≠ JUndefined → settings ≠ JNull → in_heap (mem w) settings →
  ∃ x, query_flag param settings field w = Ok x w.
Proof.
  intros. destruct param; [by eexists|]. by apply get_prop_Ok.
Qed.

Lemma query_limit_Ok param settings w :
  settings ≠ JUndefined → settings ≠ JNull → in_heap (mem w) settings →
  ∃ x, query_limit param settings w = Ok x w.
Proof.
  intros. unfold query_limit.
  destruct param as [t|]; [|by apply get_prop_Ok].
  destruct (String.eqb (digits t) ""); [by apply get_prop_Ok|by eexists].
Qed.

(** A [questions] text that does not parse makes the inner [try] throw
    at once. *)
Lemma deliver_unparseable quiz t rq ro ql ps w :
  quiz_questions quiz = QText t → parses_to t = None →
  deliver quiz rq ro ql ps w = Throw SyntaxError w.
Proof.
  intros Hq Ht. unfold deliver, load_questions. by rewrite Hq, Ht.
Qed.

Lemma degraded_Ok quiz ps w :
  ∃ b empty applied w',
    degraded quiz ps w = Ok {| status_code := 200; body := JRef b |} w' ∧
    mem w' !! b = Some (CObj (degraded_body quiz ps (JRef empty) (JRef applied))) ∧
    mem w' !! empty = Some (CArr []) ∧
    mem w' !! applied
      = Some (obj [("questions", JBool false); ("options", JBool false);
                   ("questionLimit", JNull); ("finalQuestionCount", JNum 0)]).
Proof.
  unfold degraded, reply.
  destruct (alloc_Ok (CArr []) w) as (empty & Hempty & _).
  exec Hempty.
  set (w1 := with_mem _ w).
  destruct (alloc_Ok (obj [("questions", JBool false); ("options", JBool false);
                           ("questionLimit", JNull);
                           ("finalQuestionCount", JNum 0)]) w1)
    as (applied & Happlied & Hfresh1).
  exec Happlied.
  set (w2 := with_mem _ w1).
  destruct (alloc_Ok (obj
     [("name", JStr (quiz_name quiz));
      ("description", nullable_str (quiz_description quiz));
      ("questions", JRef empty);
      ("pointsPerQuestion",
       js_or (nullable_num (points_per_question quiz)) (JNum 1));
      ("isCustom", nullable_num (is_custom quiz));
      ("randomizationApplied", JRef applied);
      ("proctoringSettings", ps)]) w2) as (b & Hb & Hfresh2).
  exec Hb.
  eexists b, empty, applied, _.
  split; [done|]. cbn [with_mem mem].
  assert (Hap : mem w2 !! applied = Some (obj [("questions", JBool false);
     ("options", JBool false); ("questionLimit", JNull);
     ("finalQuestionCount", JNum 0)])) by apply lookup_insert_eq.
  assert (Hem : mem w2 !! empty = Some (CArr [])).
  { cbn. rewrite lookup_insert_ne; [apply lookup_insert_eq|].
    intros <-. cbn in Hfresh1. by rewrite lookup_insert_eq in Hfresh1. }
  split; [apply lookup_insert_eq|].
  split; (rewrite lookup_insert_ne; [done|congruence]).
Qed.

End delivery_facts.

(** C8, as the code has it.  When the stored questions are a text that
    does not parse (and the stored randomization settings are not the
    text [null]), the quiz is delivered with status 200, an empty
    question list and a [randomizationApplied] record that reports no
    randomization and a final count of 0; the response has no [hasError]
    field. *)
Theorem get_quiz_unparseable_questions quizzes id query quiz t w :
  quizzes !! id = Some quiz →
  quiz_questions quiz = QText t →
  parses_to t = None →
  settings_are_null quiz = false →
  ∃ b fs empty applied w',
    get_quiz quizzes id query w
      = Ok {| status_code := 200; body := JRef b |} w' ∧
    mem w' !! b = Some (CObj fs) ∧
    fs !! "hasError" = None ∧
    fs !! "questions" = Some (JRef empty) ∧
    mem w' !! empty = Some (CArr []) ∧
    fs !! "name" = Some (JStr (quiz_name quiz)) ∧
    fs !! "randomizationApplied" = Some (JRef applied) ∧
    mem w' !! applied
      = Some (obj [("questions", JBool false); ("options", JBool false);
                   ("questionLimit", JNull); ("finalQuestionCount", JNum 0)]).
Proof.
  intros Hquiz Hq Ht Hnull. unfold get_quiz. rewrite Hquiz.
  destruct (alloc_Ok (obj [("randomizeQuestions", JBool false);
                           ("randomizeOptions", JBool false);
                           ("questionLimit", JNull)]) w) as (rs & Hrs & _).
  set (w1 := with_mem _ w) in Hrs.
  destruct (alloc_Ok (obj [("enabled", JBool false); ("level", JStr "basic");
                           ("strictMode", JBool false)]) w1) as (ps & Hps & Hps1).
  set (w2 := with_mem _ w1) in Hps.
  destruct (parse_or_keep_readable quiz (JRef rs) w2 Hnull)
    as (settings & w3 & Hsettings & Hsub3 & Hu & Hn & Hin); try done.
  { intros l [= <-]. cbn. rewrite lookup_insert_ne; [by rewrite lookup_insert_eq|].
    intros <-. cbn in Hps1. by rewrite lookup_insert_eq in Hps1. }
  destruct (parse_or_keep_Ok (proctoring_settings quiz) (JRef ps) w3)
    as (psettings & w4 & Hpsettings & Hsub4).
  pose proof (in_heap_weaken _ _ _ Hsub4 Hin) as Hin4.
  destruct (query_flag_Ok (randomize_questions query) settings
              "randomizeQuestions" w4 Hu Hn Hin4) as (rq & Hrq).
  destruct (query_flag_Ok (randomize_options query) settings
              "randomizeOptions" w4 Hu Hn Hin4) as (ro & Hro).
  destruct (query_limit_Ok (question_limit query) settings w4 Hu Hn Hin4)
    as (ql & Hql).
  destruct (degraded_Ok quiz psettings w4)
    as (b & empty & applied & w' & Hdeg & Hb & Hempty & Happlied).
  exists b, (degraded_body quiz psettings (JRef empty) (JRef applied)),
    empty, applied, w'.
  split.
  - unfold catch at 1.
    exec Hrs. exec Hps. exec Hsettings. exec Hpsettings.
    exec Hrq. exec Hro. exec Hql.
    unfold catch. by rewrite (deliver_unparseable _ _ _ _ _ _ _ Hq Ht), Hdeg.
  - by repeat split.
Qed.

Lemma get_quiz_unparseable_questions_witness :
  ∃ b fs empty applied w',
    get_quiz {["javascript" := damaged_quiz]} "javascript" no_query empty_world
      = Ok {| status_code := 200; body := JRef b |} w' ∧
    mem w' !! b = Some (CObj fs) ∧
    fs !! "hasError" = None ∧
    fs !! "questions" = Some (JRef empty) ∧
    mem w' !! empty = Some (CArr []) ∧
    fs !! "name" = Some (JStr "JavaScript Basics") ∧
    fs !! "randomizationApplied" = Some (JRef applied) ∧
    mem w' !! applied
      = Some (obj [("questions", JBool false); ("options", JBool false);
                   ("questionLimit", JNull); ("finalQuestionCount", JNum 0)]).
Proof.
  apply (get_quiz_unparseable_questions {["javascript" := damaged_quiz]}
           "javascript" no_query damaged_quiz
           {| raw := "[{question: 'What is"; parses_to := None |} empty_world).
  - by vm_compute.
  - reflexivity.
  - reflexivity.
  - reflexivity.
Defined.

(** C8 fails as stated: the response for a quiz whose questions do not
    parse is a 200 with an empty question list, and it has no [hasError]
    field. *)
Lemma unparseable_questions_without_hasError :
  match get_quiz {["javascript" := damaged_quiz]} "javascript" no_query
          empty_world with
  | Ok resp w' =>
      status_code resp = 200 ∧
      elems_of (mem w') (field_of (mem w') (body resp) "questions") = Some [] ∧
      has_field (mem w') (body resp) "questions" = true ∧
      has_field (mem w') (body resp) "hasError" = false
  | _ => False
  end.
Proof. by vm_compute. Qed.

(** The proviso of the statement above is needed: with the settings text
    [null] and no override in the query, reading a setting throws
    outside the inner [try] and the answer is a 500. *)
Example get_quiz_null_settings :
  match get_quiz {["python" := null_settings_quiz]} "python" no_query
          empty_world with
  | Ok resp w' =>
      status_code resp = 500 ∧
      field_of (mem w') (body resp) "error" = JStr "Failed to fetch quiz"
  | _ => False
  end.
Proof. by vm_compute. Qed.

(** The quiz list does the same for such a quiz: its entry has an empty
    question list and no [hasError] field either. *)
Example list_entry_unparseable_questions :
  match list_entry damaged_quiz empty_world with
  | Ok entry w' =>
      elems_of (mem w') (field_of (mem w') entry "questions") = Some [] ∧
      field_of (mem w') entry "questionCount" = JNum 0 ∧
      has_field (mem w') entry "hasError" = false
  | _ => False
  end.
Proof. by vm_compute. Qed.

(** ** Question buckets: proofs *)

Section bucket_facts.
Implicit Types (db : bank) (rows : list question_row) (d : difficulty).

Lemma sum_case_difficulty d rows :
  foldr Z.add 0%Z (case_difficulty d <$> rows)
  = Z.of_nat (length (filter (λ q, q_difficulty q = d) rows)).
Proof.
  induction rows as [|q rows IH]; [done|].
  cbn [fmap list_fmap foldr]. rewrite IH, filter_cons. unfold case_difficulty.
  destruct (decide (q_difficulty q = d)); cbn [length]; lia.
Qed.

(** Over at least one row the three sums are the three live counts. *)
Lemma sql_sum_case_difficulty d rows :
  rows ≠ [] →
  sql_sum (case_difficulty d <$> rows)
  = Some (Z.of_nat (length (filter (λ q, q_difficulty q = d) rows))).
Proof.
  intros Hrows. unfold sql_sum.
  destruct rows as [|q rows]; [done|].
  cbn [fmap list_fmap]. f_equal.
  apply (sum_case_difficulty d (q :: rows)).
Qed.

Lemma difficulties_partition rows :
  length rows
  = length (filter (λ q, q_difficulty q = easy) rows)
    + length (filter (λ q, q_difficulty q = medium) rows)
    + length (filter (λ q, q_difficulty q = hard) rows).
Proof.
  induction rows as [|q rows IH]; [done|].
  rewrite !filter_cons. cbn [length]. rewrite IH.
  destruct (q_difficulty q);
    repeat (case_decide; try done); cbn [length]; lia.
Qed.

Lemma active_questions_updateBucketCounts b b' db :
  active_questions b (updateBucketCounts b' db) = active_questions b db.
Proof. reflexivity. Qed.

(** [updateBucketCounts] leaves the bucket recounted. *)
Lemma updateBucketCounts_counts b db r :
  question_buckets db !! b = Some r →
  ∃ r', question_buckets (updateBucketCounts b db) !! b = Some r' ∧
        recounted b (updateBucketCounts b db) r'.
Proof.
  intros Hr. eexists. split.
  { unfold updateBucketCounts. cbn. rewrite lookup_alter_eq, Hr. done. }
  unfold recounted. rewrite active_questions_updateBucketCounts.
  cbn. split; [done|]. unfold live_count.
  rewrite !active_questions_updateBucketCounts.
  destruct (active_questions b db) as [|q rows] eqn:Hrows; [done|].
  rewrite !sql_sum_case_difficulty by done.
  repeat split. unfold sql_count.
  rewrite (difficulties_partition (q :: rows)). lia.
Qed.

(** Adding a question: the bucket is recounted and, the new question
    being active, its counters are the live counts. *)
Lemma add_question_recounts int_column b body db :
  (add_question int_column b body db).1 = 200 →
  ∃ r', question_buckets (add_question int_column b body db).2 !! b = Some r' ∧
        recounted b (add_question int_column b body db).2 r' ∧
        active_questions b (add_question int_column b body db).2 ≠ [].
Proof.
  unfold add_question.
  destruct (aq_question_text body) as [text|]; [|done].
  destruct (String.eqb (trim text) ""); [done|].
  destruct (aq_options body) as [opts|]; [|done].
  destruct (length opts <? 2); [done|].
  destruct (aq_correct_answer body) as [c|]; [|done].
  destruct (_ || _); [done|].
  destruct (aq_difficulty body ≫= parse_difficulty) as [d|]; [|done].
  destruct (trimmed_explanation (aq_explanation body)) as [expl|]; [|done].
  destruct (question_buckets db !! b) as [r|] eqn:Hr; [|done].
  destruct (int_column c) as [index|]; [|done].
  destruct (stored_points int_column (aq_points body)) as [pts|]; [|done].
  intros _. cbn [fst snd].
  match goal with |- context [updateBucketCounts b ?db1] =>
    destruct (updateBucketCounts_counts b db1 r Hr) as (r' & Hr' & Hrec)
  end.
  exists r'. split; [done|]. split; [done|].
  rewrite active_questions_updateBucketCounts. unfold active_questions. cbn.
  match goal with |- filter _ (?l.*2) ≠ [] =>
    set (rows := l.*2)
  end.
  match goal with rows := (map_to_list (<[_ := ?row]> _)).*2 |- _ =>
    assert (Hin : row ∈ filter (active_in b) rows)
  end.
  { apply list_elem_of_filter. split; [done|].
    apply list_elem_of_fmap. eexists (_, _). split; [done|].
    apply elem_of_map_to_list, lookup_insert_eq. }
  intros Hnil. rewrite Hnil in Hin. by apply elem_of_nil in Hin.
Qed.

(** Updating or deleting a question recounts its bucket; when that
    leaves the bucket without an active question the three counters
    are NULL. *)
Lemma update_question_recounts id body db q r :
  questions db !! id = Some q →
  question_buckets db !! bucket_id q = Some r →
  (update_question id body db).1 = 200 →
  ∃ r', question_buckets (update_question id body db).2 !! bucket_id q = Some r' ∧
        recounted (bucket_id q) (update_question id body db).2 r'.
Proof.
  intros Hq Hr. unfold update_question.
  destruct (uq_question_text body); [|done].
  destruct (uq_options body); [|done].
  destruct (uq_correct_answer body); [|done].
  destruct (uq_difficulty body) as [dtext|]; [|done].
  destruct (uq_is_active body); [|done].
  rewrite Hq. destruct (parse_difficulty dtext); [|done].
  intros _. cbn [fst snd]. by apply (updateBucketCounts_counts _ _ r).
Qed.

Lemma delete_question_recounts id db q r :
  questions db !! id = Some q →
  question_buckets db !! bucket_id q = Some r →
  (delete_question id db).1 = 200 ∧
  ∃ r', question_buckets (delete_question id db).2 !! bucket_id q = Some r' ∧
        recounted (bucket_id q) (delete_question id db).2 r'.
Proof.
  intros Hq Hr. unfold delete_question. rewrite Hq. split; [done|].
  cbn [fst snd]. by apply (updateBucketCounts_counts _ _ r).
Qed.

(** The compose handler answers the same whatever questions the bank
    holds: it only checks that the bucket exists. *)
Lemma create_from_bucket_blind body st qs' n' :
  (create_from_bucket body
     {| qs_bank := {| question_buckets := question_buckets (qs_bank st);
                      questions := qs';
                      next_question_id := n' |};
        qs_quizzes := qs_quizzes st;
        quiz_bucket_mappings := quiz_bucket_mappings st |}).1
  = (create_from_bucket body st).1.
Proof.
  unfold create_from_bucket. cbn.
  destruct (normalize_all _); [|done].
  destruct (fb_quizId body), (fb_quizName body), (fb_description body); try done.
  destruct (qs_quizzes st !! _); [done|].
  destruct (fb_bucketId body), (fb_easyCount body), (fb_mediumCount body),
    (fb_hardCount body), (fb_totalQuestions body); try done.
  by destruct (question_buckets (qs_bank st) !! _).
Qed.

End bucket_facts.

(** C9, at its failing input.  Deleting the only question of a bucket
    succeeds and recounts the bucket, and the recount stores a total of 0
    with NULL in [easy_count], [medium_count] and [hard_count]: the sums
    are taken over no rows.  The live counts are all 0. *)
Theorem delete_last_question_nulls_counts :
  let out := delete_question 1 one_question_bank in
  out.1 = 200 ∧
  active_questions 1 out.2 = [] ∧
  (total_questions <$> question_buckets out.2 !! 1) = Some (Some 0%Z) ∧
  (easy_count <$> question_buckets out.2 !! 1) = Some None ∧
  (medium_count <$> question_buckets out.2 !! 1) = Some None ∧
  (hard_count <$> question_buckets out.2 !! 1) = Some None ∧
  live_count easy 1 out.2 = 0%Z.
Proof. by vm_compute. Qed.

(** The same happens when an update switches off the only active question
    of a bucket. *)
Example deactivate_last_question_nulls_counts :
  let out := update_question 1 (switch_off an_easy_question) one_question_bank in
  out.1 = 200 ∧
  (total_questions <$> question_buckets out.2 !! 1) = Some (Some 0%Z) ∧
  (easy_count <$> question_buckets out.2 !! 1) = Some None.
Proof. by vm_compute. Qed.

(** With a second question in the bucket the recount after a delete
    stores the live counts. *)
Example delete_one_of_two_questions :
  let out := delete_question 1 two_easy_bank in
  out.1 = 200 ∧
  (total_questions <$> question_buckets out.2 !! 1) = Some (Some 1%Z) ∧
  (easy_count <$> question_buckets out.2 !! 1) = Some (Some 1%Z) ∧
  (medium_count <$> question_buckets out.2 !! 1) = Some (Some 0%Z) ∧
  (hard_count <$> question_buckets out.2 !! 1) = Some (Some 0%Z).
Proof. by vm_compute. Qed.

(** C6, at its failing input.  The bucket holds two easy questions and
    the request asks for five: the handler does not look into the
    bucket, answers that the quiz was created from the two questions
    that the request carried, stores them and records the quota of
    five. *)
Theorem create_from_bucket_ignores_quota :
  let out := create_from_bucket five_easy_request two_easy_store in
  live_count easy 1 two_easy_bank = 2%Z ∧
  out.1 = Created "js-easy" 2 ∧
  (length ∘ cq_questions <$> qs_quizzes out.2 !! "js-easy") = Some 2 ∧
  (mp_easy_count <$> quiz_bucket_mappings out.2) = [5%Z].
Proof. by vm_compute. Qed.

(** ** Proctoring sessions: life cycle, listing and statistics *)

Section lifecycle_facts.
Implicit Types (m : manager) (sid : string) (now : nat).

Lemma status_of_reason_ended reason :
  status_of_reason reason = completed ∨ status_of_reason reason = terminated.
Proof. unfold status_of_reason. case_decide; auto. Qed.

Lemma lifecycle_new : lifecycle (new_manager empty_database).
Proof. split; cbn; intros ? ?; by rewrite lookup_empty. Qed.

Lemma lifecycle_restart m : lifecycle m → lifecycle (restart m).
Proof.
  intros [H1 H2 H3]. split; cbn; [exact H1|exact H2|].
  intros ? ?. by rewrite lookup_empty.
Qed.

Lemma lifecycle_startSession now sd m :
  lifecycle m → lifecycle (startSession now sd m).2.
Proof.
  intros [H1 H2 H3]. unfold startSession.
  destruct (userName sd); [|by split].
  destruct (proctoring_sessions (pool m) !! sessionId sd); [by split|].
  split; cbn.
  - intros sid row. rewrite lookup_insert. case_decide; [|apply H1].
    by intros [= <-].
  - intros sid row. rewrite lookup_insert. case_decide; [|apply H2].
    by intros [= <-].
  - intros sid entry. rewrite lookup_insert. case_decide; [|apply H3].
    intros [= <-] _. cbn. lia.
Qed.

Lemma lifecycle_endSession_except now sid reason m :
  (∀ sid' row, proctoring_sessions (pool m) !! sid' = Some row →
     status row ≠ paused ∧ (status row = active ↔ end_time row = None)) →
  (∀ sid' s, sid' ≠ sid → activeSessions m !! sid' = Some s →
     cached_strict s = true → length (violations s) < 3) →
  lifecycle (endSession now sid reason m).2.
Proof.
  intros Hrows Hcache. unfold endSession.
  assert (Hnew : ∀ sid' row',
    alter (end_row now (status_of_reason (default_param (JStr "completed") reason)))
      sid (proctoring_sessions (pool m)) !! sid' = Some row' →
    status row' ≠ paused ∧ (status row' = active ↔ end_time row' = None)).
  { intros sid' row'. rewrite lookup_alter. case_decide; [|apply Hrows].
    subst sid'. destruct (proctoring_sessions (pool m) !! sid); [|done].
    intros [= <-]. cbn.
    by destruct (status_of_reason_ended (default_param (JStr "completed") reason))
      as [-> | ->]. }
  split; cbn.
  - intros sid' row' Hrow'. by apply (Hnew sid' row').
  - intros sid' row' Hrow'. by apply (Hnew sid' row').
  - intros sid' s. rewrite lookup_delete. case_decide; [done|].
    by apply Hcache.
Qed.

Lemma lifecycle_endSession now sid reason m :
  lifecycle m → lifecycle (endSession now sid reason m).2.
Proof.
  intros [H1 H2 H3]. apply lifecycle_endSession_except.
  - intros sid' row Hrow. split; [by eapply H1|by eapply H2].
  - intros sid' s _. apply H3.
Qed.

Lemma lifecycle_logViolation now sid vd m :
  lifecycle m → lifecycle (logViolation now sid vd m).2.
Proof.
  intros [H1 H2 H3]. unfold logViolation.
  destruct (proctoring_sessions (pool m) !! sid) as [row|] eqn:Hrow; [|by split].
  assert (Hrows : ∀ sid' row',
    alter (count_row now) sid (proctoring_sessions (pool m)) !! sid' = Some row' →
    status row' ≠ paused ∧ (status row' = active ↔ end_time row' = None)).
  { intros sid' row'. rewrite lookup_alter. case_decide.
    - subst sid'. rewrite Hrow. intros [= <-]. cbn.
      split; [by eapply H1|by eapply H2].
    - intros Hrow'. split; [by eapply H1|by eapply H2]. }
  destruct (activeSessions m !! sid) as [session|] eqn:Hs.
  - match goal with |- lifecycle (_, ?x).2 => change (lifecycle x) end.
    destruct (cached_strict _ && _) eqn:Hcond.
    + unfold terminateSession. apply lifecycle_endSession_except.
      * exact Hrows.
      * intros sid' s Hne. cbn. rewrite lookup_insert_ne by done. apply H3.
    + split; cbn.
      * intros sid' row' Hrow'. by apply (Hrows sid' row').
      * intros sid' row' Hrow'. by apply (Hrows sid' row').
      * intros sid' s. rewrite lookup_insert. case_decide; [|apply H3].
        intros [= <-] Hstrict. rewrite Hstrict in Hcond.
        rewrite andb_true_l in Hcond. by apply Nat.leb_gt in Hcond.
  - match goal with |- lifecycle (_, ?x).2 => change (lifecycle x) end.
    split; cbn; [| |exact H3].
    + intros sid' row' Hrow'. by apply (Hrows sid' row').
    + intros sid' row' Hrow'. by apply (Hrows sid' row').
Qed.

Lemma lifecycle_step now e m : lifecycle m → lifecycle (step now e m).
Proof.
  destruct e; unfold step.
  - by apply lifecycle_startSession.
  - by apply lifecycle_logViolation.
  - by apply lifecycle_endSession.
  - by apply lifecycle_restart.
Qed.

Lemma reachable_lifecycle m : reachable m → lifecycle m.
Proof.
  revert m. apply reachable_invariant.
  - apply lifecycle_new.
  - intros. by apply lifecycle_step.
  - intros now e m other Hm [_ _ H3].
    destruct (lifecycle_step now e m Hm) as [H1' H2' _].
    split; [exact H1'|exact H2'|exact H3].
Qed.

(** No operation removes or rewrites a violation row. *)
Lemma step_appends now e m :
  proctoring_violations (pool m)
    `prefix_of` proctoring_violations (pool (step now e m)).
Proof.
  destruct e as [sd|sid vd|sid reason|]; cbn; try done.
  - unfold startSession. destruct (userName sd); [|done].
    by destruct (proctoring_sessions (pool m) !! sessionId sd).
  - destruct (proctoring_sessions (pool m) !! sid) as [row|] eqn:Hrow.
    + rewrite (logViolation_appends _ _ _ _ _ Hrow). by apply prefix_app_r.
    + unfold logViolation. by rewrite Hrow.
Qed.

End lifecycle_facts.

(** X1. In every state that the manager can reach no session has the
    status [paused]: sessions are created [active] and the only other
    statuses written are [completed] and [terminated]. *)
Theorem paused_is_never_reached m sid row :
  reachable m →
  proctoring_sessions (pool m) !! sid = Some row →
  status row = active ∨ status row = completed ∨ status row = terminated.
Proof.
  intros Hm Hrow. pose proof (never_paused _ (reachable_lifecycle _ Hm) _ _ Hrow).
  destruct (status row); auto. done.
Qed.

Lemma paused_is_never_reached_witness :
  let m := run [(1, EvStart strict_start); (10, EvEnd "s1" (JStr "timeout"))]
               (new_manager empty_database) in
  ∃ row, proctoring_sessions (pool m) !! "s1" = Some row ∧
         (status row = active ∨ status row = completed ∨ status row = terminated).
Proof.
  intros m.
  destruct (proctoring_sessions (pool m) !! "s1") as [row|] eqn:Hrow;
    [|by vm_compute in Hrow].
  exists row. split; [done|].
  apply (paused_is_never_reached m "s1" row); [|done].
  apply run_reachable, reachable_init.
Defined.

(** X2. In every reachable state a session is [active] exactly when its
    [end_time] is still NULL: the end time is written together with the
    status that ends the session, and by nothing else. *)
Theorem active_iff_no_end_time m sid row :
  reachable m →
  proctoring_sessions (pool m) !! sid = Some row →
  (status row = active ↔ end_time row = None).
Proof.
  intros Hm Hrow. by eapply (active_is_open _ (reachable_lifecycle _ Hm)).
Qed.

Lemma active_iff_no_end_time_witness :
  let m := run [(1, EvStart strict_start);
                (2, EvLog "s1" (a_violation tab_switch))]
               (new_manager empty_database) in
  ∃ row, proctoring_sessions (pool m) !! "s1" = Some row ∧
         (status row = active ↔ end_time row = None).
Proof.
  intros m.
  destruct (proctoring_sessions (pool m) !! "s1") as [row|] eqn:Hrow;
    [|by vm_compute in Hrow].
  exists row. split; [done|].
  apply (active_iff_no_end_time m "s1" row); [|done].
  apply run_reachable, reachable_init.
Defined.

(** X3. In every state that a process of the cluster can see, the
    entry of a strict-mode session in the map of the process holds at
    most two violations (the call that puts the third one there removes
    the entry), and the session has a row, in strict mode, whose counter
    is not below the number of violations in the entry.  The counter
    can be above it: other processes record violations of the session
    without this map. *)
Theorem strict_entry_below_threshold m sid s :
  reachable m →
  activeSessions m !! sid = Some s →
  strictMode (data s) = Some true →
  length (violations s) ≤ 2 ∧
  ∃ row, proctoring_sessions (pool m) !! sid = Some row ∧
         strict_mode row = true ∧
         length (violations s) ≤ violation_count row.
Proof.
  intros Hm Hs Hstrict.
  assert (Hcached : cached_strict s = true).
  { unfold cached_strict. by rewrite Hstrict. }
  assert (Hlen : length (violations s) < 3).
  { by apply (strict_below_three _ (reachable_lifecycle _ Hm) _ _ Hs). }
  split; [lia|].
  destruct (cache_has_row _ (reachable_consistent _ Hm) _ _ Hs)
    as (row & Hrow & Hcnt & Hsm).
  exists row. split; [done|]. split; [congruence|done].
Qed.

Lemma strict_entry_below_threshold_witness :
  let m := run [(1, EvStart strict_start);
                (2, EvLog "s1" (a_violation tab_switch));
                (3, EvLog "s1" (a_violation no_face))]
               (new_manager empty_database) in
  ∃ s, activeSessions m !! "s1" = Some s ∧ length (violations s) ≤ 2.
Proof.
  intros m.
  destruct (activeSessions m !! "s1") as [s|] eqn:Hs; [|by vm_compute in Hs].
  exists s. split; [done|].
  refine (proj1 (strict_entry_below_threshold m "s1" s _ Hs _)).
  - apply run_reachable, reachable_init.
  - vm_compute in Hs. by injection Hs as <-.
Defined.

(** X4. The violation log is append-only: after any sequence of
    requests and restarts the violations stored before are still there,
    unchanged and in the same order, at the front of the table. *)
Theorem violations_are_append_only evs m :
  proctoring_violations (pool m)
    `prefix_of` proctoring_violations (pool (run evs m)).
Proof.
  revert m. induction evs as [|[now e] evs IH]; intros m; [done|].
  cbn. etrans; [apply (step_appends now e)|apply IH].
Qed.

(** The same holds with the calls spread over the processes of the
    cluster. *)
Lemma violations_are_append_only_in_cluster evs c :
  proctoring_violations (shared c)
    `prefix_of` proctoring_violations (shared (cluster_run evs c)).
Proof.
  revert c. induction evs as [|[[now k] e] evs IH]; intros c; [done|].
  cbn. etrans; [|apply IH]. apply (step_appends now e (worker_view k c)).
Qed.

Section identity_facts.
Implicit Types (m : manager) (sid : string) (now : nat).

(** The columns of a session that no statement of the module writes
    after the INSERT. *)
Lemma step_keeps_identity now e m sid row :
  proctoring_sessions (pool m) !! sid = Some row →
  ∃ row', proctoring_sessions (pool (step now e m)) !! sid = Some row' ∧
          user_email row' = user_email row ∧ user_name row' = user_name row ∧
          assessment_id row' = assessment_id row ∧ level row' = level row ∧
          start_time row' = start_time row ∧
          strict_mode row' = strict_mode row ∧ settings row' = settings row.
Proof.
  intros Hrow. destruct e as [sd|sid' vd|sid' reason|]; cbn.
  - unfold startSession. destruct (userName sd); [|by exists row].
    destruct (proctoring_sessions (pool m) !! sessionId sd) eqn:Hsd;
      [by exists row|].
    exists row. cbn. rewrite lookup_insert_ne; [done|]. congruence.
  - unfold logViolation.
    destruct (proctoring_sessions (pool m) !! sid') eqn:Hsid'; [|by exists row].
    assert (Hafter : ∃ row',
      alter (count_row now) sid' (proctoring_sessions (pool m)) !! sid = Some row' ∧
      user_email row' = user_email row ∧ user_name row' = user_name row ∧
      assessment_id row' = assessment_id row ∧ level row' = level row ∧
      start_time row' = start_time row ∧
      strict_mode row' = strict_mode row ∧ settings row' = settings row).
    { rewrite lookup_alter. case_decide.
      - subst sid'. rewrite Hrow. by eexists.
      - by exists row. }
    destruct (activeSessions m !! sid'); [|exact Hafter].
    match goal with |- context [(_, ?x).2] => change (_, x).2 with x end.
    destruct (cached_strict _ && _); [|exact Hafter].
    destruct Hafter as (row1 & Hrow1 & Heqs).
    unfold terminateSession, endSession. cbn.
    rewrite lookup_alter. case_decide.
    + subst sid'. rewrite Hrow1. eexists. split; [done|]. exact Heqs.
    + exists row1. by split.
  - rewrite lookup_alter. case_decide.
    + subst sid'. rewrite Hrow. by eexists.
    + by exists row.
  - by exists row.
Qed.

End identity_facts.

(** X5. Starting a session under an id that has no row, with a user
    name, registers it: the call answers success with the id,
    [getSession] answers, whatever the driver does with JSON columns,
    with the new active row and no violation, the
    in-memory map holds the entry, the other sessions are as they were,
    and a further start under the same id is rejected as a duplicate and
    changes nothing. *)
Theorem startSession_registers parses now sd uname m :
  reachable m →
  userName sd = Some uname →
  proctoring_sessions (pool m) !! sessionId sd = None →
  let m' := (startSession now sd m).2 in
  (startSession now sd m).1
    = Resolved {| st_success := true; st_sessionId := sessionId sd |} ∧
  getSession parses (sessionId sd) m'
    = Resolved (Some {| sv_row := started_row now sd uname;
                        total_violations := 0; sv_violations := [] |}) ∧
  activeSessions m' !! sessionId sd = Some (started_entry now sd) ∧
  (∀ sid, sid ≠ sessionId sd →
     getSession parses sid m' = getSession parses sid m ∧
     activeSessions m' !! sid = activeSessions m !! sid) ∧
  (∀ now' sd', sessionId sd' = sessionId sd → is_Some (userName sd') →
     startSession now' sd' m' = (Rejected ER_DUP_ENTRY, m')).
Proof.
  intros Hm Hname Hfresh m'.
  pose proof (rows_have_session _ (reachable_consistent _ Hm) _ Hfresh) as Hnone.
  subst m'. unfold startSession. rewrite Hname, Hfresh. cbn.
  split; [done|]. split; [|split; [|split]].
  - unfold getSession. cbn. rewrite lookup_insert_eq.
    unfold violations_of in Hnone. by rewrite Hnone.
  - by rewrite lookup_insert_eq.
  - intros sid Hne. unfold getSession. cbn.
    by rewrite !lookup_insert_ne.
  - intros now' sd' Hid [uname' Hname']. rewrite Hname', Hid. cbn.
    by rewrite lookup_insert_eq.
Qed.

Lemma startSession_registers_witness :
  getSession (λ _, false) "s1"
    (startSession 1 strict_start (new_manager empty_database)).2
  = Resolved (Some {| sv_row := started_row 1 strict_start "Ana";
                      total_violations := 0; sv_violations := [] |}).
Proof.
  refine (proj1 (proj2
    (startSession_registers (λ _, false) 1 strict_start "Ana"
       (new_manager empty_database) reachable_init _ _))); reflexivity.
Defined.

(** X6. A session id is never reused and the columns written at the
    start never change: after any sequence of requests and restarts the
    row of a session still exists with the same user, assessment, level,
    start time, strict mode and settings, and a start under its id is
    still rejected as a duplicate. *)
Theorem session_identity_is_kept evs m sid row :
  proctoring_sessions (pool m) !! sid = Some row →
  (∃ row', proctoring_sessions (pool (run evs m)) !! sid = Some row' ∧
           user_email row' = user_email row ∧ user_name row' = user_name row ∧
           assessment_id row' = assessment_id row ∧ level row' = level row ∧
           start_time row' = start_time row ∧
           strict_mode row' = strict_mode row ∧ settings row' = settings row) ∧
  (∀ now sd, sessionId sd = sid → is_Some (userName sd) →
     startSession now sd (run evs m) = (Rejected ER_DUP_ENTRY, run evs m)).
Proof.
  intros Hrow.
  assert (Hkept : ∃ row', proctoring_sessions (pool (run evs m)) !! sid = Some row' ∧
           user_email row' = user_email row ∧ user_name row' = user_name row ∧
           assessment_id row' = assessment_id row ∧ level row' = level row ∧
           start_time row' = start_time row ∧
           strict_mode row' = strict_mode row ∧ settings row' = settings row).
  { revert m row Hrow. induction evs as [|[now e] evs IH]; intros m row Hrow.
    - by exists row.
    - cbn.
      destruct (step_keeps_identity now e m sid row Hrow)
        as (row1 & Hrow1 & H1 & H2 & H3 & H4 & H5 & H6 & H7).
      destruct (IH _ _ Hrow1) as (row2 & Hrow2 & G1 & G2 & G3 & G4 & G5 & G6 & G7).
      exists row2. split; [done|]. repeat split; congruence. }
  split; [exact Hkept|].
  intros now sd Hid [uname Hname]. destruct Hkept as (row' & Hrow' & _).
  unfold startSession. by rewrite Hname, Hid, Hrow'.
Qed.

Lemma session_identity_is_kept_witness :
  let m := (startSession 1 strict_start (new_manager empty_database)).2 in
  let evs := [(2, EvLog "s1" (a_violation tab_switch));
              (3, EvEnd "s1" (JStr "completed")); (4, EvRestart)] in
  startSession 5 strict_start (run evs m) = (Rejected ER_DUP_ENTRY, run evs m).
Proof.
  intros m evs.
  refine (proj2 (session_identity_is_kept evs m "s1"
                   (started_row 1 strict_start "Ana") _) 5 strict_start _ _).
  - reflexivity.
  - reflexivity.
  - by eexists.
Defined.

Section listing_facts.
Implicit Types (m : manager) (sid : string) (now : nat).

Lemma StronglySorted_take {A} (R : relation A) n (l : list A) :
  StronglySorted R l → StronglySorted R (take n l).
Proof.
  intros Hl. rewrite <-(take_drop n l) in Hl.
  by apply StronglySorted_app_1_l in Hl.
Qed.

Lemma elem_of_selected same fl m kv :
  kv ∈ selected same fl m ↔
  proctoring_sessions (pool m) !! kv.1 = Some kv.2 ∧
  matches_filters same fl kv.2 = true.
Proof.
  unfold selected. rewrite merge_sort_Permutation, list_elem_of_filter.
  destruct kv as [sid row]. rewrite elem_of_map_to_list. cbn. tauto.
Qed.

Lemma NoDup_selected same fl m : NoDup (selected same fl m).*1.
Proof.
  unfold selected. rewrite merge_sort_Permutation.
  apply (sublist_NoDup _ (map_to_list (proctoring_sessions (pool m))).*1).
  - apply NoDup_fst_map_to_list.
  - apply fmap_sublist, sublist_filter.
Qed.

Lemma getSessions_elem same fl m e :
  e ∈ query_sessions same fl m →
  ∃ kv, kv ∈ take 100 (selected same fl m) ∧
        listed_id e = kv.1 ∧ listed_row e = kv.2 ∧
        listed_violations e = length (violations_of kv.1 (pool m)).
Proof.
  unfold query_sessions. rewrite list_elem_of_fmap. intros (kv & -> & Hkv).
  by exists kv.
Qed.

(** Sums over the groups of a GROUP BY. *)
Lemma sum_groups (groups : list (violation_type * nat)) :
  foldr (λ tc sum, sum + tc.2) 0 groups = sum_list_with snd groups.
Proof. induction groups as [|tc l IH]; cbn; [done|]. rewrite IH. lia. Qed.

Lemma sum_positive_groups (groups : list (violation_type * nat)) :
  sum_list_with snd (filter (λ tc, 0 < tc.2) groups) = sum_list_with snd groups.
Proof.
  induction groups as [|tc l IH]; [done|].
  rewrite filter_cons. case_decide; cbn; rewrite IH; lia.
Qed.

Lemma sum_by_type (vs : list violation_row) :
  sum_list_with snd
    ((λ t, (t, length (filter (λ v, v_type v = t) vs))) <$> all_violation_types)
  = length vs.
Proof.
  induction vs as [|v vs IH]; [done|]. cbn [length]. rewrite <-IH.
  unfold all_violation_types. cbn [fmap list_fmap sum_list_with snd].
  rewrite !filter_cons.
  destruct (v_type v); repeat case_decide; try done; cbn [length]; lia.
Qed.

Lemma by_type_total vs :
  foldr (λ tc sum, sum + tc.2) 0 (by_type vs) = length vs.
Proof.
  rewrite sum_groups. unfold by_type.
  by rewrite merge_sort_Permutation, sum_positive_groups, sum_by_type.
Qed.

(** The join of the violations with a set of sessions, counted by
    session. *)
Lemma count_joined (w : session_row → bool) (sessions : gmap string session_row)
    (vs : list violation_row) :
  length (filter (λ v, from_option w false (sessions !! session_id v) = true) vs)
  = sum_list_with (λ kv, length (filter (λ v, session_id v = kv.1) vs))
      (filter (λ kv, w kv.2 = true) (map_to_list sessions)).
Proof.
  induction sessions as [|sid row sessions Hfresh IH] using map_ind.
  - rewrite map_to_list_empty. cbn.
    induction vs as [|v vs IHvs]; [done|].
    rewrite filter_cons, lookup_empty. cbn. by case_decide.
  - rewrite map_to_list_insert by done. rewrite filter_cons. cbn [snd].
    assert (Hsplit :
      length (filter (λ v, from_option w false
                 (<[sid:=row]> sessions !! session_id v) = true) vs)
      = (if w row then length (filter (λ v, session_id v = sid) vs) else 0)
        + length (filter (λ v, from_option w false
                     (sessions !! session_id v) = true) vs)).
    { clear IH. induction vs as [|v vs IHvs]; [by destruct (w row)|].
      rewrite !filter_cons.
      destruct (decide (session_id v = sid)) as [Heq|Hne].
      - rewrite Heq, lookup_insert_eq, Hfresh. cbn [from_option].
        destruct (w row); repeat case_decide; try done; cbn [length];
          rewrite ?IHvs; lia.
      - rewrite lookup_insert_ne by done.
        case_decide; cbn [length]; rewrite IHvs; destruct (w row); lia. }
    rewrite Hsplit, IH. destruct (w row); case_decide; try done.
Qed.

Lemma sum_counters (w : session_row → bool) m :
  consistent m →
  sum_list_with violation_count
    (filter (λ r, w r = true) (map_to_list (proctoring_sessions (pool m))).*2)
  = sum_list_with (λ kv, length (violations_of kv.1 (pool m)))
      (filter (λ kv, w kv.2 = true) (map_to_list (proctoring_sessions (pool m)))).
Proof.
  intros Hm.
  assert (Hall : Forall (λ kv, violation_count kv.2
                               = length (violations_of kv.1 (pool m)))
                   (map_to_list (proctoring_sessions (pool m)))).
  { apply Forall_forall. intros [sid row] Hin. cbn.
    apply elem_of_map_to_list in Hin. by apply (count_is_rows _ Hm). }
  induction Hall as [|kv l Hkv _ IH]; [done|].
  rewrite fmap_cons, !filter_cons. repeat case_decide; try done; cbn.
  - by rewrite Hkv, IH.
Qed.

Lemma count_where_le p rows : count_where p rows ≤ length rows.
Proof. apply length_filter. Qed.

Lemma count_by_status (rows : list session_row) :
  Forall (λ r, status r ≠ paused) rows →
  length rows = count_where (has_status active) rows
              + count_where (has_status completed) rows
              + count_where (has_status terminated) rows.
Proof.
  unfold count_where, has_status.
  induction 1 as [|r rows Hr _ IH]; [done|].
  rewrite !filter_cons. cbn [length]. rewrite IH.
  destruct (status r) eqn:Hst; try done;
    repeat case_decide; try done; cbn [length]; try lia;
    repeat match goal with
    | H : bool_decide _ = true |- _ => apply bool_decide_eq_true in H
    | H : ¬ (bool_decide _ = true) |- _ => rewrite bool_decide_eq_true in H
    end; congruence.
Qed.

End listing_facts.

(** The rows of the query of [getSessions]. *)
Lemma query_sessions_listing same fl m :
  let answer := query_sessions same fl m in
  length answer ≤ 100 ∧
  NoDup (listed_id <$> answer) ∧
  Sorted listed_newer_first answer ∧
  (∀ e, e ∈ answer →
     proctoring_sessions (pool m) !! listed_id e = Some (listed_row e) ∧
     matches_filters same fl (listed_row e) = true ∧
     listed_violations e = length (violations_of (listed_id e) (pool m))) ∧
  (∀ sid row,
     proctoring_sessions (pool m) !! sid = Some row →
     matches_filters same fl row = true →
     (∃ e, e ∈ answer ∧ listed_id e = sid ∧ listed_row e = row) ∨
     (length answer = 100 ∧
      ∀ e, e ∈ answer → start_time row ≤ start_time (listed_row e))).
Proof.
  intros answer. subst answer.
  pose proof (StronglySorted_merge_sort newer_first
    (filter (λ kv, matches_filters same fl kv.2 = true)
            (map_to_list (proctoring_sessions (pool m))))) as Hsorted.
  change (StronglySorted newer_first (selected same fl m)) in Hsorted.
  split; [|split; [|split; [|split]]].
  - unfold query_sessions. rewrite length_fmap, length_take. lia.
  - unfold query_sessions. rewrite <-list_fmap_compose.
    change (NoDup (take 100 (selected same fl m)).*1).
    rewrite fmap_take.
    apply (sublist_NoDup _ (selected same fl m).*1);
      [apply NoDup_selected|apply sublist_take].
  - unfold query_sessions.
    apply (Sorted_fmap _ newer_first listed_newer_first); [done|].
    apply StronglySorted_Sorted, StronglySorted_take, Hsorted.
  - intros e He. apply getSessions_elem in He as (kv & Hkv & -> & -> & ->).
    apply subseteq_take, elem_of_selected in Hkv as [Hrow Hmatch]. done.
  - intros sid row Hrow Hmatch.
    assert (Hin : (sid, row) ∈ selected same fl m)
      by by apply elem_of_selected.
    rewrite <-(take_drop 100 (selected same fl m)) in Hin, Hsorted.
    apply elem_of_app in Hin as [Hin|Hin].
    + left. eexists. split.
      * unfold query_sessions. apply list_elem_of_fmap. by eexists.
      * done.
    + right. split.
      * unfold query_sessions. rewrite length_fmap, length_take.
        apply list_elem_of_lookup in Hin as [i Hi].
        apply lookup_lt_Some in Hi. rewrite length_drop in Hi. lia.
      * intros e He. apply getSessions_elem in He as (kv & Hkv & _ & -> & _).
        apply (StronglySorted_app_1_elem_of _ _ _ _ _ Hsorted Hkv Hin).
Qed.


(** X7. When [getSessions] answers, the answer has at most 100
    sessions, each of them a stored session that passes every filter
    given, no session twice, ordered by start time with the newest
    first, and the settings of each could be parsed; a stored session
    that passes the filters and is not in the answer was cut off by the
    limit: the answer then has 100 sessions and none of them started
    before it.  When [getSessions] rejects, it is with the error of
    [JSON.parse], and a stored session that passes the filters has
    settings that cannot be parsed from what the driver hands over. *)
Theorem getSessions_listing parses same fl m :
  match getSessions parses same fl m with
  | Resolved answer =>
      Forall (λ e, parses (settings (listed_row e)) = true) answer ∧
      length answer ≤ 100 ∧
      NoDup (listed_id <$> answer) ∧
      Sorted listed_newer_first answer ∧
      (∀ e, e ∈ answer →
         proctoring_sessions (pool m) !! listed_id e = Some (listed_row e) ∧
         matches_filters same fl (listed_row e) = true ∧
         listed_violations e = length (violations_of (listed_id e) (pool m))) ∧
      (∀ sid row,
         proctoring_sessions (pool m) !! sid = Some row →
         matches_filters same fl row = true →
         (∃ e, e ∈ answer ∧ listed_id e = sid ∧ listed_row e = row) ∨
         (length answer = 100 ∧
          ∀ e, e ∈ answer → start_time row ≤ start_time (listed_row e)))
  | Rejected err =>
      err = JSON_SYNTAX_ERROR ∧
      ∃ sid row, proctoring_sessions (pool m) !! sid = Some row ∧
                 matches_filters same fl row = true ∧
                 parses (settings row) = false
  end.
Proof.
  unfold getSessions.
  destruct (forallb _ (query_sessions same fl m)) eqn:Hparse.
  - split; [by apply forallb_true_Forall|]. apply query_sessions_listing.
  - split; [done|].
    apply forallb_false_elem in Hparse as (e & He & Hfalse).
    destruct (proj1 (proj2 (proj2 (proj2 (query_sessions_listing same fl m))))
                e He) as (Hrow & Hmatch & _).
    by exists (listed_id e), (listed_row e).
Qed.

(** X8. In every reachable state the count that the query of
    [getSessions] joins to a session ([total_violations]) is the
    session's [violation_count] column; so it is in every answer of
    [getSessions]. *)
Theorem getSessions_counts_agree same fl m e :
  reachable m →
  (e ∈ query_sessions same fl m →
   listed_violations e = violation_count (listed_row e)) ∧
  (∀ parses answer,
     getSessions parses same fl m = Resolved answer → e ∈ answer →
     listed_violations e = violation_count (listed_row e)).
Proof.
  intros Hm.
  assert (Hquery : e ∈ query_sessions same fl m →
                   listed_violations e = violation_count (listed_row e)).
  { intros He. apply getSessions_elem in He as (kv & Hkv & _ & -> & ->).
    apply subseteq_take, elem_of_selected in Hkv as [Hrow _].
    symmetry. by apply (count_is_rows _ (reachable_consistent _ Hm)). }
  split; [exact Hquery|].
  intros parses answer. unfold getSessions.
  destruct (forallb _ _); [|done]. by intros [= <-].
Qed.

Lemma getSessions_counts_agree_witness :
  let m := run [(1, EvStart strict_start);
                (2, EvLog "s1" (a_violation tab_switch)); (3, EvRestart);
                (4, EvLog "s1" (a_violation no_face))]
               (new_manager empty_database) in
  ∃ answer e,
    getSessions (λ _, true) String.eqb no_filters m = Resolved answer ∧
    e ∈ answer ∧
    listed_violations e = violation_count (listed_row e).
Proof.
  intros m.
  destruct (getSessions (λ _, true) String.eqb no_filters m)
    as [[|e l]|err] eqn:Hl; [by vm_compute in Hl| |by vm_compute in Hl].
  exists (e :: l), e. split; [done|]. split; [apply list_elem_of_here|].
  apply (proj2 (getSessions_counts_agree String.eqb no_filters m e
                  (run_reachable _ _ reachable_init)) (λ _, true) (e :: l) Hl).
  apply list_elem_of_here.
Defined.

(** X9. In every reachable state the statistics add up: every session
    of the window is counted as active, completed or terminated, the
    flagged sessions are among them, and the total of the violations,
    the sum of the counts by type, is the sum of the [violation_count]
    columns of the sessions of the window; no session is flagged exactly
    when that total is 0. *)
Theorem getStatistics_adds_up now timeframe m :
  reachable m →
  let st := getStatistics now timeframe m in
  totalSessions st
    = stat_activeSessions st + completedSessions st + terminatedSessions st ∧
  flaggedSessions st ≤ totalSessions st ∧
  totalViolations st
    = sum_list_with violation_count (window_sessions now timeframe (pool m)) ∧
  (flaggedSessions st = 0 ↔ totalViolations st = 0).
Proof.
  intros Hm st. subst st. unfold getStatistics.
  cbn [totalSessions stat_activeSessions completedSessions terminatedSessions
       flaggedSessions totalViolations].
  assert (Htotal :
    foldr (λ tc sum, sum + tc.2) 0
      (by_type (window_violations now timeframe (pool m)))
    = sum_list_with violation_count (window_sessions now timeframe (pool m))).
  { rewrite by_type_total. unfold window_violations, window_sessions.
    rewrite count_joined.
    by rewrite (sum_counters _ _ (reachable_consistent _ Hm)). }
  split; [|split; [|split]].
  - apply count_by_status, Forall_forall. intros r Hr.
    unfold window_sessions in Hr.
    apply list_elem_of_filter in Hr as [_ Hr].
    apply list_elem_of_fmap in Hr as ([sid row] & -> & Hin).
    apply elem_of_map_to_list in Hin.
    by apply (never_paused _ (reachable_lifecycle _ Hm) sid).
  - apply count_where_le.
  - exact Htotal.
  - rewrite Htotal. clear Htotal. unfold count_where.
    induction (window_sessions now timeframe (pool m)) as [|r rows IH]; [done|].
    rewrite filter_cons. cbn [sum_list_with].
    case_decide as Hflag; cbn [length].
    + apply Nat.ltb_lt in Hflag. lia.
    + rewrite Nat.ltb_lt in Hflag. rewrite IH. lia.
Qed.

Lemma getStatistics_adds_up_witness :
  let m := run [(1, EvStart strict_start);
                (2, EvLog "s1" (a_violation tab_switch));
                (3, EvStart (lenient_start "s2"));
                (4, EvLog "s1" (a_violation no_face));
                (5, EvEnd "s2" (JStr "completed"))]
               (new_manager empty_database) in
  let st := getStatistics 100 "24h" m in
  totalSessions st = 2 ∧
  totalSessions st
    = stat_activeSessions st + completedSessions st + terminatedSessions st.
Proof.
  intros m st. split; [by vm_compute|].
  apply (getStatistics_adds_up 100 "24h" m).
  apply run_reachable, reachable_init.
Defined.

(** X10. The violations by type of the statistics list each type that
    occurs among the violations of the window once, with the number of
    those violations, the largest count first; a type that does not
    occur is not listed. *)
Theorem violationsByType_groups now timeframe m :
  let groups := violationsByType (getStatistics now timeframe m) in
  let joined := window_violations now timeframe (pool m) in
  Sorted larger_first groups ∧
  NoDup groups.*1 ∧
  ∀ t n, (t, n) ∈ groups ↔
         n = length (filter (λ v, v_type v = t) joined) ∧ 0 < n.
Proof.
  intros groups joined. subst groups.
  change (violationsByType _) with (by_type joined). unfold by_type.
  split; [apply Sorted_merge_sort, _|]. split.
  - rewrite merge_sort_Permutation.
    apply (sublist_NoDup _ all_violation_types).
    + unfold all_violation_types. compute_done.
    + etrans; [apply fmap_sublist, sublist_filter|].
      rewrite <-list_fmap_compose. by rewrite list_fmap_id.
  - intros t n. rewrite merge_sort_Permutation, list_elem_of_filter,
      list_elem_of_fmap. cbn. split.
    + intros [Hpos (t' & [= -> ->] & _)]. done.
    + intros [-> Hpos]. split; [done|]. exists t. split; [done|].
      unfold all_violation_types. destruct t; set_solver.
Qed.

(** ** The randomization engine: what a shuffle can and cannot do *)

Section reach_facts.
Implicit Types (w : world) (es pre suf : list jsval) (a : loc).

(** Swapping the last place of [pre] with the place of [x] puts [x]
    last and leaves a permutation in front of it. *)
Lemma swap_elems_last pre suf j x :
  pre !! j = Some x →
  ∃ front, swap_elems (pre ++ suf) (length pre - 1) j = front ++ x :: suf ∧
           front ++ [x] ≡ₚ pre.
Proof.
  intros Hj. pose proof (lookup_lt_Some _ _ _ Hj) as Hlt.
  destruct (lookup_lt_is_Some_2 pre (length pre - 1)) as [y Hi]; [lia|].
  rewrite (swap_elems_in_range (pre ++ suf) (length pre - 1) j y x)
    by (by apply lookup_app_l_Some).
  rewrite insert_app_l by lia.
  rewrite insert_app_l by (rewrite length_insert; lia).
  set (pre1 := <[j := y]> (<[length pre - 1 := x]> pre)).
  assert (Hperm : pre1 ≡ₚ pre) by (by apply swap_perm).
  assert (Hlast : pre1 !! (length pre - 1) = Some x).
  { subst pre1. destruct (decide (j = length pre - 1)) as [->|Hne].
    - rewrite Hi in Hj. injection Hj as ->.
      apply list_lookup_insert_eq. rewrite length_insert. lia.
    - rewrite list_lookup_insert_ne by done.
      apply list_lookup_insert_eq. lia. }
  exists (take (length pre - 1) pre1).
  assert (Hsplit : take (length pre - 1) pre1 ++ [x] = pre1).
  { rewrite <-(take_S_r _ _ _ Hlast). apply take_ge.
    rewrite (Permutation_length Hperm). lia. }
  split; [|by rewrite Hsplit].
  rewrite <-Hsplit at 1. by rewrite <-app_assoc.
Qed.

(** Every order of the first [i + 1] elements is the outcome of the
    loop for some draws. *)
Lemma shuffle_from_reaches i :
  ∀ pre target suf a (h : gmap loc cell) d,
    length pre = S i → target ≡ₚ pre →
    h !! a = Some (CArr (pre ++ suf)) →
    ∃ js : list nat, ∀ ent, (∀ k, k < i → ent (d + k) = default 0 (js !! k)) →
      shuffle_from a i {| mem := h; entropy := ent; drawn := d |}
      = Ok tt {| mem := <[a := CArr (target ++ suf)]> h;
                 entropy := ent; drawn := d + i |}.
Proof.
  induction i as [|i IH]; intros pre target suf a h d Hlen Hperm Ha.
  - exists []. intros ent _. cbn.
    destruct pre as [|x [|]]; try done.
    apply Permutation_singleton_r in Hperm as ->.
    by rewrite insert_id, Nat.add_0_r.
  - destruct target as [|x target0 _] using rev_ind.
    { apply Permutation_nil_l in Hperm. by subst pre. }
    assert (Hx : x ∈ pre).
    { rewrite <-Hperm. apply elem_of_app. right. apply list_elem_of_here. }
    apply list_elem_of_lookup in Hx as [j Hj].
    pose proof (lookup_lt_Some _ _ _ Hj) as Hlt.
    destruct (swap_elems_last pre suf j x Hj) as (front & Hswap & Hfront).
    assert (Hperm0 : target0 ≡ₚ front).
    { apply (Permutation_app_inv_r [x]). by rewrite Hperm, Hfront. }
    assert (Hlen0 : length front = S i).
    { apply Permutation_length in Hfront. rewrite length_app in Hfront.
      cbn in Hfront. lia. }
    destruct (IH front target0 (x :: suf) a
                (<[a := CArr (front ++ x :: suf)]> h) (S d) Hlen0 Hperm0)
      as [js Hjs]; [apply lookup_insert_eq|].
    exists (j :: js). intros ent Hent.
    cbn [shuffle_from]. unfold bind at 1. cbn [random_below mem entropy drawn].
    pose proof (Hent 0 ltac:(lia)) as Hfirst.
    rewrite Nat.add_0_r in Hfirst. cbn in Hfirst. rewrite Hfirst.
    rewrite Nat.mod_small by lia.
    unfold bind at 1. unfold swap, bind at 1, load, store.
    cbn [mem]. rewrite Ha. cbn [mem]. rewrite Ha.
    replace (length pre - 1) with (S i) in Hswap by lia.
    rewrite Hswap. unfold with_mem. cbn [mem entropy drawn].
    rewrite Hjs.
    + f_equal. f_equal; [|lia].
      by rewrite insert_insert_eq, <-app_assoc.
    + intros k Hk. specialize (Hent (S k) ltac:(lia)).
      by replace (S d + k) with (d + S k) by lia.
Qed.

(** A run that ends has drawn one number for each round. *)
Lemma shuffle_from_draws a i :
  ∀ w w', shuffle_from a i w = Ok tt w' →
          drawn w' = drawn w + i ∧ entropy w' = entropy w.
Proof.
  induction i as [|i IH]; intros w w'.
  - cbn. intros [= <-]. by rewrite Nat.add_0_r.
  - cbn [shuffle_from]. unfold bind at 1. cbn [random_below].
    unfold bind at 1. unfold swap, bind at 1, load, store. cbn [mem].
    destruct (mem w !! a) as [[es|fs]|] eqn:Ha; try done.
    cbn [mem]. rewrite Ha.
    intros Hrun. apply IH in Hrun as [Hd He]. cbn in Hd, He.
    split; [lia|done].
Qed.

Lemma spread_pure v w es w' : spread v w = Ok es w' → w' = w.
Proof.
  destruct v as [| | | |s|l]; cbn; try done.
  - by intros [= _ <-].
  - unfold bind, load. destruct (mem w !! l) as [[|]|]; try done.
    by intros [= _ <-].
Qed.

Lemma shuffleArray_draws v w r w' :
  shuffleArray v w = Ok r w' →
  ∃ es, spread v w = Ok es w ∧
        drawn w' = drawn w + (length es - 1) ∧ entropy w' = entropy w.
Proof.
  unfold shuffleArray. unfold bind at 1.
  destruct (spread v w) as [es w1| |] eqn:Hspread; try done.
  apply spread_pure in Hspread as ->.
  unfold bind at 1. cbn [alloc].
  unfold bind at 1.
  destruct (shuffle_from _ _ _) as [[] w2| |] eqn:Hrun; try done.
  intros [= _ <-]. apply shuffle_from_draws in Hrun as [Hd He].
  exists es. split; [done|]. by cbn in Hd, He.
Qed.

(** Option randomization stops at a question that is [null] or
    [undefined]. *)
Lemma mapM_randomizeQuestionOptions_null good bad rest w h0 :
  h0 ⊆ mem w →
  Forall (λ q, question_ok h0 q = true) good →
  bad = JNull ∨ bad = JUndefined →
  ∃ w', mapM randomizeQuestionOptions (good ++ bad :: rest) w
        = Throw TypeError w' ∧ mem w ⊆ mem w'.
Proof.
  revert w. induction good as [|q good IH]; intros w Hsub Hok Hbad.
  - exists w. split; [|done]. by destruct Hbad as [-> | ->].
  - apply Forall_cons in Hok as [Hq Hgood].
    destruct (randomizeQuestionOptions_spec w q) as (r & w1 & Hr & Hsub1 & _).
    { by eapply question_ok_weaken. }
    destruct (IH w1) as (w' & Hthrow & Hsub'); [by etrans|done|done|].
    exists w'. split; [|by etrans].
    cbn [app mapM]. exec Hr. unfold bind at 1. by rewrite Hthrow.
Qed.

End reach_facts.

(** X11. [shuffleArray] can produce every order: for each arrangement
    of the elements of an array there are outcomes of the random source
    under which the copy it returns has exactly that arrangement. *)
Theorem shuffleArray_reaches_every_order w l es target :
  mem w !! l = Some (CArr es) →
  target ≡ₚ es →
  ∃ js a,
    shuffleArray (JRef l) (with_entropy (drawing js (drawn w)) w)
    = Ok (JRef a)
         {| mem := <[a := CArr target]> (mem w);
            entropy := drawing js (drawn w);
            drawn := drawn w + (length es - 1) |} ∧
    mem w !! a = None.
Proof.
  intros Hl Hperm.
  set (a := fresh (dom (mem w))).
  assert (Ha : mem w !! a = None) by apply not_elem_of_dom, is_fresh.
  assert (Hstart : ∀ ent,
    shuffleArray (JRef l) (with_entropy ent w)
    = (shuffle_from a (length es - 1) ;; ret (JRef a))
        {| mem := <[a := CArr es]> (mem w); entropy := ent; drawn := drawn w |}).
  { intros ent. unfold shuffleArray.
    exec (spread_array (with_entropy ent w) l es Hl). done. }
  destruct es as [|e es'].
  - apply Permutation_nil_r in Hperm as ->.
    exists [], a. split; [|done]. rewrite Hstart. cbn.
    by rewrite Nat.add_0_r.
  - destruct (shuffle_from_reaches (length es') (e :: es') target [] a
                (<[a := CArr (e :: es')]> (mem w)) (drawn w))
      as [js Hjs]; [done|done|by rewrite app_nil_r, lookup_insert_eq|].
    exists js, a. split; [|done]. rewrite Hstart.
    unfold bind. cbn [length]. rewrite Nat.sub_1_r. cbn [pred].
    rewrite Hjs.
    + cbn. by rewrite app_nil_r, insert_insert_eq.
    + intros k _. unfold drawing. f_equal. f_equal. lia.
Qed.

Lemma shuffleArray_reaches_every_order_witness :
  ∃ js a,
    shuffleArray (JRef options_loc)
      (with_entropy (drawing js (drawn sample_world)) sample_world)
    = Ok (JRef a)
         {| mem := <[a := CArr [JStr "def"; JStr "const"; JStr "let"; JStr "var"]]>
                     (mem sample_world);
            entropy := drawing js (drawn sample_world);
            drawn := drawn sample_world + (length sample_options - 1) |} ∧
    mem sample_world !! a = None.
Proof.
  apply (shuffleArray_reaches_every_order sample_world options_loc
           sample_options).
  - reflexivity.
  - exact (reverse_Permutation sample_options).
Defined.

(** X12. On an array, [shuffleArray] returns a new array that holds a
    permutation of the elements and leaves the array it was given as it
    was; it draws exactly one random number for each element but one,
    so none for an empty or a one-element array, whose copy is equal to
    it. *)
Theorem shuffleArray_copies w l es :
  mem w !! l = Some (CArr es) →
  ∃ a es' w',
    shuffleArray (JRef l) w = Ok (JRef a) w' ∧
    a ≠ l ∧
    mem w' !! a = Some (CArr es') ∧
    mem w' !! l = Some (CArr es) ∧
    es' ≡ₚ es ∧
    drawn w' = drawn w + (length es - 1) ∧
    entropy w' = entropy w ∧
    (length es ≤ 1 → es' = es ∧ drawn w' = drawn w).
Proof.
  intros Hl.
  destruct (shuffleArray_spec w l es Hl) as (a & es' & w' & Hrun & Ha & Hmem & Hperm).
  destruct (shuffleArray_draws _ _ _ _ Hrun) as (es0 & Hspread & Hd & He).
  rewrite (spread_array _ _ _ Hl) in Hspread. injection Hspread as <-.
  assert (Hne : a ≠ l) by congruence.
  exists a, es', w'. split; [done|]. split; [done|].
  rewrite Hmem. split; [apply lookup_insert_eq|].
  split; [by rewrite lookup_insert_ne|].
  split; [done|]. split; [done|]. split; [done|].
  intros Hshort. split; [|lia].
  destruct es as [|x [|]]; cbn in Hshort; try lia.
  - by apply Permutation_nil_r in Hperm.
  - by apply Permutation_singleton_r in Hperm.
Qed.

Lemma shuffleArray_copies_witness :
  ∃ a es' w',
    shuffleArray (JRef options_loc) sample_world = Ok (JRef a) w' ∧
    a ≠ options_loc ∧
    mem w' !! a = Some (CArr es') ∧
    mem w' !! options_loc = Some (CArr sample_options) ∧
    es' ≡ₚ sample_options ∧
    drawn w' = drawn sample_world + (length sample_options - 1) ∧
    entropy w' = entropy sample_world ∧
    (length sample_options ≤ 1 → es' = sample_options ∧ drawn w' = drawn sample_world).
Proof.
  apply (shuffleArray_copies sample_world options_loc sample_options).
  reflexivity.
Defined.

(** X13. [randomizeQuiz] selects without replacement: the questions it
    returns, together with those it leaves out, are a permutation of
    the questions it was given (each in its option-randomized version
    when options are randomized), so no question is delivered twice or
    invented; when the limit does not cut the list, none is left
    out. *)
Theorem randomizeQuiz_without_replacement w questions qs rq ro limit :
  elems_of (mem w) questions = Some qs →
  (truthy (default_param (JBool true) ro) = true →
   Forall (λ q, question_ok (mem w) q = true) qs) →
  limit = JUndefined ∨ limit = JNull ∨ (∃ n, limit = JNum n) →
  ∃ result w' rs rest mapped,
    randomizeQuiz questions rq ro limit w = Ok result w' ∧
    elems_of (mem w') result = Some rs ∧
    Forall2 (if truthy (default_param (JBool true) ro)
             then shuffled_version (mem w) (mem w') else eq) qs mapped ∧
    rs ++ rest ≡ₚ mapped ∧
    length rest = length qs - expected_count limit (length qs) ∧
    (truthy (default_param (JBool true) ro) = false → rs ++ rest ≡ₚ qs).
Proof.
  intros Hqs Hok Hlimit.
  destruct (randomizeQuiz_spec w questions qs rq ro limit Hqs Hok Hlimit)
    as (result & w' & mapped & shuffled & Hrun & Hsub & Hall & Hperm & _ & Hres).
  exists result, w', (take (expected_count limit (length qs)) shuffled),
    (drop (expected_count limit (length qs)) shuffled), mapped.
  split; [done|]. split; [done|]. split; [done|].
  rewrite take_drop. split; [done|]. split.
  - rewrite length_drop, (Permutation_length Hperm).
    by rewrite <-(Forall2_length _ _ _ Hall).
  - intros Hro. rewrite Hro in Hall. apply list_eq_Forall2 in Hall.
    by rewrite Hall.
Qed.

Lemma randomizeQuiz_without_replacement_witness :
  ∃ result w' rs rest mapped,
    randomizeQuiz (JRef quiz_loc) (JBool true) (JBool false) (JNum 3) quiz_world
      = Ok result w' ∧
    elems_of (mem w') result = Some rs ∧
    Forall2 eq five_questions mapped ∧
    rs ++ rest ≡ₚ mapped ∧
    length rest = length five_questions - 3 ∧
    (false = false → rs ++ rest ≡ₚ five_questions).
Proof.
  apply (randomizeQuiz_without_replacement quiz_world (JRef quiz_loc)
           five_questions (JBool true) (JBool false) (JNum 3)).
  - by vm_compute.
  - intros Hro. by vm_compute in Hro.
  - right. right. by exists 3%Z.
Defined.

(** X14. With option randomization on, a question list that holds
    [null] or [undefined] after questions that can be processed makes
    [randomizeQuiz] throw a TypeError (reading [options] of the bad
    element), whatever the other settings are; the cells that existed
    before are unchanged. *)
Theorem randomizeQuiz_null_question w questions good bad rest rq ro limit :
  elems_of (mem w) questions = Some (good ++ bad :: rest) →
  Forall (λ q, question_ok (mem w) q = true) good →
  bad = JNull ∨ bad = JUndefined →
  truthy (default_param (JBool true) ro) = true →
  ∃ w', randomizeQuiz questions rq ro limit w = Throw TypeError w' ∧
        mem w ⊆ mem w'.
Proof.
  intros (l & -> & Hl)%elems_of_Some Hgood Hbad Hro. unfold randomizeQuiz.
  exec (spread_array _ _ _ Hl).
  destruct (alloc_Ok (CArr (good ++ bad :: rest)) w) as (copy & Halloc & Hcopy).
  exec Halloc. rewrite Hro.
  set (w1 := with_mem (<[copy := CArr (good ++ bad :: rest)]> (mem w)) w).
  assert (Hsub1 : mem w ⊆ mem w1) by (by apply insert_subseteq).
  destruct (mapM_randomizeQuestionOptions_null good bad rest w1 (mem w)
              Hsub1 Hgood Hbad) as (w' & Hthrow & Hsub').
  exists w'. split; [|by etrans].
  unfold bind at 1. unfold array_map.
  rewrite (bind_Ok _ _ w1 _ _ (spread_array w1 copy _ (lookup_insert_eq _ _ _))).
  unfold bind at 1. by rewrite Hthrow.
Qed.

Lemma randomizeQuiz_null_question_witness :
  ∃ w', randomizeQuiz (JRef broken_quiz_loc) JUndefined JUndefined JUndefined
          broken_quiz_world
        = Throw TypeError w' ∧
        mem broken_quiz_world ⊆ mem w'.
Proof.
  apply (randomizeQuiz_null_question broken_quiz_world (JRef broken_quiz_loc)
           [JRef 6%positive] JNull [] JUndefined JUndefined JUndefined).
  - by vm_compute.
  - constructor; [by vm_compute|constructor].
  - by left.
  - reflexivity.
Defined.

(** ** Quiz delivery: the answers of [GET /api/quizzes/:id] *)

Section answer_facts.
Implicit Types (w : world) (h : gmap loc cell) (v : jsval).

Lemma bind_inv {A B} (m : M A) (k : A → M B) w (y : B) w' :
  bind m k w = Ok y w' → ∃ x w1, m w = Ok x w1 ∧ k x w1 = Ok y w'.
Proof. unfold bind. destruct (m w) as [x w1| |]; try done. eauto. Qed.

Lemma catch_inv {A} (m : M A) (handler : js_error → M A) w (y : A) w' :
  catch m handler w = Ok y w' →
  m w = Ok y w' ∨ ∃ e w1, m w = Throw e w1 ∧ handler e w1 = Ok y w'.
Proof. unfold catch. destruct (m w) as [x w1|e w1|]; try done; eauto. Qed.

Lemma reply_Ok code fields w :
  ∃ b, reply code fields w
       = Ok {| status_code := code; body := JRef b |}
            (with_mem (<[b := obj fields]> (mem w)) w) ∧
       mem w !! b = None.
Proof.
  unfold reply. destruct (alloc_Ok (obj fields) w) as (b & Hb & Hfresh).
  exists b. split; [|done]. by exec Hb.
Qed.

Lemma reply_status code fields w r w' :
  reply code fields w = Ok r w' → status_code r = code.
Proof.
  destruct (reply_Ok code fields w) as (b & Hb & _). rewrite Hb.
  by intros [= <- _].
Qed.

Lemma deliver_status quiz rq ro ql ps w r w' :
  deliver quiz rq ro ql ps w = Ok r w' → status_code r = 200.
Proof.
  unfold deliver. intros H.
  repeat (apply bind_inv in H as (? & ? & _ & H)).
  unfold ret in H. by injection H as <- _.
Qed.

Lemma degraded_status quiz ps w r w' :
  degraded quiz ps w = Ok r w' → status_code r = 200.
Proof.
  unfold degraded. intros H.
  repeat (apply bind_inv in H as (? & ? & _ & H)).
  unfold ret in H. by injection H as <- _.
Qed.

Lemma get_prop_obj w l fields k :
  mem w !! l = Some (obj fields) →
  get_prop (JRef l) k w
  = Ok (default JUndefined ((list_to_map fields : gmap string jsval) !! k)) w.
Proof. intros Hl. cbn. by exec_load Hl. Qed.

(** The handler up to its inner [try]: the settings are read, and what
    is left is the delivery under the two handlers. *)
Lemma get_quiz_to_delivery quizzes id query quiz w :
  quizzes !! id = Some quiz →
  settings_are_null quiz = false →
  ∃ rq ro ql ps w0,
    mem w ⊆ mem w0 ∧
    get_quiz quizzes id query w
    = catch (catch (deliver quiz rq ro ql ps) (λ _, degraded quiz ps))
            (λ _, reply 500 [("error", JStr "Failed to fetch quiz")]) w0 ∧
    (randomization_settings quiz = None →
     randomize_questions query = None →
     randomize_options query = None →
     question_limit query = None →
     rq = JBool false ∧ ro = JBool false ∧ ql = JNull).
Proof.
  intros Hquiz Hnull. unfold get_quiz. rewrite Hquiz.
  destruct (alloc_Ok (obj [("randomizeQuestions", JBool false);
                           ("randomizeOptions", JBool false);
                           ("questionLimit", JNull)]) w) as (rs & Hrs & Hrs0).
  set (w1 := with_mem _ w) in Hrs.
  destruct (alloc_Ok (obj [("enabled", JBool false); ("level", JStr "basic");
                           ("strictMode", JBool false)]) w1) as (ps & Hps & Hps1).
  set (w2 := with_mem _ w1) in Hps.
  assert (Hrs2 : mem w2 !! rs
                 = Some (obj [("randomizeQuestions", JBool false);
                              ("randomizeOptions", JBool false);
                              ("questionLimit", JNull)])).
  { cbn. rewrite lookup_insert_ne; [by rewrite lookup_insert_eq|].
    intros <-. cbn in Hps1. by rewrite lookup_insert_eq in Hps1. }
  destruct (parse_or_keep_readable quiz (JRef rs) w2 Hnull)
    as (settings & w3 & Hsettings & Hsub3 & Hu & Hn & Hin); try done.
  { intros l [= <-]. by rewrite Hrs2. }
  destruct (parse_or_keep_Ok (proctoring_settings quiz) (JRef ps) w3)
    as (psettings & w4 & Hpsettings & Hsub4).
  pose proof (in_heap_weaken _ _ _ Hsub4 Hin) as Hin4.
  destruct (query_flag_Ok (randomize_questions query) settings
              "randomizeQuestions" w4 Hu Hn Hin4) as (rq & Hrq).
  destruct (query_flag_Ok (randomize_options query) settings
              "randomizeOptions" w4 Hu Hn Hin4) as (ro & Hro).
  destruct (query_limit_Ok (question_limit query) settings w4 Hu Hn Hin4)
    as (ql & Hql).
  exists rq, ro, ql, psettings, w4. split; [|split].
  - etrans; [|exact Hsub4]. etrans; [|exact Hsub3].
    etrans; [apply (insert_subseteq _ rs); exact Hrs0|].
    by apply insert_subseteq.
  - unfold catch at 1. unfold catch at 2.
    exec Hrs. exec Hps. exec Hsettings. exec Hpsettings.
    exec Hrq. exec Hro. by exec Hql.
  - intros Hnone Hq1 Hq2 Hq3.
    unfold parse_or_keep in Hsettings. rewrite Hnone in Hsettings.
    injection Hsettings as <- <-.
    assert (Hrs4 : mem w4 !! rs
                   = Some (obj [("randomizeQuestions", JBool false);
                                ("randomizeOptions", JBool false);
                                ("questionLimit", JNull)]))
      by (by eapply lookup_weaken).
    rewrite Hq1 in Hrq. rewrite Hq2 in Hro. rewrite Hq3 in Hql.
    unfold query_flag, query_limit in Hrq, Hro, Hql.
    rewrite (get_prop_obj _ _ _ _ Hrs4) in Hrq.
    rewrite (get_prop_obj _ _ _ _ Hrs4) in Hro.
    rewrite (get_prop_obj _ _ _ _ Hrs4) in Hql.
    injection Hrq as <-. injection Hro as <-. injection Hql as <-.
    by vm_compute.
Qed.

Lemma holds_array h items v :
  holds h (JsArr items) v
  ↔ ∃ a vs, v = JRef a ∧ h !! a = Some (CArr vs) ∧ Forall2 (holds h) items vs.
Proof.
  cbn [holds]. split; intros (a & vs & Hv & Ha & Hall); exists a, vs;
    (split; [done|]); (split; [done|]); clear Ha.
  - revert vs Hall. induction items as [|x items IH]; intros [|v0 vs] Hall;
      try done.
    destruct Hall as [Hx Hall]. constructor; [done|by apply IH].
  - induction Hall as [|x v0 items vs Hx Hall IH]; [done|]. by split.
Qed.

Lemma holds_object h members v :
  holds h (JsObj members) v
  ↔ ∃ o fs, v = JRef o ∧ h !! o = Some (CObj fs) ∧ fields_hold h members ∅ fs.
Proof.
  cbn [holds]. generalize (∅ : gmap string jsval). intros acc.
  split; intros (o & fs & Hv & Ho & Hall); exists o, fs;
    (split; [done|]); (split; [done|]); clear Ho.
  - revert acc Hall. induction members as [|[k x] members IH]; intros acc Hall;
      [done|].
    destruct Hall as (v0 & Hx & Hall). exists v0. split; [done|by apply IH].
  - revert acc Hall. induction members as [|[k x] members IH]; intros acc Hall;
      [done|].
    destruct Hall as (v0 & Hx & Hall). exists v0. split; [done|by apply IH].
Qed.

(** A value stands for its document in every larger heap. *)
Lemma holds_weaken : ∀ j h h' v, h ⊆ h' → holds h j v → holds h' j v.
Proof.
  fix IH 1. intros [|b|n|s|items|members] h h' v Hsub; try done.
  - rewrite !holds_array. intros (a & vs & Hv & Ha & Hall).
    exists a, vs. split; [done|]. split; [by eapply lookup_weaken|].
    clear Ha. revert vs Hall.
    induction items as [|x items IHitems]; intros vs Hall.
    + by inversion Hall.
    + inversion Hall as [|? v0 ? vs0 Hx Hrest]; subst.
      constructor; [by apply (IH x h h')|by apply IHitems].
  - rewrite !holds_object. intros (o & fs & Hv & Ho & Hall).
    exists o, fs. split; [done|]. split; [by eapply lookup_weaken|].
    clear Ho. revert Hall. generalize (∅ : gmap string jsval).
    induction members as [|[k x] members IHmembers]; intros acc Hall; [done|].
    destruct Hall as (v0 & Hx & Hall). exists v0.
    split; [by apply (IH x h h')|by apply IHmembers].
Qed.

Lemma materialize_grows j w v w' :
  materialize j w = Ok v w' → mem w ⊆ mem w'.
Proof.
  intros Hrun. destruct (materialize_Ok j w) as (v0 & w0 & Hv0 & Hsub & _).
  rewrite Hv0 in Hrun. by injection Hrun as _ <-.
Qed.

(** [JSON.parse] returns a value that stands for the document. *)
Lemma materialize_holds :
  ∀ j w v w', materialize j w = Ok v w' → holds (mem w') j v.
Proof.
  fix IH 1. intros [|b|n|s|items|members] w v w'.
  - by intros [= <- _].
  - by intros [= <- _].
  - by intros [= <- _].
  - by intros [= <- _].
  - rewrite holds_array. cbn [materialize].
    match goal with |- context [bind (?f items)] => set (items_of := f) end.
    assert (Hitems : ∀ w0 vs w1, items_of items w0 = Ok vs w1 →
                       mem w0 ⊆ mem w1 ∧ Forall2 (holds (mem w1)) items vs).
    { induction items as [|x items IHitems]; intros w0 vs w1.
      - intros [= <- <-]. split; [done|constructor].
      - cbn. intros Hrun.
        apply bind_inv in Hrun as (v0 & w2 & Hv0 & Hrun).
        fold items_of in Hrun.
        apply bind_inv in Hrun as (vs0 & w3 & Hvs0 & Hrun).
        unfold ret in Hrun. injection Hrun as <- <-.
        destruct (IHitems _ _ _ Hvs0) as [Hsub Hall].
        pose proof (materialize_grows _ _ _ _ Hv0) as Hsub0.
        split; [by etrans|]. constructor; [|done].
        apply (holds_weaken x (mem w2)); [done|]. by apply (IH x w0). }
    intros Hrun. apply bind_inv in Hrun as (vs & w1 & Hvs & Hrun).
    destruct (alloc_Ok (CArr vs) w1) as (a & Halloc & Ha).
    rewrite (bind_Ok _ _ _ _ _ Halloc) in Hrun.
    unfold ret in Hrun. injection Hrun as <- <-.
    destruct (Hitems _ _ _ Hvs) as [_ Hall].
    exists a, vs. split; [done|]. cbn. split; [apply lookup_insert_eq|].
    eapply Forall2_impl; [exact Hall|]. intros x v0.
    apply holds_weaken. by apply insert_subseteq.
  - rewrite holds_object. cbn [materialize].
    match goal with |- context [bind (?f members ∅)] => set (members_of := f) end.
    assert (Hmembers : ∀ acc w0 fs w1, members_of members acc w0 = Ok fs w1 →
      mem w0 ⊆ mem w1 ∧
      ∀ h, mem w1 ⊆ h → fields_hold h members acc fs).
    { induction members as [|[k x] members IHmembers]; intros acc w0 fs w1.
      - intros [= <- <-]. by split.
      - cbn. intros Hrun.
        apply bind_inv in Hrun as (v0 & w2 & Hv0 & Hrun).
        fold members_of in Hrun.
        destruct (IHmembers _ _ _ _ Hrun) as [Hsub Hall].
        pose proof (materialize_grows _ _ _ _ Hv0) as Hsub0.
        split; [by etrans|]. intros h Hh. exists v0. split; [|by apply Hall].
        apply (holds_weaken x (mem w2)); [by etrans|]. by apply (IH x w0). }
    intros Hrun. apply bind_inv in Hrun as (fs & w1 & Hfs & Hrun).
    destruct (alloc_Ok (CObj fs) w1) as (o & Halloc & Ho).
    rewrite (bind_Ok _ _ _ _ _ Halloc) in Hrun.
    unfold ret in Hrun. injection Hrun as <- <-.
    destruct (Hmembers _ _ _ _ Hfs) as [_ Hall].
    exists o, fs. split; [done|]. cbn. split; [apply lookup_insert_eq|].
    apply Hall. by apply insert_subseteq.
Qed.

(** A stored array comes back as a fresh array whose values stand, in
    their order, for the stored items. *)
Lemma load_questions_Ok column items w :
  stored_array column = Some items →
  ∃ a vs w', load_questions column w = Ok (JRef a) w' ∧
             mem w ⊆ mem w' ∧
             mem w !! a = None ∧
             mem w' !! a = Some (CArr vs) ∧
             length vs = length items ∧
             Forall2 (holds (mem w')) items vs.
Proof.
  assert (Harr : ∀ items w, ∃ a vs w',
    materialize (JsArr items) w = Ok (JRef a) w' ∧
    mem w ⊆ mem w' ∧ mem w !! a = None ∧ mem w' !! a = Some (CArr vs) ∧
    length vs = length items).
  { clear. intros items w. cbn [materialize].
    match goal with |- context [bind (?f items)] => set (items_of := f) end.
    assert (Hitems : ∀ w0, ∃ vs w1, items_of items w0 = Ok vs w1 ∧
                                    mem w0 ⊆ mem w1 ∧
                                    length vs = length items).
    { induction items as [|x items IHitems]; intros w0.
      - exists [], w0. by repeat split.
      - destruct (materialize_Ok x w0) as (v & w1 & Hv & Hsub1 & _).
        destruct (IHitems w1) as (vs & w2 & Hvs & Hsub2 & Hlen).
        exists (v :: vs), w2. cbn.
        exec Hv. fold items_of.
        exec Hvs. split; [done|]. split; [by etrans|]. cbn. by rewrite Hlen. }
    destruct (Hitems w) as (vs & w1 & Hvs & Hsub1 & Hlen).
    destruct (alloc_Ok (CArr vs) w1) as (a & Halloc & Ha).
    exec Hvs. exec Halloc.
    exists a, vs. eexists. split; [done|]. cbn.
    split; [etrans; [done|by apply insert_subseteq]|].
    split; [by eapply lookup_weaken_None|].
    split; [apply lookup_insert_eq|done]. }
  assert (Hfull : ∀ items w, ∃ a vs w',
    materialize (JsArr items) w = Ok (JRef a) w' ∧
    mem w ⊆ mem w' ∧ mem w !! a = None ∧ mem w' !! a = Some (CArr vs) ∧
    length vs = length items ∧ Forall2 (holds (mem w')) items vs).
  { clear items w. intros items w.
    destruct (Harr items w) as (a & vs & w' & Hrun & Hsub & Hfresh & Ha & Hlen).
    exists a, vs, w'. repeat (split; [done|]).
    apply materialize_holds, holds_array in Hrun
      as (a0 & vs0 & [= <-] & Ha0 & Hall).
    rewrite Ha in Ha0. by injection Ha0 as <-. }
  destruct column as [t|stored|]; cbn [stored_array load_questions].
  - destruct (parses_to t) as [[| | | |stored|]|]; try done.
    intros [= ->]. apply Hfull.
  - intros [= ->]. apply Hfull.
  - intros [= <-]. destruct (alloc_Ok (CArr []) w) as (a & Halloc & Ha).
    exists a, []. eexists. unfold load_questions. exec Halloc.
    split; [done|]. cbn.
    split; [by apply insert_subseteq|]. split; [done|].
    split; [apply lookup_insert_eq|]. split; [done|constructor].
Qed.

End answer_facts.

(** X15. The delivery endpoint answers a request for a quiz that is not
    stored with 404 and the error [Quiz not found]; it never lets an
    exception escape; and for a stored quiz it answers 200, or 500 only
    when the stored randomization settings are the JSON text [null]. *)
Theorem get_quiz_answers quizzes id query w :
  (quizzes !! id = None →
   ∃ b, get_quiz quizzes id query w
        = Ok {| status_code := 404; body := JRef b |}
             (with_mem (<[b := obj [("error", JStr "Quiz not found")]]> (mem w)) w) ∧
        mem w !! b = None) ∧
  (∀ e w', get_quiz quizzes id query w ≠ Throw e w') ∧
  (∀ r w', get_quiz quizzes id query w = Ok r w' →
     match quizzes !! id with
     | None => status_code r = 404
     | Some quiz => status_code r = 200 ∨
                    (status_code r = 500 ∧ settings_are_null quiz = true)
     end).
Proof.
  split; [|split].
  - intros Hnone. unfold get_quiz. rewrite Hnone.
    destruct (reply_Ok 404 [("error", JStr "Quiz not found")] w) as (b & Hb & Hfresh).
    exists b. split; [|done]. unfold catch. by rewrite Hb.
  - intros e w'. unfold get_quiz.
    match goal with |- catch ?m _ _ ≠ _ => generalize m end.
    intros m. unfold catch. by destruct (m w) as [r w1|e1 w1|].
  - intros r w' Hrun. destruct (quizzes !! id) as [quiz|] eqn:Hquiz.
    + destruct (settings_are_null quiz) eqn:Hnull.
      * unfold get_quiz in Hrun. rewrite Hquiz in Hrun.
        apply catch_inv in Hrun as [Hrun|(e & w1 & _ & Hrun)].
        -- left. repeat (apply bind_inv in Hrun as (? & ? & _ & Hrun)).
           apply catch_inv in Hrun as [Hrun|(e & w1 & _ & Hrun)].
           ++ by eapply deliver_status.
           ++ by eapply degraded_status.
        -- right. split; [|done]. by eapply reply_status.
      * destruct (get_quiz_to_delivery quizzes id query quiz w Hquiz Hnull)
          as (rq & ro & ql & ps & w0 & _ & Heq & _).
        rewrite Heq in Hrun. left.
        apply catch_inv in Hrun as [Hrun|(e & w1 & Hthrow & _)].
        -- apply catch_inv in Hrun as [Hrun|(e & w1 & _ & Hrun)].
           ++ by eapply deliver_status.
           ++ by eapply degraded_status.
        -- exfalso. unfold catch in Hthrow.
           by destruct (deliver quiz rq ro ql ps w0) as [r1 w2|e1 w2|].
    + unfold get_quiz in Hrun. rewrite Hquiz in Hrun.
      apply catch_inv in Hrun as [Hrun|(e & w1 & Hthrow & _)].
      * by eapply reply_status.
      * done.
Qed.

(** X16. A stored quiz without randomization settings, requested
    without randomization parameters, is delivered as it is stored:
    status 200, all its questions in a fresh array, as many as are
    stored and each value standing for the stored question at its
    place (the same numbers, strings and booleans, arrays of the same
    elements, objects of the same members), and a
    [randomizationApplied] record that reports no randomization and the
    number of stored questions.  Unlike the degraded answer, the points
    per question are sent as stored, without a default of 1. *)
Theorem get_quiz_plain quizzes id query quiz items w :
  quizzes !! id = Some quiz →
  stored_array (quiz_questions quiz) = Some items →
  randomization_settings quiz = None →
  randomize_questions query = None →
  randomize_options query = None →
  question_limit query = None →
  ∃ b qs vs applied ps w',
    get_quiz quizzes id query w
      = Ok {| status_code := 200; body := JRef b |} w' ∧
    mem w ⊆ mem w' ∧
    mem w' !! b = Some (delivered_body quiz (JRef qs) (JRef applied) ps) ∧
    mem w' !! qs = Some (CArr vs) ∧
    mem w !! qs = None ∧
    length vs = length items ∧
    Forall2 (holds (mem w')) items vs ∧
    mem w' !! applied
      = Some (obj [("questions", JBool false); ("options", JBool false);
                   ("questionLimit", JNull);
                   ("finalQuestionCount", JNum (Z.of_nat (length items)))]).
Proof.
  intros Hquiz Hitems Hnone Hq1 Hq2 Hq3.
  assert (Hnull : settings_are_null quiz = false).
  { unfold settings_are_null. by rewrite Hnone. }
  destruct (get_quiz_to_delivery quizzes id query quiz w Hquiz Hnull)
    as (rq & ro & ql & ps & w0 & Hsub0 & Heq & Hvals).
  destruct (Hvals Hnone Hq1 Hq2 Hq3) as (-> & -> & ->). clear Hvals.
  destruct (load_questions_Ok _ _ w0 Hitems)
    as (qs & vs & w1 & Hload & Hsub1 & Hqs0 & Hqs & Hlen & Hall).
  assert (Hlength : get_prop (JRef qs) "length" w1
                    = Ok (JNum (Z.of_nat (length items))) w1).
  { cbn. exec_load Hqs. by rewrite Hlen. }
  destruct (alloc_Ok (obj [("questions", JBool false); ("options", JBool false);
                           ("questionLimit", JNull);
                           ("finalQuestionCount",
                            JNum (Z.of_nat (length items)))]) w1)
    as (applied & Happlied & Hfresh1).
  set (w2 := with_mem _ w1) in Happlied.
  destruct (reply_Ok 200
     [("name", JStr (quiz_name quiz));
      ("description", nullable_str (quiz_description quiz));
      ("questions", JRef qs);
      ("pointsPerQuestion", nullable_num (points_per_question quiz));
      ("isCustom", nullable_num (is_custom quiz));
      ("randomizationApplied", JRef applied);
      ("proctoringSettings", ps)] w2) as (b & Hb & Hfresh2).
  assert (Hdeliver : deliver quiz (JBool false) (JBool false) JNull ps w0
    = Ok {| status_code := 200; body := JRef b |}
         (with_mem (<[b := delivered_body quiz (JRef qs) (JRef applied) ps]>
                      (mem w2)) w2)).
  { unfold deliver. exec Hload. exec Hlength. cbn [truthy orb].
    unfold ret at 1. unfold bind at 1. exec Hlength. exec Happlied.
    exact Hb. }
  exists b, qs, vs, applied, ps. eexists.
  split; [by rewrite Heq; unfold catch; rewrite Hdeliver|].
  assert (Hne1 : applied ≠ qs) by congruence.
  assert (Hne2 : b ≠ applied).
  { intros ->. cbn in Hfresh2. by rewrite lookup_insert_eq in Hfresh2. }
  assert (Hne3 : b ≠ qs).
  { intros ->. cbn in Hfresh2. rewrite lookup_insert_ne in Hfresh2 by done.
    congruence. }
  assert (Hsub2 : mem w1 ⊆ <[b := delivered_body quiz (JRef qs) (JRef applied) ps]>
                             (mem w2)).
  { etrans; [apply (insert_subseteq _ applied); exact Hfresh1|].
    by apply insert_subseteq. }
  cbn [with_mem mem]. split; [|split; [|split; [|split; [|split; [|split]]]]].
  - etrans; [exact Hsub0|]. by etrans; [exact Hsub1|].
  - apply lookup_insert_eq.
  - rewrite lookup_insert_ne by done. subst w2. cbn [with_mem mem].
    by rewrite lookup_insert_ne.
  - by eapply lookup_weaken_None.
  - done.
  - eapply Forall2_impl; [exact Hall|]. intros x v0.
    by apply holds_weaken.
  - rewrite lookup_insert_ne by done. subst w2. cbn [with_mem mem].
    apply lookup_insert_eq.
Qed.

Lemma get_quiz_plain_witness :
  ∃ b qs vs applied ps w',
    get_quiz {["html" := plain_quiz]} "html" no_query empty_world
      = Ok {| status_code := 200; body := JRef b |} w' ∧
    mem empty_world ⊆ mem w' ∧
    mem w' !! b = Some (delivered_body plain_quiz (JRef qs) (JRef applied) ps) ∧
    mem w' !! qs = Some (CArr vs) ∧
    mem empty_world !! qs = None ∧
    length vs = 2 ∧
    Forall2 (holds (mem w')) plain_items vs ∧
    mem w' !! applied
      = Some (obj [("questions", JBool false); ("options", JBool false);
                   ("questionLimit", JNull);
                   ("finalQuestionCount", JNum 2)]).
Proof.
  refine (get_quiz_plain {["html" := plain_quiz]} "html" no_query plain_quiz
            plain_items empty_world _ eq_refl eq_refl eq_refl eq_refl eq_refl).
  by vm_compute.
Defined.

(** X17. A quiz whose stored questions are the JSON text [null] is
    answered like one whose questions do not parse: reading the length
    of the questions throws inside the inner [try], and the answer is
    the degraded one, status 200 with an empty question list, points per
    question defaulting to 1 and a final count of 0. *)
Theorem get_quiz_null_questions quizzes id query quiz t w :
  quizzes !! id = Some quiz →
  quiz_questions quiz = QText t →
  parses_to t = Some JsNull →
  settings_are_null quiz = false →
  ∃ b empty applied ps w',
    get_quiz quizzes id query w
      = Ok {| status_code := 200; body := JRef b |} w' ∧
    mem w' !! b
      = Some (CObj (degraded_body quiz ps (JRef empty) (JRef applied))) ∧
    mem w' !! empty = Some (CArr []) ∧
    mem w' !! applied
      = Some (obj [("questions", JBool false); ("options", JBool false);
                   ("questionLimit", JNull); ("finalQuestionCount", JNum 0)]).
Proof.
  intros Hquiz Hq Ht Hnull.
  destruct (get_quiz_to_delivery quizzes id query quiz w Hquiz Hnull)
    as (rq & ro & ql & ps & w0 & _ & Heq & _).
  assert (Hthrow : deliver quiz rq ro ql ps w0 = Throw TypeError w0).
  { unfold deliver, load_questions. by rewrite Hq, Ht. }
  destruct (degraded_Ok quiz ps w0)
    as (b & empty & applied & w' & Hdeg & Hb & Hempty & Happlied).
  exists b, empty, applied, ps, w'. split; [|done].
  rewrite Heq. unfold catch. by rewrite Hthrow, Hdeg.
Qed.

Lemma get_quiz_null_questions_witness :
  ∃ b empty applied ps w',
    get_quiz {["css" := null_questions_quiz]} "css" no_query empty_world
      = Ok {| status_code := 200; body := JRef b |} w' ∧
    mem w' !! b
      = Some (CObj (degraded_body null_questions_quiz ps (JRef empty)
                      (JRef applied))) ∧
    mem w' !! empty = Some (CArr []) ∧
    mem w' !! applied
      = Some (obj [("questions", JBool false); ("options", JBool false);
                   ("questionLimit", JNull); ("finalQuestionCount", JNum 0)]).
Proof.
  apply (get_quiz_null_questions {["css" := null_questions_quiz]} "css"
           no_query null_questions_quiz
           {| raw := "null"; parses_to := Some JsNull |} empty_world).
  - by vm_compute.
  - reflexivity.
  - reflexivity.
  - reflexivity.
Defined.

(** ** Question buckets: what the handlers keep *)

Section bucket_more_facts.
Implicit Types (db : bank) (rows : list question_row) (d : difficulty).

(** The active questions of a bucket after a question was inserted
    under an id that was free. *)
Lemma active_questions_insert b db id row n :
  questions db !! id = None →
  active_questions b {| question_buckets := question_buckets db;
                        questions := <[id := row]> (questions db);
                        next_question_id := n |}
  ≡ₚ (if decide (active_in b row) then [row] else []) ++ active_questions b db.
Proof.
  intros Hfree. unfold active_questions. cbn [questions].
  rewrite map_to_list_insert by done.
  rewrite fmap_cons, filter_cons. cbn [snd]. by case_decide.
Qed.

Lemma ids_below_next_fresh db :
  ids_below_next db → questions db !! next_question_id db = None.
Proof.
  intros Hids. destruct (questions db !! next_question_id db) eqn:Hq; [|done].
  specialize (Hids (next_question_id db)). rewrite Hq in Hids.
  specialize (Hids ltac:(by eexists)). lia.
Qed.

Lemma updateBucketCounts_twice b db :
  updateBucketCounts b (updateBucketCounts b db) = updateBucketCounts b db.
Proof.
  unfold updateBucketCounts at 1. rewrite active_questions_updateBucketCounts.
  unfold updateBucketCounts. cbn [question_buckets questions next_question_id].
  f_equal. apply map_eq. intros b'. destruct (decide (b' = b)) as [->|Hne].
  - rewrite !lookup_alter_eq. by destruct (question_buckets db !! b).
  - by rewrite !lookup_alter_ne.
Qed.

End bucket_more_facts.

(** What the comparisons of the add handler say of an index that is
    an integer. *)
Lemma index_in_range (c : number) (n : nat) (z : Z) :
  below_zero c = false → at_least n c = false → is_int c z →
  (0 ≤ z < Z.of_nat n)%Z.
Proof.
  unfold below_zero, at_least, is_int, of_int. intros Hlow Hhigh Hz.
  apply negb_false_iff, QArith_base.Qle_bool_iff in Hlow.
  assert (Hhigh' : ¬ QArith_base.Qle (QArith_base.inject_Z (Z.of_nat n)) c).
  { intros H%QArith_base.Qle_bool_iff. by rewrite H in Hhigh. }
  destruct c as [num den].
  unfold QArith_base.Qle, QArith_base.Qeq, QArith_base.inject_Z in *.
  cbn [QArith_base.Qnum QArith_base.Qden] in *.
  pose proof (Pos2Z.is_pos den). nia.
Qed.

(** X18. A question that the add handler accepts is stored under the
    next id, in the bucket named, with the trimmed text, which is not
    empty, with the options given, of which there are at least two, and
    active.  The index given is a number from 0 up to, and not
    including, the number of options, integer or not, and the index
    stored is what the INT column makes of it: when the index given is
    an integer it names one of the options, and it is the index stored
    if the column stores it as it is.  The points stored are what the
    column makes of [points || 1], and 1 when no points are given; the
    explanation stored is the trimmed one.  The other questions are as
    they were; and the recount leaves the bucket with a total one above
    its former live total and with its three difficulty counts equal to
    the live counts, none of them NULL. *)
Theorem add_question_stores int_column b body db :
  ids_below_next db →
  (add_question int_column b body db).1 = 200 →
  let db' := (add_question int_column b body db).2 in
  ∃ text opts c row r',
    aq_question_text body = Some text ∧
    aq_options body = Some opts ∧
    aq_correct_answer body = Some c ∧
    questions db' !! next_question_id db = Some row ∧
    bucket_id row = b ∧
    question_text row = trim text ∧ question_text row ≠ "" ∧
    options row = JsArr opts ∧ 2 ≤ length opts ∧
    below_zero c = false ∧ at_least (length opts) c = false ∧
    int_column c = Some (correct_answer row) ∧
    (∀ z, is_int c z →
       (0 ≤ z < Z.of_nat (length opts))%Z ∧
       (int_column c = Some z → correct_answer row = z)) ∧
    stored_points int_column (aq_points body) = Some (points row) ∧
    (aq_points body = None → points row = 1%Z) ∧
    trimmed_explanation (aq_explanation body) = Some (explanation row) ∧
    is_active row = Some true ∧
    (∀ id, id ≠ next_question_id db → questions db' !! id = questions db !! id) ∧
    next_question_id db' = S (next_question_id db) ∧
    ids_below_next db' ∧
    question_buckets db' !! b = Some r' ∧
    total_questions r' = Some (sql_count (active_questions b db) + 1)%Z ∧
    easy_count r' = Some (live_count easy b db') ∧
    medium_count r' = Some (live_count medium b db') ∧
    hard_count r' = Some (live_count hard b db').
Proof.
  intros Hids Hok db'.
  destruct (add_question_recounts int_column b body db Hok)
    as (r' & Hr' & Hrec & Hlive).
  fold db' in Hr', Hrec, Hlive.
  pose proof (ids_below_next_fresh db Hids) as Hfresh.
  subst db'. revert Hok Hr' Hrec Hlive. unfold add_question.
  destruct (aq_question_text body) as [text|]; [|done].
  destruct (String.eqb (trim text) "") eqn:Htext; [done|].
  destruct (aq_options body) as [opts|]; [|done].
  destruct (length opts <? 2) eqn:Hlen; [done|].
  destruct (aq_correct_answer body) as [c|]; [|done].
  destruct (_ || _) eqn:Hc; [done|].
  destruct (aq_difficulty body ≫= parse_difficulty) as [d|]; [|done].
  destruct (trimmed_explanation (aq_explanation body)) as [expl|]; [|done].
  destruct (question_buckets db !! b) as [r|] eqn:Hr; [|done].
  destruct (int_column c) as [index|] eqn:Hindex; [|done].
  destruct (stored_points int_column (aq_points body)) as [pts|] eqn:Hpts;
    [|done].
  cbn [fst snd]. intros _ Hr' Hrec Hlive.
  apply String.eqb_neq in Htext. apply Nat.ltb_ge in Hlen.
  apply orb_false_elim in Hc as [Hc1 Hc2].
  eexists text, opts, c, _, r'.
  split; [done|]. split; [done|]. split; [done|].
  split; [cbn; apply lookup_insert_eq|]. cbn [bucket_id question_text options
    correct_answer points explanation is_active].
  split; [done|]. split; [done|]. split; [done|]. split; [done|].
  split; [done|]. split; [done|]. split; [done|]. split; [done|]. split.
  { intros z Hz. split; [by apply (index_in_range c)|]. congruence. }
  split; [done|]. split.
  { intros Hnone. rewrite Hnone in Hpts. by injection Hpts as <-. }
  split; [done|]. split; [done|]. split.
  { intros id Hne. cbn. by rewrite lookup_insert_ne. }
  split; [done|]. split.
  { intros id. cbn. destruct (decide (id = next_question_id db)) as [->|Hne].
    - lia.
    - rewrite lookup_insert_ne by done. intros Hid%Hids. lia. }
  split; [done|].
  destruct Hrec as [Htotal Hcounts].
  rewrite active_questions_updateBucketCounts in Htotal, Hcounts, Hlive.
  split.
  - rewrite Htotal. f_equal. unfold sql_count.
    rewrite (active_questions_insert b db _ _ _ Hfresh).
    rewrite decide_True by done. cbn [app length]. lia.
  - destruct (active_questions b _) as [|q rows] eqn:Hrows; [done|].
    by destruct Hcounts as (-> & -> & -> & _).
Qed.

Lemma add_question_stores_witness :
  let db' := (add_question rounding_down 1 a_medium_body one_question_bank).2 in
  ∃ row r',
    questions db' !! 2 = Some row ∧
    question_text row = "What is a closure?" ∧
    correct_answer row = 0%Z ∧
    points row = 1%Z ∧
    question_buckets db' !! 1 = Some r' ∧
    total_questions r' = Some 2%Z ∧
    medium_count r' = Some (live_count medium 1 db').
Proof.
  intros db'.
  destruct (add_question_stores rounding_down 1 a_medium_body one_question_bank)
    as (text & opts & c & row & r' & Htext & _ & Hc & Hrow & _ & Htrim & _ & _
        & _ & _ & _ & _ & Hindex & _ & Hpoints & _ & _ & _ & _ & _ & Hr'
        & Htotal & _ & Hmedium & _).
  - intros id [q Hq]. destruct (decide (id = 1)) as [->|Hne]; [cbn; lia|].
    cbn in Hq. by rewrite lookup_singleton_ne in Hq.
  - reflexivity.
  - exists row, r'. split; [exact Hrow|]. split.
    + rewrite Htrim. injection Htext as <-. reflexivity.
    + split.
      { injection Hc as <-. by apply (Hindex 0%Z). }
      split; [by apply Hpoints|].
      split; [exact Hr'|]. split; [|exact Hmedium].
      rewrite Htotal. reflexivity.
Defined.

(** A text of no-break spaces only is refused, and so is an index
    that is not below the number of options; an index between two
    integers passes the comparisons. *)
Example add_question_refuses_wide_space :
  trim (String.append no_break_space no_break_space) = EmptyString ∧
  (add_question rounding_down 1 (blank_text a_medium_body) one_question_bank).1
  = 400 ∧
  (add_question rounding_down 1 (with_index a_medium_body (of_int 2))
     one_question_bank).1 = 400 ∧
  (add_question rounding_down 1 (with_index a_medium_body a_half)
     one_question_bank).1 = 200.
Proof. by vm_compute. Qed.

(** X19. A request to add, update or delete a question that is not
    answered with 200 changes nothing: the handlers answer 200, 400,
    404 or 500 only, and with any status but 200 the buckets and the
    questions are as before. *)
Theorem rejected_requests_change_nothing db :
  (∀ int_column b body,
     (add_question int_column b body db).1 ∈ [200; 400; 500] ∧
     ((add_question int_column b body db).1 ≠ 200 →
      (add_question int_column b body db).2 = db)) ∧
  (∀ id body, (update_question id body db).1 ∈ [200; 404; 500] ∧
              ((update_question id body db).1 ≠ 200 →
               (update_question id body db).2 = db)) ∧
  (∀ id, (delete_question id db).1 ∈ [200; 404] ∧
         ((delete_question id db).1 ≠ 200 → (delete_question id db).2 = db) ∧
         ((delete_question id db).1 = 404 ↔ questions db !! id = None)).
Proof.
  split; [|split].
  - intros int_column b body. unfold add_question.
    destruct (aq_question_text body) as [text|]; [|split; [set_solver|done]].
    destruct (String.eqb (trim text) ""); [split; [set_solver|done]|].
    destruct (aq_options body) as [opts|]; [|split; [set_solver|done]].
    destruct (length opts <? 2); [split; [set_solver|done]|].
    destruct (aq_correct_answer body) as [c|]; [|split; [set_solver|done]].
    destruct (_ || _); [split; [set_solver|done]|].
    destruct (aq_difficulty body ≫= parse_difficulty) as [d|];
      [|split; [set_solver|done]].
    destruct (trimmed_explanation (aq_explanation body));
      [|split; [set_solver|done]].
    destruct (question_buckets db !! b); [|split; [set_solver|done]].
    destruct (int_column c); [|split; [set_solver|done]].
    destruct (stored_points int_column (aq_points body));
      split; try set_solver; done.
  - intros id body. unfold update_question.
    destruct (uq_question_text body); [|split; [set_solver|done]].
    destruct (uq_options body); [|split; [set_solver|done]].
    destruct (uq_correct_answer body); [|split; [set_solver|done]].
    destruct (uq_difficulty body) as [dtext|]; [|split; [set_solver|done]].
    destruct (uq_is_active body); [|split; [set_solver|done]].
    destruct (questions db !! id); [|split; [set_solver|done]].
    destruct (parse_difficulty dtext); split; try set_solver; done.
  - intros id. unfold delete_question.
    destruct (questions db !! id); cbn [fst snd].
    + split; [set_solver|]. split; [done|]. split; [done|done].
    + split; [set_solver|]. done.
Qed.

(** X20. [updateBucketCounts] writes the four counters of one bucket
    and nothing else: the questions, the next id and every other bucket
    are as before, the name, description, subject and activity of the
    bucket too; a bucket id that does not exist changes nothing; and a
    second recount changes nothing. *)
Theorem updateBucketCounts_frame b db :
  let db' := updateBucketCounts b db in
  questions db' = questions db ∧
  next_question_id db' = next_question_id db ∧
  (∀ b', b' ≠ b → question_buckets db' !! b' = question_buckets db !! b') ∧
  (question_buckets db !! b = None → db' = db) ∧
  (∀ r, question_buckets db !! b = Some r →
     ∃ r', question_buckets db' !! b = Some r' ∧
           bucket_name r' = bucket_name r ∧
           bucket_description r' = bucket_description r ∧
           subject r' = subject r ∧
           bucket_is_active r' = bucket_is_active r ∧
           total_questions r' = Some (sql_count (active_questions b db))) ∧
  updateBucketCounts b db' = db'.
Proof.
  intros db'. subst db'.
  split; [done|]. split; [done|]. split; [|split; [|split]].
  - intros b' Hne. cbn. by rewrite lookup_alter_ne.
  - intros Hnone. unfold updateBucketCounts.
    destruct db as [buckets qs next]. cbn in *. f_equal.
    apply map_eq. intros b'. destruct (decide (b' = b)) as [->|Hne].
    + by rewrite lookup_alter_eq, Hnone.
    + by rewrite lookup_alter_ne.
  - intros r Hr. eexists. split.
    + cbn. by rewrite lookup_alter_eq, Hr.
    + done.
  - apply updateBucketCounts_twice.
Qed.

(** X21. What the list of buckets shows for a bucket whose recount ran
    last: its counters as numbers, never NULL, equal to the live counts
    of its active questions, with the total equal to the sum of the
    three difficulty counts, also when the bucket has no active
    question. *)
Theorem get_buckets_after_recount ordered b db v :
  (∀ l, ordered l ≡ₚ l) →
  v ∈ get_buckets ordered (updateBucketCounts b db) →
  bv_id v = b →
  bv_total_questions v = sql_count (active_questions b db) ∧
  bv_easy_count v = live_count easy b db ∧
  bv_medium_count v = live_count medium b db ∧
  bv_hard_count v = live_count hard b db ∧
  bv_total_questions v = (bv_easy_count v + bv_medium_count v + bv_hard_count v)%Z.
Proof.
  intros Hordered Hv Hid. unfold get_buckets in Hv.
  apply list_elem_of_fmap in Hv as ([b0 r'] & -> & Hin).
  rewrite Hordered in Hin. apply list_elem_of_filter in Hin as [_ Hin].
  apply elem_of_map_to_list in Hin. cbn in Hid. subst b0.
  destruct (question_buckets db !! b) as [r|] eqn:Hr.
  - destruct (updateBucketCounts_counts b db r Hr) as (r'' & Hr'' & Htotal & Hcounts).
    rewrite Hin in Hr''. injection Hr'' as <-.
    rewrite active_questions_updateBucketCounts in Htotal, Hcounts.
    unfold live_count in *. rewrite !active_questions_updateBucketCounts in Hcounts.
    cbn [view_bucket bv_total_questions bv_easy_count bv_medium_count
         bv_hard_count fst snd]. rewrite Htotal.
    destruct (active_questions b db) as [|q rows] eqn:Hrows.
    + destruct Hcounts as (-> & -> & ->). by cbn.
    + destruct Hcounts as (-> & -> & -> & Hsum). cbn [or_zero default].
      repeat split. exact Hsum.
  - cbn in Hin. by rewrite lookup_alter_eq, Hr in Hin.
Qed.

Lemma get_buckets_after_recount_witness :
  let db := (delete_question 1 one_question_bank).2 in
  ∃ v, v ∈ get_buckets id (updateBucketCounts 1 db) ∧
       bv_total_questions v = sql_count (active_questions 1 db) ∧
       bv_easy_count v = live_count easy 1 db.
Proof.
  intros db.
  destruct (get_buckets id (updateBucketCounts 1 db)) as [|v l] eqn:Hl;
    [by vm_compute in Hl|].
  exists v. split; [apply list_elem_of_here|].
  assert (Hid : bv_id v = 1) by (vm_compute in Hl; by injection Hl as <- _).
  assert (Hv : v ∈ get_buckets id (updateBucketCounts 1 db))
    by (rewrite Hl; apply list_elem_of_here).
  destruct (get_buckets_after_recount id 1 db v (λ l, reflexivity l) Hv Hid)
    as (Ht & He & _).
  split; [exact Ht|exact He].
Defined.

(** X22. An update of a question that is answered with 200 rewrites
    that one question in place: it stays in its bucket, the other
    questions and the next id are as before, no question is added or
    removed, and the difficulty given was one of easy, medium and
    hard. *)
Theorem update_question_in_place id body db :
  (update_question id body db).1 = 200 →
  let db' := (update_question id body db).2 in
  ∃ old new d,
    questions db !! id = Some old ∧
    questions db' !! id = Some new ∧
    bucket_id new = bucket_id old ∧
    uq_difficulty body ≫= parse_difficulty = Some d ∧
    q_difficulty new = d ∧
    Some (is_active new) = uq_is_active body ∧
    (∀ id', id' ≠ id → questions db' !! id' = questions db !! id') ∧
    dom (questions db') = dom (questions db) ∧
    next_question_id db' = next_question_id db ∧
    (∀ b', b' ≠ bucket_id old →
       question_buckets db' !! b' = question_buckets db !! b').
Proof.
  unfold update_question.
  destruct (uq_question_text body); [|done].
  destruct (uq_options body); [|done].
  destruct (uq_correct_answer body); [|done].
  destruct (uq_difficulty body) as [dtext|]; [|done].
  destruct (uq_is_active body); [|done].
  destruct (questions db !! id) as [old|] eqn:Hold; [|done].
  destruct (parse_difficulty dtext) as [d|] eqn:Hd; [|done].
  intros _. cbn [fst snd]. eexists old, _, d.
  split; [done|]. split; [cbn; apply lookup_insert_eq|].
  cbn [bucket_id q_difficulty is_active].
  split; [done|]. split; [done|]. split; [done|]. split; [done|].
  split; [|split; [|split]].
  - intros id' Hne. cbn. by rewrite lookup_insert_ne.
  - cbn. apply dom_insert_lookup_L. by eexists.
  - done.
  - intros b' Hne. cbn. by rewrite lookup_alter_ne.
Qed.

Lemma update_question_in_place_witness :
  let db' := (update_question 1 (switch_off an_easy_question) one_question_bank).2 in
  ∃ new, questions db' !! 1 = Some new ∧ bucket_id new = 1 ∧
         is_active new = Some false.
Proof.
  intros db'.
  destruct (update_question_in_place 1 (switch_off an_easy_question)
              one_question_bank eq_refl)
    as (old & new & d & Hold & Hnew & Hbucket & _ & _ & Hact & _).
  exists new. split; [exact Hnew|].
  injection Hold as <-. split; [exact Hbucket|]. by injection Hact as ->.
Defined.

(** ** Composing a quiz from a bucket: what the handler keeps *)

Section compose_facts.

Lemma normalize_all_length qs ns :
  normalize_all qs = Some ns → length ns = length qs.
Proof.
  revert ns. induction qs as [|q qs IH]; intros ns; cbn.
  - by intros [= <-].
  - destruct (normalize_question q); [|done].
    destruct (normalize_all qs) as [ns'|]; [|done].
    intros [= <-]. cbn. by rewrite (IH ns').
Qed.

End compose_facts.

(** X23. The compose handler never touches the buckets or the
    questions, never changes or removes a quiz or a mapping that is
    stored, and changes nothing when it answers that the quiz id
    exists.  When it answers that the quiz was created, the id was free
    and the quiz stored under it is custom, has 1 point per question
    and holds as many questions as the request sent, which is the
    number reported. *)
Theorem create_from_bucket_keeps body st :
  let out := create_from_bucket body st in
  qs_bank out.2 = qs_bank st ∧
  (∀ id quiz, qs_quizzes st !! id = Some quiz →
              qs_quizzes out.2 !! id = Some quiz) ∧
  quiz_bucket_mappings st `prefix_of` quiz_bucket_mappings out.2 ∧
  (out.1 = DuplicateQuiz → out.2 = st) ∧
  (∀ quizId n, out.1 = Created quizId n →
     fb_quizId body = Some quizId ∧
     qs_quizzes st !! quizId = None ∧
     n = length (default [] (fb_selectedQuestions body)) ∧
     ∃ quiz, qs_quizzes out.2 !! quizId = Some quiz ∧
             length (cq_questions quiz) = n ∧
             cq_is_custom quiz = true ∧
             cq_points_per_question quiz = 1%Z).
Proof.
  intros out. subst out. unfold create_from_bucket.
  destruct (normalize_all _) as [ns|] eqn:Hns; [|by repeat split].
  apply normalize_all_length in Hns.
  destruct (fb_quizId body) as [quizId|]; [|by repeat split].
  destruct (fb_quizName body) as [quizName|]; [|by repeat split].
  destruct (fb_description body) as [description|]; [|by repeat split].
  destruct (qs_quizzes st !! quizId) eqn:Hfree; [by repeat split|].
  assert (Hkept : ∀ (q : composed_quiz) id quiz,
    qs_quizzes st !! id = Some quiz →
    <[quizId := q]> (qs_quizzes st) !! id = Some quiz).
  { intros q id quiz Hid. rewrite lookup_insert_ne; [done|]. congruence. }
  destruct (fb_bucketId body) as [bucketId|]; [|by repeat split; try apply Hkept].
  destruct (fb_easyCount body); [|by repeat split; try apply Hkept].
  destruct (fb_mediumCount body); [|by repeat split; try apply Hkept].
  destruct (fb_hardCount body); [|by repeat split; try apply Hkept].
  destruct (fb_totalQuestions body); [|by repeat split; try apply Hkept].
  destruct (question_buckets (qs_bank st) !! bucketId);
    [|by repeat split; try apply Hkept].
  cbn [fst snd qs_bank qs_quizzes quiz_bucket_mappings].
  split; [done|]. split; [apply Hkept|]. split; [by apply prefix_app_r|].
  split; [done|]. intros quizId' n [= <- <-].
  split; [done|]. split; [done|]. split; [done|].
  eexists. split; [apply lookup_insert_eq|]. by cbn.
Qed.

(** X24. The two inserts of the compose handler are not atomic: a
    request with a free quiz id whose bucket is not there is answered
    as failed, and yet the quiz is stored, without a mapping; the same
    request sent again is answered that the quiz id exists. *)
Theorem create_from_bucket_not_atomic body st qs quizId quizName description :
  normalize_all (default [] (fb_selectedQuestions body)) = Some qs →
  fb_quizId body = Some quizId →
  fb_quizName body = Some quizName →
  fb_description body = Some description →
  qs_quizzes st !! quizId = None →
  fb_bucketId body ≫= (λ b, question_buckets (qs_bank st) !! b) = None →
  let out := create_from_bucket body st in
  out.1 = Failed ∧
  (∃ quiz, qs_quizzes out.2 !! quizId = Some quiz ∧ cq_questions quiz = qs) ∧
  quiz_bucket_mappings out.2 = quiz_bucket_mappings st ∧
  create_from_bucket body out.2 = (DuplicateQuiz, out.2).
Proof.
  intros Hqs Hid Hname Hdescr Hfree Hbucket out.
  assert (Hout : ∃ quiz,
    out = (Failed, {| qs_bank := qs_bank st;
                      qs_quizzes := <[quizId := quiz]> (qs_quizzes st);
                      quiz_bucket_mappings := quiz_bucket_mappings st |}) ∧
    cq_questions quiz = qs).
  { subst out. unfold create_from_bucket.
    rewrite Hqs, Hid, Hname, Hdescr, Hfree.
    destruct (fb_bucketId body) as [b|]; [|by eexists].
    cbn in Hbucket. rewrite Hbucket.
    destruct (fb_easyCount body), (fb_mediumCount body), (fb_hardCount body),
      (fb_totalQuestions body); by eexists. }
  destruct Hout as (quiz & -> & Hquiz). cbn [fst snd qs_quizzes quiz_bucket_mappings].
  split; [done|]. split; [exists quiz; by rewrite lookup_insert_eq|].
  split; [done|].
  unfold create_from_bucket. rewrite Hqs, Hid, Hname, Hdescr. cbn [qs_quizzes].
  by rewrite lookup_insert_eq.
Qed.

Lemma create_from_bucket_not_atomic_witness :
  let out := create_from_bucket missing_bucket_request two_easy_store in
  out.1 = Failed ∧
  is_Some (qs_quizzes out.2 !! "js-easy") ∧
  create_from_bucket missing_bucket_request out.2 = (DuplicateQuiz, out.2).
Proof.
  intros out.
  destruct (normalize_all (default [] (fb_selectedQuestions missing_bucket_request)))
    as [qs|] eqn:Hqs; [|by vm_compute in Hqs].
  destruct (create_from_bucket_not_atomic missing_bucket_request two_easy_store
              qs "js-easy" "JavaScript, easy" "Two easy questions" Hqs)
    as (Hfailed & (quiz & Hquiz & _) & _ & Hagain); try reflexivity.
  split; [exact Hfailed|]. split; [by exists quiz|exact Hagain].
Defined.

(** ** CSV lines: proofs *)

Section csv_facts.
Implicit Types (s line current text : string) (c : Ascii.ascii).

Lemma append_cons c s1 s2 :
  String.append (String c s1) s2 = String c (String.append s1 s2).
Proof. reflexivity. Qed.

Lemma append_empty_l s : String.append EmptyString s = s.
Proof. reflexivity. Qed.

Lemma append_assoc s1 s2 s3 :
  String.append (String.append s1 s2) s3 = String.append s1 (String.append s2 s3).
Proof.
  induction s1 as [|c s1 IH]; [done|]. rewrite !append_cons. by rewrite IH.
Qed.

Lemma append_empty_r s : String.append s EmptyString = s.
Proof. induction s as [|c s IH]; [done|]. rewrite append_cons. by rewrite IH. Qed.

Lemma has_char_append c s1 s2 :
  has_char c (String.append s1 s2) = has_char c s1 || has_char c s2.
Proof.
  induction s1 as [|c1 s1 IH]; [done|].
  rewrite append_cons. cbn. by rewrite IH, orb_assoc.
Qed.

Lemma scan_fields_comma rest current :
  scan_fields (String comma rest) current false
  = current :: scan_fields rest EmptyString false.
Proof. reflexivity. Qed.

Lemma scan_fields_quote rest current (inQuotes : bool) :
  scan_fields (String quote rest) current inQuotes
  = scan_fields rest current (negb inQuotes).
Proof. reflexivity. Qed.

Lemma has_char_rev_app c s1 s2 :
  has_char c (String.rev_app s1 s2) = has_char c s1 || has_char c s2.
Proof.
  revert s2. induction s1 as [|c1 s1 IH]; intros s2; cbn; [done|].
  rewrite IH. cbn. destruct (Ascii.eqb c1 c), (has_char c s1); done.
Qed.

(** Stripping white space leaves an end of the string. *)
Lemma strip_spaces_suffix (backwards : bool) n s :
  String.length s ≤ n →
  ∃ front, s = String.append front (strip_spaces backwards s).
Proof.
  revert s. induction n as [|n IH]; intros s Hn.
  { destruct s; [by exists EmptyString|cbn in Hn; lia]. }
  destruct s as [|a s1]; [by exists EmptyString|]. cbn in Hn.
  cbn [strip_spaces]. destruct (Ascii.is_space a).
  { destruct (IH s1 ltac:(lia)) as [front Hfront].
    exists (String a front). rewrite append_cons. by rewrite <- Hfront. }
  destruct s1 as [|b s2]; [by exists EmptyString|]. cbn in Hn.
  match goal with |- context [if ?t then strip_spaces _ s2 else _] =>
    destruct t end.
  { destruct (IH s2 ltac:(lia)) as [front Hfront].
    exists (String a (String b front)). rewrite !append_cons.
    by rewrite <- Hfront. }
  destruct s2 as [|c s3]; [by exists EmptyString|]. cbn in Hn.
  match goal with |- context [if ?t then strip_spaces _ s3 else _] =>
    destruct t end.
  { destruct (IH s3 ltac:(lia)) as [front Hfront].
    exists (String a (String b (String c front))). rewrite !append_cons.
    by rewrite <- Hfront. }
  by exists EmptyString.
Qed.

Lemma has_char_strip_spaces (backwards : bool) c s :
  has_char c s = false → has_char c (strip_spaces backwards s) = false.
Proof.
  intros Hs.
  destruct (strip_spaces_suffix backwards (String.length s) s (le_n _))
    as [front Hfront].
  rewrite Hfront, has_char_append in Hs. by apply orb_false_elim in Hs as [_ ?].
Qed.

Lemma has_char_trim c s : has_char c s = false → has_char c (trim s) = false.
Proof.
  intros Hs. unfold trim, trim_start, String.rev.
  rewrite has_char_rev_app, orb_false_r.
  apply has_char_strip_spaces.
  rewrite has_char_rev_app, orb_false_r.
  by apply has_char_strip_spaces.
Qed.

Lemma remove_quotes_id s : has_char quote s = false → remove_quotes s = s.
Proof.
  induction s as [|c s IH]; cbn; [done|].
  intros [H1 H2]%orb_false_elim. by rewrite H1, IH.
Qed.

(** The loop never puts a quote into a field. *)
Lemma scan_fields_no_quote line current (inQuotes : bool) :
  has_char quote current = false →
  Forall (λ f, has_char quote f = false) (scan_fields line current inQuotes).
Proof.
  revert current inQuotes.
  induction line as [|c line IH]; intros current inQuotes Hcur; cbn.
  - by constructor.
  - destruct (Ascii.eqb c quote) eqn:Hc; [by apply IH|].
    destruct (Ascii.eqb c comma && negb inQuotes).
    + constructor; [done|]. by apply IH.
    + apply IH. rewrite has_char_append, Hcur. cbn. by rewrite Hc.
Qed.

Lemma scan_fields_length line current (inQuotes : bool) :
  1 ≤ length (scan_fields line current inQuotes) ≤ 1 + count_char comma line ∧
  (has_char quote line = false → inQuotes = false →
   length (scan_fields line current inQuotes) = 1 + count_char comma line).
Proof.
  revert current inQuotes.
  induction line as [|c line IH]; intros current inQuotes; cbn; [by auto with lia|].
  destruct (Ascii.eqb c quote) eqn:Hq.
  - destruct (IH current (negb inQuotes)) as [Hle _].
    split; [|done]. destruct (Ascii.eqb c comma); lia.
  - destruct (Ascii.eqb c comma) eqn:Hc; cbn [andb].
    + destruct inQuotes; cbn [negb].
      * destruct (IH (String.append current (String c EmptyString)) true)
          as [Hle _]. split; [lia|done].
      * destruct (IH EmptyString false) as [Hle Heq].
        cbn [length]. split; [lia|]. intros Hline _. rewrite Heq; done.
    + destruct (IH (String.append current (String c EmptyString)) inQuotes)
        as [Hle Heq]. split; [lia|]. cbn. exact Heq.
Qed.

(** Text without quotes inside quotes, and text without quotes and
    commas outside, goes into the current field. *)
Lemma scan_fields_inside text rest current :
  has_char quote text = false →
  scan_fields (String.append text rest) current true
  = scan_fields rest (String.append current text) true.
Proof.
  revert current. induction text as [|c text IH]; intros current.
  - by rewrite append_empty_l, append_empty_r.
  - cbn [has_char]. intros [H1 H2]%orb_false_elim.
    rewrite append_cons. cbn [scan_fields]. rewrite H1, andb_false_r.
    rewrite IH by done. by rewrite append_assoc, append_cons, append_empty_l.
Qed.

Lemma scan_fields_outside text rest current :
  has_char quote text = false → has_char comma text = false →
  scan_fields (String.append text rest) current false
  = scan_fields rest (String.append current text) false.
Proof.
  revert current. induction text as [|c text IH]; intros current.
  - by rewrite append_empty_l, append_empty_r.
  - cbn [has_char]. intros [H1 H2]%orb_false_elim [H3 H4]%orb_false_elim.
    rewrite append_cons. cbn [scan_fields]. rewrite H1, H3. cbn [andb].
    rewrite IH by done. by rewrite append_assoc, append_cons, append_empty_l.
Qed.

Lemma scan_fields_write_field f rest current :
  writable f = true →
  scan_fields (String.append (write_field f) rest) current false
  = scan_fields rest (String.append current (field_text f)) false.
Proof.
  destruct f as [text|text]; cbn [writable write_field field_text].
  - intros [H1 H2]%andb_true_iff.
    apply negb_true_iff in H1, H2. by apply scan_fields_outside.
  - intros H1%negb_true_iff.
    rewrite append_cons, scan_fields_quote. cbn [negb].
    rewrite append_assoc, scan_fields_inside by done.
    by rewrite append_cons, append_empty_l, scan_fields_quote.
Qed.

Lemma scan_fields_write_line f fs current :
  Forall (λ f, writable f = true) (f :: fs) →
  scan_fields (write_line (f :: fs)) current false
  = String.append current (field_text f) :: (field_text <$> fs).
Proof.
  revert f current. induction fs as [|f' fs IH]; intros f current Hall.
  - apply Forall_cons in Hall as [Hf _]. cbn [write_line].
    rewrite <-(append_empty_r (write_field f)).
    by rewrite scan_fields_write_field.
  - apply Forall_cons in Hall as [Hf Hfs].
    change (write_line (f :: f' :: fs))
      with (String.append (write_field f) (String comma (write_line (f' :: fs)))).
    rewrite scan_fields_write_field by done.
    rewrite scan_fields_comma. by rewrite IH, append_empty_l.
Qed.

Lemma writable_no_quote f :
  writable f = true → has_char quote (field_text f) = false.
Proof.
  destruct f; cbn; [intros [H _]%andb_true_iff|intros H];
    by apply negb_true_iff in H.
Qed.

End csv_facts.

(** X25. The fields of [parseCSVLine]: the loop never copies a quote
    into a field, so the removal of the quotes that follows changes
    nothing and no field of the result holds a quote; every line, the
    empty one too, gives at least one field and at most one more than it
    has commas, and exactly that many when it has no quote. *)
Theorem parseCSVLine_fields line :
  parseCSVLine line = trim <$> scan_fields line EmptyString false ∧
  Forall (λ f, has_char quote f = false) (parseCSVLine line) ∧
  1 ≤ length (parseCSVLine line) ≤ 1 + count_char comma line ∧
  (has_char quote line = false →
   length (parseCSVLine line) = 1 + count_char comma line).
Proof.
  pose proof (scan_fields_no_quote line EmptyString false eq_refl) as Hno.
  assert (Heq : parseCSVLine line = trim <$> scan_fields line EmptyString false).
  { unfold parseCSVLine. apply Forall_fmap_ext.
    eapply Forall_impl; [exact Hno|].
    intros f Hf. cbn beta. by rewrite remove_quotes_id. }
  split; [exact Heq|]. split.
  - rewrite Heq. apply Forall_fmap. eapply Forall_impl; [exact Hno|].
    intros f Hf. by apply has_char_trim.
  - rewrite Heq, length_fmap.
    destruct (scan_fields_length line EmptyString false) as [Hle Hexact].
    split; [exact Hle|]. intros Hline. by apply Hexact.
Qed.

(** X26. Reading back a written line: for a line made of at least one
    field, each written plain (it holds no quote and no comma) or
    between quotes (it holds no quote, and may hold commas),
    [parseCSVLine] returns the fields in order, each without its outer
    white space.  The empty line gives one empty field. *)
Theorem parseCSVLine_reads_back fs :
  fs ≠ [] →
  Forall (λ f, writable f = true) fs →
  parseCSVLine (write_line fs) = (λ f, trim (field_text f)) <$> fs ∧
  parseCSVLine EmptyString = [EmptyString].
Proof.
  intros Hfs Hall. split; [|done].
  destruct fs as [|f fs]; [done|].
  unfold parseCSVLine. rewrite scan_fields_write_line by done.
  rewrite append_empty_l.
  change (field_text f :: (field_text <$> fs)) with (field_text <$> f :: fs).
  rewrite <-list_fmap_compose.
  apply Forall_fmap_ext. eapply Forall_impl; [exact Hall|].
  intros f' Hf'. cbn. by rewrite remove_quotes_id by by apply writable_no_quote.
Qed.

Lemma parseCSVLine_reads_back_witness :
  parseCSVLine (write_line a_pool_line)
  = ["js-101"; "JavaScript, the basics"; "What is 1 + 1?";
     "1"; "2"; "3"; "4"; "1"].
Proof.
  refine (eq_trans (proj1 (parseCSVLine_reads_back a_pool_line _ _)) _).
  - done.
  - unfold a_pool_line. repeat (constructor; [reflexivity|]). constructor.
  - reflexivity.
Defined.

(** The white space that is trimmed includes the no-break space. *)
Example parseCSVLine_wide_space :
  parseCSVLine a_wide_space_line = ["a"; "b"].
Proof. by vm_compute. Qed.

(** ** Editing the questions of a quiz: proofs *)

Section admin_facts.
Variable stored_as : list json → questions_column.
Implicit Types (quizzes : gmap string quiz_row) (items : list json).

Lemma write_questions_lookup now id items quizzes quiz :
  quizzes !! id = Some quiz →
  ∃ quiz', write_questions stored_as now id items quizzes !! id = Some quiz' ∧
           quiz_questions quiz' = stored_as items ∧
           quiz_updated_at quiz' = now ∧
           quiz_name quiz' = quiz_name quiz ∧
           quiz_created_at quiz' = quiz_created_at quiz ∧
           randomization_settings quiz' = randomization_settings quiz.
Proof.
  intros Hquiz. unfold write_questions. rewrite lookup_alter_eq, Hquiz.
  by eexists.
Qed.

Lemma write_questions_twice now now' id items items' quizzes :
  write_questions stored_as now' id items'
    (write_questions stored_as now id items quizzes)
  = write_questions stored_as now' id items' quizzes.
Proof.
  unfold write_questions. apply map_eq. intros id'.
  destruct (decide (id' = id)) as [->|Hne].
  - rewrite !lookup_alter_eq. by destruct (quizzes !! id).
  - by rewrite !lookup_alter_ne.
Qed.

Lemma validated_is_object body question :
  validated body = Some question → is_object question = true.
Proof.
  unfold validated.
  destruct (qb_question body) as [q|]; [|done].
  destruct (qb_options body) as [[| | | |opts|]|]; try done.
  destruct (qb_correct body) as [c|]; [|done].
  destruct (json_truthy q); [|done]. by intros [= <-].
Qed.

Lemma out_of_range_spec i len :
  out_of_range (Some i) len = true ↔ (i < 0 ∨ Z.of_nat len ≤ i)%Z.
Proof.
  cbn. rewrite orb_true_iff, Z.ltb_lt, Z.leb_le. done.
Qed.

End admin_facts.

(** X27. When the driver hands the stored questions over as a decoded
    array of question objects, parsing them again throws.  Adding a
    question then answers 200 with a question count of 1 and stores the
    new question alone, whatever was stored before, and the quiz is
    again in that state; updating or deleting a question by index
    answers 400 and changes nothing, for every index. *)
Theorem decoded_questions_are_not_parsed now id quiz items body question
    idx quizzes :
  quizzes !! id = Some quiz →
  quiz_questions quiz = QArray items →
  forallb is_object items = true →
  validated body = Some question →
  (∃ quiz',
     add_single QArray now id body quizzes
       = Answered 200 (Some 1) (<[id := quiz']> quizzes) ∧
     quiz_questions quiz' = QArray [question] ∧
     forallb is_object [question] = true ∧
     quiz_name quiz' = quiz_name quiz) ∧
  update_at QArray now id idx body quizzes = Answered 400 None quizzes ∧
  delete_at QArray now id idx quizzes = Answered 400 None quizzes.
Proof.
  intros Hquiz Hcol Hobjects Hbody.
  assert (Hread : read_questions (quiz_questions quiz) = ParseError).
  { rewrite Hcol. cbn. by rewrite Hobjects. }
  split; [|split].
  - unfold add_single. rewrite Hbody, Hquiz, Hread.
    eexists. split.
    + f_equal. unfold write_questions. apply map_eq. intros id'.
      destruct (decide (id' = id)) as [->|Hne].
      * rewrite lookup_alter_eq, lookup_insert_eq, Hquiz. done.
      * by rewrite lookup_alter_ne, lookup_insert_ne.
    + cbn. by rewrite (validated_is_object _ _ Hbody).
  - unfold update_at. by rewrite Hbody, Hquiz, Hread.
  - unfold delete_at. by rewrite Hquiz, Hread.
Qed.

Lemma decoded_questions_are_not_parsed_witness :
  ∃ quiz' question,
    add_single QArray 9 "html" a_new_question {["html" := plain_quiz]}
      = Answered 200 (Some 1) (<["html" := quiz']> {["html" := plain_quiz]}) ∧
    quiz_questions quiz' = QArray [question].
Proof.
  destruct (validated a_new_question) as [question|] eqn:Hbody;
    [|by vm_compute in Hbody].
  destruct (decoded_questions_are_not_parsed 9 "html" plain_quiz _
              a_new_question question None {["html" := plain_quiz]}
              (lookup_singleton_eq _ _) eq_refl eq_refl Hbody)
    as ((quiz' & Hadd & Hcol & _) & _).
  by exists quiz', question.
Defined.

(** X28. Updating or deleting by an integer index, on stored questions
    that parse to an array: an index below 0 or not below the number of
    questions is answered 404 and changes nothing, so every index is on
    an empty list; an index in range replaces, or removes, exactly the
    question at that place and leaves the others in their order, and
    the delete reports one question less. *)
Theorem edits_by_index stored_as now id quiz items i body question quizzes :
  quizzes !! id = Some quiz →
  read_questions (quiz_questions quiz) = Parsed (JsArr items) →
  validated body = Some question →
  ((i < 0 ∨ Z.of_nat (length items) ≤ i)%Z →
   update_at stored_as now id (Some i) body quizzes = Answered 404 None quizzes ∧
   delete_at stored_as now id (Some i) quizzes = Answered 404 None quizzes) ∧
  ((0 ≤ i < Z.of_nat (length items))%Z →
   ∃ before old after,
     items = before ++ old :: after ∧
     length before = Z.to_nat i ∧
     update_at stored_as now id (Some i) body quizzes
       = Answered 200 None
           (write_questions stored_as now id (before ++ question :: after)
              quizzes) ∧
     delete_at stored_as now id (Some i) quizzes
       = Answered 200 (Some (length items - 1))
           (write_questions stored_as now id (before ++ after) quizzes)).
Proof.
  intros Hquiz Hread Hbody. split.
  - intros Hout%out_of_range_spec.
    unfold update_at, delete_at. by rewrite Hbody, Hquiz, Hread, Hout.
  - intros Hin.
    assert (Hrange : out_of_range (Some i) (length items) = false).
    { apply not_true_is_false. rewrite out_of_range_spec. lia. }
    destruct (lookup_lt_is_Some_2 items (Z.to_nat i)) as [old Hold]; [lia|].
    exists (take (Z.to_nat i) items), old, (drop (S (Z.to_nat i)) items).
    split; [by rewrite take_drop_middle|].
    split; [rewrite length_take; lia|].
    unfold update_at, delete_at. rewrite Hbody, Hquiz, Hread, Hrange.
    cbn [assign_at splice_at]. split.
    + f_equal. f_equal. apply insert_take_drop. lia.
    + rewrite delete_take_drop.
      rewrite length_app, length_take, length_drop.
      do 2 f_equal. lia.
Qed.

Lemma edits_by_index_witness :
  delete_at QArray 9 "html" (Some 1%Z) {["html" := text_quiz three_items]}
  = Answered 200 (Some 2)
      (write_questions QArray 9 "html"
         [JsObj [("question", JsStr "Q1")]; JsObj [("question", JsStr "Q3")]]
         {["html" := text_quiz three_items]}).
Proof.
  destruct (validated a_new_question) as [question|] eqn:Hbody;
    [|by vm_compute in Hbody].
  destruct (edits_by_index QArray 9 "html" (text_quiz three_items) three_items
              1%Z a_new_question question {["html" := text_quiz three_items]}
              (lookup_singleton_eq _ _) eq_refl Hbody) as [_ Hin].
  destruct Hin as (before & old & after & Hitems & Hlen & _ & Hdelete); [done|].
  rewrite Hdelete.
  destruct before as [|b1 [|b2 before]]; try done.
Defined.

(** X29. An index parameter that is not a number passes the range
    check of both handlers.  The update is then answered 200 although
    it stores the questions as they were; the delete is answered 200
    and removes the first question. *)
Theorem edits_with_NaN_index stored_as now id quiz items body question quizzes :
  quizzes !! id = Some quiz →
  read_questions (quiz_questions quiz) = Parsed (JsArr items) →
  validated body = Some question →
  update_at stored_as now id None body quizzes
    = Answered 200 None (write_questions stored_as now id items quizzes) ∧
  delete_at stored_as now id None quizzes
    = Answered 200 (Some (length items - 1))
        (write_questions stored_as now id (drop 1 items) quizzes) ∧
  (∀ first rest, items = first :: rest →
     delete_at stored_as now id None quizzes
     = delete_at stored_as now id (Some 0%Z) quizzes).
Proof.
  intros Hquiz Hread Hbody.
  unfold update_at, delete_at. rewrite Hbody, Hquiz, Hread.
  cbn [out_of_range assign_at splice_at].
  split; [done|]. split.
  - destruct items as [|first rest]; cbn; [done|].
    by rewrite drop_0, Nat.sub_0_r.
  - intros first rest ->. done.
Qed.

Lemma edits_with_NaN_index_witness :
  delete_at QArray 9 "html" None {["html" := text_quiz three_items]}
  = Answered 200 (Some 2)
      (write_questions QArray 9 "html"
         [JsObj [("question", JsStr "Q2")]; JsObj [("question", JsStr "Q3")]]
         {["html" := text_quiz three_items]}).
Proof.
  destruct (validated a_new_question) as [question|] eqn:Hbody;
    [|by vm_compute in Hbody].
  exact (proj1 (proj2
    (edits_with_NaN_index QArray 9 "html" (text_quiz three_items) three_items
       a_new_question question {["html" := text_quiz three_items]}
       (lookup_singleton_eq _ _) eq_refl Hbody))).
Defined.

(** X30. Where the column reads back as the text that was written,
    adding a question and then deleting the last one gives the stored
    questions back: the add reports one question more and the quiz then
    holds the old questions followed by the new one; the delete at the
    index of the new question reports the old count and the quiz then
    holds the old questions. *)
Theorem add_then_delete_last stored_as now now' id quiz items body question
    quizzes :
  (∀ l, read_questions (stored_as l) = Parsed (JsArr l)) →
  quizzes !! id = Some quiz →
  read_questions (quiz_questions quiz) = Parsed (JsArr items) →
  validated body = Some question →
  ∃ added,
    add_single stored_as now id body quizzes
      = Answered 200 (Some (length items + 1)) added ∧
    (∃ quiz', added !! id = Some quiz' ∧
              read_questions (quiz_questions quiz')
              = Parsed (JsArr (items ++ [question]))) ∧
    delete_at stored_as now' id (Some (Z.of_nat (length items))) added
      = Answered 200 (Some (length items))
          (write_questions stored_as now' id items quizzes).
Proof.
  intros Hstored Hquiz Hread Hbody.
  destruct (write_questions_lookup stored_as now id (items ++ [question])
              quizzes quiz Hquiz) as (quiz' & Hquiz' & Hcol & _).
  exists (write_questions stored_as now id (items ++ [question]) quizzes).
  split; [|split].
  - unfold add_single. rewrite Hbody, Hquiz, Hread.
    by rewrite length_app.
  - exists quiz'. split; [done|]. by rewrite Hcol.
  - unfold delete_at. rewrite Hquiz', Hcol, Hstored.
    assert (Hrange : out_of_range (Some (Z.of_nat (length items)))
                       (length (items ++ [question])) = false).
    { apply not_true_is_false. rewrite out_of_range_spec, length_app. cbn. lia. }
    rewrite Hrange. cbn [splice_at]. rewrite Nat2Z.id.
    rewrite delete_take_drop, take_app_length.
    rewrite drop_ge by (rewrite length_app; cbn; lia).
    rewrite app_nil_r. by rewrite write_questions_twice.
Qed.

Lemma add_then_delete_last_witness :
  ∃ added,
    add_single (as_text (λ _, "[...]")) 9 "html" a_new_question
      {["html" := text_quiz three_items]}
      = Answered 200 (Some 4) added ∧
    delete_at (as_text (λ _, "[...]")) 10 "html" (Some 3%Z) added
      = Answered 200 (Some 3)
          (write_questions (as_text (λ _, "[...]")) 10 "html" three_items
             {["html" := text_quiz three_items]}).
Proof.
  destruct (validated a_new_question) as [question|] eqn:Hbody;
    [|by vm_compute in Hbody].
  destruct (add_then_delete_last (as_text (λ _, "[...]")) 9 10 "html"
              (text_quiz three_items) three_items a_new_question question
              {["html" := text_quiz three_items]})
    as (added & Hadd & _ & Hdelete); try done.
  by exists added.
Defined.

